(** * shard-cache: LRU+TTL cache, rendezvous ring and quorum client

    A shallow embedding of three Go packages of the repository,

    - package cache  ([internal/cache/cache.go]): the LRU+TTL store,
    - package ring:   rendezvous hashing over the membership,
    - package client: the quorum coordinator,

    together with the properties of the written specification that concern
    them.  Go maps are [gmap]s, the [*Entry] pointers of the recency list are
    locations of an explicit heap, [int] and [uint64] are [Z], byte strings
    are [string]s (one [ascii] per byte). *)

From Stdlib Require Import ZArith String Ascii List Lia.
From Stdlib.Strings Require Import Byte.
From stdpp Require Import base option list gmap strings sorting.

Local Open Scope Z_scope.

(** ** Go runtime conventions shared by the three packages *)

(** A call that can bring the goroutine down with a run-time panic returns
    an [option]: [None] is the panic. *)

(** An [error] return value: [nil] is [Ok], anything else carries its text. *)
Inductive result (A : Type) : Type :=
| Ok (a : A)
| Err (msg : string).
Arguments Ok {A} a.
Arguments Err {A} msg.

Definition is_ok {A} (r : result A) : bool :=
  match r with Ok _ => true | Err _ => false end.

(** [[]byte(s)]: the bytes of a Go string. *)
Definition bytes_of_string (s : string) : list Z :=
  map (fun a => Z.of_N (N_of_ascii a)) (list_ascii_of_string s).

Definition string_of_bytes (bs : list Z) : string :=
  string_of_list_ascii (map (fun b => ascii_of_N (Z.to_N b)) bs).

(** ** crypto/md5 (RFC 1321), the digest behind [Ring.hash] *)

Module MD5.

Definition mask32 : Z := 0xffffffff.
Definition add32 (x y : Z) : Z := Z.land (x + y) mask32.
Definition not32 (x : Z) : Z := Z.lxor x mask32.
Definition rotl32 (x s : Z) : Z :=
  Z.lor (Z.land (Z.shiftl x s) mask32) (Z.shiftr x (32 - s)).

(** [T[i] = floor (2^32 * |sin (i + 1)|)]. *)
Definition T : list Z :=
  [ 0xd76aa478; 0xe8c7b756; 0x242070db; 0xc1bdceee; 0xf57c0faf; 0x4787c62a; 0xa8304613; 0xfd469501;
    0x698098d8; 0x8b44f7af; 0xffff5bb1; 0x895cd7be; 0x6b901122; 0xfd987193; 0xa679438e; 0x49b40821;
    0xf61e2562; 0xc040b340; 0x265e5a51; 0xe9b6c7aa; 0xd62f105d; 0x02441453; 0xd8a1e681; 0xe7d3fbc8;
    0x21e1cde6; 0xc33707d6; 0xf4d50d87; 0x455a14ed; 0xa9e3e905; 0xfcefa3f8; 0x676f02d9; 0x8d2a4c8a;
    0xfffa3942; 0x8771f681; 0x6d9d6122; 0xfde5380c; 0xa4beea44; 0x4bdecfa9; 0xf6bb4b60; 0xbebfbc70;
    0x289b7ec6; 0xeaa127fa; 0xd4ef3085; 0x04881d05; 0xd9d4d039; 0xe6db99e5; 0x1fa27cf8; 0xc4ac5665;
    0xf4292244; 0x432aff97; 0xab9423a7; 0xfc93a039; 0x655b59c3; 0x8f0ccc92; 0xffeff47d; 0x85845dd1;
    0x6fa87e4f; 0xfe2ce6e0; 0xa3014314; 0x4e0811a1; 0xf7537e82; 0xbd3af235; 0x2ad7d2bb; 0xeb86d391 ].

Definition shifts : list Z :=
  [ 7; 12; 17; 22; 7; 12; 17; 22; 7; 12; 17; 22; 7; 12; 17; 22;
    5;  9; 14; 20; 5;  9; 14; 20; 5;  9; 14; 20; 5;  9; 14; 20;
    4; 11; 16; 23; 4; 11; 16; 23; 4; 11; 16; 23; 4; 11; 16; 23;
    6; 10; 15; 21; 6; 10; 15; 21; 6; 10; 15; 21; 6; 10; 15; 21 ].

(** The auxiliary functions F, G, H, I of the four rounds. *)
Definition mix (i : nat) (b c d : Z) : Z :=
  if (i <? 16)%nat then Z.lor (Z.land b c) (Z.land (not32 b) d)
  else if (i <? 32)%nat then Z.lor (Z.land d b) (Z.land (not32 d) c)
  else if (i <? 48)%nat then Z.lxor b (Z.lxor c d)
  else Z.lxor c (Z.lor b (not32 d)).

(** Which message word step [i] consumes. *)
Definition msg_index (i : nat) : nat :=
  if (i <? 16)%nat then i
  else if (i <? 32)%nat then ((5 * i + 1) mod 16)%nat
  else if (i <? 48)%nat then ((3 * i + 5) mod 16)%nat
  else ((7 * i) mod 16)%nat.

Definition state : Type := Z * Z * Z * Z.

Definition step (M : list Z) (st : state) (i : nat) : state :=
  let '(a, b, c, d) := st in
  let f := add32 (add32 (add32 (mix i b c d) a) (nth i T 0)) (nth (msg_index i) M 0) in
  (d, add32 b (rotl32 f (nth i shifts 0)), b, c).

Definition compress (st : state) (M : list Z) : state :=
  let '(a0, b0, c0, d0) := st in
  let '(a, b, c, d) := fold_left (step M) (seq 0 64) st in
  (add32 a0 a, add32 b0 b, add32 c0 c, add32 d0 d).

(** Little-endian packing and unpacking. *)
Fixpoint le_bytes (n : nat) (x : Z) : list Z :=
  match n with
  | O => []
  | S n' => Z.land x 0xff :: le_bytes n' (Z.shiftr x 8)
  end.

Fixpoint le_word (bs : list Z) : Z :=
  match bs with
  | [] => 0
  | b :: bs' => Z.lor b (Z.shiftl (le_word bs') 8)
  end.

(** Cut a byte list into [count] chunks of [size] bytes. *)
Fixpoint chunks (size count : nat) (bs : list Z) : list (list Z) :=
  match count with
  | O => []
  | S c => firstn size bs :: chunks size c (skipn size bs)
  end.

(** Append 0x80, zeros up to 56 modulo 64, and the bit length on 8 bytes. *)
Definition pad (msg : list Z) : list Z :=
  let len := List.length msg in
  msg ++ [0x80] ++ repeat 0 ((119 - len mod 64) mod 64)%nat
      ++ le_bytes 8 (8 * Z.of_nat len).

Definition init : state := (0x67452301, 0xefcdab89, 0x98badcfe, 0x10325476).

(** [md5.Sum]: the 16 digest bytes. *)
Definition Sum (msg : list Z) : list Z :=
  let p := pad msg in
  let blocks := chunks 64 (List.length p / 64) p in
  let words (blk : list Z) := map le_word (chunks 4 16 blk) in
  let '(a, b, c, d) := fold_left (fun st blk => compress st (words blk)) blocks init in
  le_bytes 4 a ++ le_bytes 4 b ++ le_bytes 4 c ++ le_bytes 4 d.

End MD5.

(** [binary.BigEndian.Uint64] on the first eight bytes of a slice. *)
Definition BigEndian_Uint64 (bs : list Z) : Z :=
  fold_left (fun acc b => Z.lor (Z.shiftl acc 8) b) (firstn 8 bs) 0.

(** ** package ring *)

Module Ring.

(** [type Node struct { ID, Addr string }] *)
Record Node : Type := mkNode { ID : string; Addr : string }.

#[global] Instance Node_eq_dec : EqDecision Node.
Proof. solve_decision. Defined.

(** [type Ring struct { mu sync.RWMutex; nodes map[string]*Node }].  A [Node]
    is never written after [AddNode] built it, so the map holds the node
    itself; the lock only serialises whole calls and is left out. *)
Record Ring : Type := mkRing { nodes : gmap string Node }.

Definition NewRing : Ring := {| nodes := ∅ |}.

Definition AddNode (id addr : string) (r : Ring) : Ring :=
  {| nodes := <[id := mkNode id addr]> (nodes r) |}.

Definition RemoveNode (id : string) (r : Ring) : Ring :=
  {| nodes := delete id (nodes r) |}.

Definition NodeCount (r : Ring) : Z := Z.of_nat (size (nodes r)).

(** [for _, node := range r.nodes]: Go leaves the iteration order of a map
    unspecified and randomises it from one loop to the next.  A run of the
    loop is therefore any enumeration [it] of the values of the map. *)
Definition range_order (r : Ring) (it : list Node) : Prop :=
  it ≡ₚ (map_to_list (nodes r)).*2.

(** [GetNodes] appends the nodes in the order the loop meets them. *)
Definition GetNodes (r : Ring) (it : list Node) : list Node := it.

(** [hash]: the first 8 bytes of the MD5 digest, read big-endian. *)
Definition hash (input : string) : Z :=
  BigEndian_Uint64 (MD5.Sum (bytes_of_string input)).

(** [type nodeScore struct { node *Node; score uint64 }] *)
Record nodeScore : Type := mkScore { node : Node; score : Z }.

(** [sort.Slice] on a short slice is the library's insertion sort:
    [for i := 1; i < n; i++ { for j := i; j > 0 && less(j, j-1); j-- { swap(j, j-1) } }].
    [sift less x rp] is the inner loop: [rp] is the already sorted prefix,
    nearest neighbour first, and [x] moves left past every neighbour it is
    [less] than.  On longer slices the library switches to other strategies
    and promises no stability; every sorted arrangement such a run could
    produce is the insertion sort of some enumeration of the map, so with
    the enumeration left free nothing is lost. *)
Fixpoint sift {A} (less : A -> A -> bool) (x : A) (rp : list A) : list A :=
  match rp with
  | [] => [x]
  | y :: rp' => if less x y then y :: sift less x rp' else x :: rp
  end.

Definition sort_Slice {A} (less : A -> A -> bool) (l : list A) : list A :=
  rev (fold_left (fun rp x => sift less x rp) l []).

(** The comparison handed to [sort.Slice]:
    [scores[i].score > scores[j].score]. *)
Definition less (a b : nodeScore) : bool := score a >? score b.

(** [Owners(key, n)], on the run of the range loop that meets the nodes in
    the order [it].  [make([]*Node, n)] panics when [n] is negative. *)
Definition Owners (r : Ring) (it : list Node) (key : string) (n : Z)
  : option (list Node) :=
  let len := Z.of_nat (size (nodes r)) in
  if len =? 0 then Some []
  else
    let n := if n >? len then len else n in
    let scores := map (fun nd => mkScore nd (hash (key ++ ID nd))) it in
    let scores := sort_Slice less scores in
    if n <? 0 then None
    else Some (map node (firstn (Z.to_nat n) scores)).

(** The score [Owners] gives a node for a key, the nodes of the ring, and
    the list [Owners] cuts its result from: the nodes met in the order [it],
    sorted by the comparison on scores. *)
Definition score_of (key : string) (nd : Node) : Z := hash (key ++ ID nd).

Definition members (r : Ring) : list Node := (map_to_list (nodes r)).*2.

Definition ranking (key : string) (it : list Node) : list Node :=
  sort_Slice (fun a b => score_of key a >? score_of key b) it.

(** No two nodes of the ring have the same score for [key]. *)
Definition no_ties (key : string) (r : Ring) : Prop :=
  forall a b, a ∈ members r -> b ∈ members r ->
    score_of key a = score_of key b -> a = b.

(** Every key of the map is the identity of the node stored under it; this
    is what [AddNode] establishes. *)
Definition wf (r : Ring) : Prop :=
  forall id nd, nodes r !! id = Some nd -> ID nd = id.

(** The order the specification asks for: score descending, equal scores
    by node identity in lexicographic (bytewise) order. *)
Definition spec_before (key : string) (a b : Node) : bool :=
  let sa := hash (key ++ ID a) in
  let sb := hash (key ++ ID b) in
  (sb <? sa) || ((sa =? sb) && String.leb (ID a) (ID b)).

Fixpoint spec_insert (key : string) (x : Node) (l : list Node) : list Node :=
  match l with
  | [] => [x]
  | y :: l' => if spec_before key x y then x :: l else y :: spec_insert key x l'
  end.

(** The result the specification describes: the nodes in that order, cut
    to [min(n, |membership|)]. *)
Definition spec_Owners (r : Ring) (key : string) (n : Z) : list Node :=
  let members := (map_to_list (nodes r)).*2 in
  firstn (Z.to_nat (Z.min n (Z.of_nat (size (nodes r)))))
         (foldr (spec_insert key) [] members).

(** Two node identities with the same MD5 digest (the colliding pair of
    two-block messages published by Wang et al., 2004), and the ring that
    holds them.  Go strings hold arbitrary bytes. *)
Definition collision_a : string := string_of_bytes
  [ 0xd1; 0x31; 0xdd; 0x02; 0xc5; 0xe6; 0xee; 0xc4; 0x69; 0x3d; 0x9a; 0x06; 0x98; 0xaf; 0xf9; 0x5c;
    0x2f; 0xca; 0xb5; 0x87; 0x12; 0x46; 0x7e; 0xab; 0x40; 0x04; 0x58; 0x3e; 0xb8; 0xfb; 0x7f; 0x89;
    0x55; 0xad; 0x34; 0x06; 0x09; 0xf4; 0xb3; 0x02; 0x83; 0xe4; 0x88; 0x83; 0x25; 0x71; 0x41; 0x5a;
    0x08; 0x51; 0x25; 0xe8; 0xf7; 0xcd; 0xc9; 0x9f; 0xd9; 0x1d; 0xbd; 0xf2; 0x80; 0x37; 0x3c; 0x5b;
    0xd8; 0x82; 0x3e; 0x31; 0x56; 0x34; 0x8f; 0x5b; 0xae; 0x6d; 0xac; 0xd4; 0x36; 0xc9; 0x19; 0xc6;
    0xdd; 0x53; 0xe2; 0xb4; 0x87; 0xda; 0x03; 0xfd; 0x02; 0x39; 0x63; 0x06; 0xd2; 0x48; 0xcd; 0xa0;
    0xe9; 0x9f; 0x33; 0x42; 0x0f; 0x57; 0x7e; 0xe8; 0xce; 0x54; 0xb6; 0x70; 0x80; 0xa8; 0x0d; 0x1e;
    0xc6; 0x98; 0x21; 0xbc; 0xb6; 0xa8; 0x83; 0x93; 0x96; 0xf9; 0x65; 0x2b; 0x6f; 0xf7; 0x2a; 0x70 ].

Definition collision_b : string := string_of_bytes
  [ 0xd1; 0x31; 0xdd; 0x02; 0xc5; 0xe6; 0xee; 0xc4; 0x69; 0x3d; 0x9a; 0x06; 0x98; 0xaf; 0xf9; 0x5c;
    0x2f; 0xca; 0xb5; 0x07; 0x12; 0x46; 0x7e; 0xab; 0x40; 0x04; 0x58; 0x3e; 0xb8; 0xfb; 0x7f; 0x89;
    0x55; 0xad; 0x34; 0x06; 0x09; 0xf4; 0xb3; 0x02; 0x83; 0xe4; 0x88; 0x83; 0x25; 0xf1; 0x41; 0x5a;
    0x08; 0x51; 0x25; 0xe8; 0xf7; 0xcd; 0xc9; 0x9f; 0xd9; 0x1d; 0xbd; 0x72; 0x80; 0x37; 0x3c; 0x5b;
    0xd8; 0x82; 0x3e; 0x31; 0x56; 0x34; 0x8f; 0x5b; 0xae; 0x6d; 0xac; 0xd4; 0x36; 0xc9; 0x19; 0xc6;
    0xdd; 0x53; 0xe2; 0x34; 0x87; 0xda; 0x03; 0xfd; 0x02; 0x39; 0x63; 0x06; 0xd2; 0x48; 0xcd; 0xa0;
    0xe9; 0x9f; 0x33; 0x42; 0x0f; 0x57; 0x7e; 0xe8; 0xce; 0x54; 0xb6; 0x70; 0x80; 0x28; 0x0d; 0x1e;
    0xc6; 0x98; 0x21; 0xbc; 0xb6; 0xa8; 0x83; 0x93; 0x96; 0xf9; 0x65; 0xab; 0x6f; 0xf7; 0x2a; 0x70 ].

Definition node_a : Node := mkNode collision_a "10.0.0.1:8080".
Definition node_b : Node := mkNode collision_b "10.0.0.2:8080".

Definition ring_a : Ring := AddNode collision_a "10.0.0.1:8080" NewRing.

Definition tied_ring : Ring := AddNode collision_b "10.0.0.2:8080" ring_a.

Definition node1 : Node := mkNode "node1" "localhost:8081".
Definition node2 : Node := mkNode "node2" "localhost:8082".

(** The two-node ring [TestRingWrapAround] builds. *)
Definition ring2 : Ring :=
  AddNode "node2" "localhost:8082" (AddNode "node1" "localhost:8081" NewRing).

(** The three-node ring of the end-to-end scenarios. *)
Definition ring3 : Ring := AddNode "node3" "localhost:8083" ring2.

End Ring.

(** ** package cache *)

Module Cache.

(** A [*Entry]: the address of an entry in the Go heap. *)
Definition loc : Type := nat.

(** A [time.Time] is an instant counted from the zero time, so that
    [t.IsZero()] is [t = 0] and [t.After(u)] is [t > u]; a [time.Duration]
    is a signed count of the same unit. *)
Definition IsZero (t : Z) : bool := t =? 0.
Definition After (t u : Z) : bool := t >? u.

(** [type Entry struct { Key string; Value []byte; ExpiresAt time.Time;
                        Prev, Next *Entry }] *)
Record Entry : Type := mkEntry {
  Key : string;
  Value : list byte;
  ExpiresAt : Z;
  Prev : option loc;
  Next : option loc
}.

(** [type Cache struct { mu; entries map[string]*Entry; head, tail *Entry;
                        capacity, size int }], with the entries the pointers
    lead to.  The mutex serialises whole calls and is left out. *)
Record Cache : Type := mkCache {
  entries : gmap string loc;
  head : option loc;
  tail : option loc;
  capacity : Z;
  size : Z;
  heap : gmap loc Entry
}.

Definition NewCache (capacity : Z) : Cache :=
  {| entries := ∅; head := None; tail := None;
     capacity := capacity; size := 0; heap := ∅ |}.

(** Field writes through a pointer: [p.Prev = v], [p.Next = v]. *)
Definition write_Prev (p : loc) (v : option loc) (h : gmap loc Entry)
  : option (gmap loc Entry) :=
  e ← h !! p;
  Some (<[p := mkEntry (Key e) (Value e) (ExpiresAt e) v (Next e)]> h).

Definition write_Next (p : loc) (v : option loc) (h : gmap loc Entry)
  : option (gmap loc Entry) :=
  e ← h !! p;
  Some (<[p := mkEntry (Key e) (Value e) (ExpiresAt e) (Prev e) v]> h).

Definition with_heap (c : Cache) (h : gmap loc Entry) : Cache :=
  mkCache (entries c) (head c) (tail c) (capacity c) (size c) h.

(** [!entry.ExpiresAt.IsZero() && now.After(entry.ExpiresAt)] *)
Definition expired (now : Z) (e : Entry) : bool :=
  negb (IsZero (ExpiresAt e)) && After now (ExpiresAt e).

(** [addToFront] *)
Definition addToFront (entry : loc) (c : Cache) : option Cache :=
  h ← write_Prev entry None (heap c);
  h ← write_Next entry (head c) h;
  h ← match head c with
       | Some hd => write_Prev hd (Some entry) h
       | None => Some h
       end;
  let tl := match tail c with None => Some entry | Some t => Some t end in
  Some (mkCache (entries c) (Some entry) tl (capacity c) (size c) h).

(** [moveToFront] *)
Definition moveToFront (entry : loc) (c : Cache) : option Cache :=
  if decide (Some entry = head c) then Some c
  else
    e ← heap c !! entry;
    h ← match Prev e with
         | Some p => write_Next p (Next e) (heap c)
         | None => Some (heap c)
         end;
    e ← h !! entry;
    h ← match Next e with
         | Some n => write_Prev n (Prev e) h
         | None => Some h
         end;
    e ← h !! entry;
    let tl := if decide (Some entry = tail c) then Prev e else tail c in
    addToFront entry (mkCache (entries c) (head c) tl (capacity c) (size c) h).

(** [removeEntry] *)
Definition removeEntry (entry : loc) (c : Cache) : option Cache :=
  e ← heap c !! entry;
  let ents := delete (Key e) (entries c) in
  '(h, hd) ← match Prev e with
              | Some p => h ← write_Next p (Next e) (heap c); Some (h, head c)
              | None => Some (heap c, Next e)
              end;
  e ← h !! entry;
  '(h, tl) ← match Next e with
              | Some n => h ← write_Prev n (Prev e) h; Some (h, tail c)
              | None => Some (h, Prev e)
              end;
  Some (mkCache ents hd tl (capacity c) (size c - 1) h).

(** [evictLRU] *)
Definition evictLRU (c : Cache) : option Cache :=
  match tail c with
  | Some t => removeEntry t c
  | None => Some c
  end.

(** [Get]; a [nil] slice and an empty one are both the empty list. *)
Definition Get (key : string) (now : Z) (c : Cache)
  : option (list byte * bool * Cache) :=
  match entries c !! key with
  | None => Some ([], false, c)
  | Some entry =>
      e ← heap c !! entry;
      if expired now e then
        c ← removeEntry entry c; Some ([], false, c)
      else
        c ← moveToFront entry c;
        e ← heap c !! entry;
        Some (Value e, true, c)
  end.

(** [Set]; [&Entry{...}] takes an address no entry has had before. *)
Definition Set_ (key : string) (value : list byte) (ttl now : Z) (c : Cache)
  : option Cache :=
  let expiry := if ttl >? 0 then now + ttl else 0 in
  match entries c !! key with
  | Some existing =>
      e ← heap c !! existing;
      let h := <[existing := mkEntry (Key e) value expiry (Prev e) (Next e)]> (heap c) in
      moveToFront existing (with_heap c h)
  | None =>
      let entry : loc := fresh (dom (heap c)) in
      let h := <[entry := mkEntry key value expiry None None]> (heap c) in
      let c := mkCache (<[key := entry]> (entries c)) (head c) (tail c)
                       (capacity c) (size c) h in
      c ← addToFront entry c;
      let c := mkCache (entries c) (head c) (tail c) (capacity c) (size c + 1) (heap c) in
      if size c >? capacity c then evictLRU c else Some c
  end.

(** [Delete] *)
Definition Delete (key : string) (c : Cache) : option (bool * Cache) :=
  match entries c !! key with
  | None => Some (false, c)
  | Some entry => c ← removeEntry entry c; Some (true, c)
  end.

Definition Size (c : Cache) : Z := size c.
Definition Capacity (c : Cache) : Z := capacity c.

(** [Clear]: the old entries are dropped from the index and the list and
    stay in memory until collected. *)
Definition Clear (c : Cache) : Cache :=
  mkCache ∅ None None (capacity c) 0 (heap c).

(** [for key, entry := range c.entries]: a run of the loop visits the keys
    in some order [order]; a key deleted before its turn is not visited. *)
Definition range_order (c : Cache) (order : list string) : Prop :=
  order ≡ₚ (map_to_list (entries c)).*1.

(** [Cleanup], on the run of the range loop that visits [order]. *)
Fixpoint Cleanup_loop (now : Z) (order : list string) (removed : Z) (c : Cache)
  : option (Z * Cache) :=
  match order with
  | [] => Some (removed, c)
  | key :: order' =>
      match entries c !! key with
      | None => Cleanup_loop now order' removed c
      | Some entry =>
          e ← heap c !! entry;
          if expired now e then
            c ← removeEntry entry c;
            Cleanup_loop now order' (removed + 1) c
          else Cleanup_loop now order' removed c
      end
  end.

Definition Cleanup (now : Z) (order : list string) (c : Cache)
  : option (Z * Cache) :=
  Cleanup_loop now order 0 c.

(** *** What a test can observe of the recency list *)

(** Follow [Next] from a pointer until [nil]; [None] when the walk has not
    ended after [fuel] entries or leaves the heap. *)
Fixpoint walk_next (h : gmap loc Entry) (fuel : nat) (p : option loc)
  : option (list loc) :=
  match p with
  | None => Some []
  | Some q =>
      match fuel with
      | O => None
      | S fuel' =>
          e ← h !! q;
          l ← walk_next h fuel' (Next e);
          Some (q :: l)
      end
  end.

(** Follow [Prev] from a pointer until [nil]. *)
Fixpoint walk_prev (h : gmap loc Entry) (fuel : nat) (p : option loc)
  : option (list loc) :=
  match p with
  | None => Some []
  | Some q =>
      match fuel with
      | O => None
      | S fuel' =>
          e ← h !! q;
          l ← walk_prev h fuel' (Prev e);
          Some (q :: l)
      end
  end.

(** The entries reachable from [head] via [Next] and from [tail] via
    [Prev].  No walk over distinct entries is longer than the heap. *)
Definition from_head (c : Cache) : option (list loc) :=
  walk_next (heap c) (base.size (heap c)) (head c).

Definition from_tail (c : Cache) : option (list loc) :=
  walk_prev (heap c) (base.size (heap c)) (tail c).

(** The keys of a list of entries. *)
Definition keys_of (h : gmap loc Entry) (l : list loc) : list string :=
  omap (fun p => Key <$> h !! p) l.

(** *** The shape of the heap behind a well-formed cache *)

Definition hd_or (l : list loc) (d : option loc) : option loc :=
  match l with [] => d | p :: _ => Some p end.

Definition last_or (l : list loc) (d : option loc) : option loc :=
  match last l with Some p => Some p | None => d end.

(** [dseg h prev l next]: the entries at [l] are chained in this order,
    the first pointing back to [prev] and the last forward to [next]. *)
Fixpoint dseg (h : gmap loc Entry) (prev : option loc) (l : list loc)
    (next : option loc) : Prop :=
  match l with
  | [] => True
  | p :: l' =>
      exists e, h !! p = Some e /\ Prev e = prev /\ Next e = hd_or l' next /\
                dseg h (Some p) l' next
  end.

(** What an entry stores, apart from its links. *)
Definition payload (e : Entry) : string * list byte * Z :=
  (Key e, Value e, ExpiresAt e).

Definition same_payload (h h' : gmap loc Entry) : Prop :=
  forall p, payload <$> h' !! p = payload <$> h !! p.

(** The index maps exactly the keys of the entries at [l] to them. *)
Definition index_ok (ents : gmap string loc) (h : gmap loc Entry) (l : list loc)
  : Prop :=
  forall k p, ents !! k = Some p <-> p ∈ l /\ Key <$> h !! p = Some k.

(** [rep c l]: the recency list of [c] is [l], most recently used first,
    and the index maps exactly the keys of its entries to them. *)
Record rep (c : Cache) (l : list loc) : Prop := mkRep {
  rep_dseg : dseg (heap c) None l None;
  rep_NoDup : NoDup l;
  rep_head : head c = List.head l;
  rep_tail : tail c = last l;
  rep_size : size c = Z.of_nat (length l);
  rep_index : index_ok (entries c) (heap c) l
}.

(** The invariant of the public operations. *)
Definition inv (c : Cache) (l : list loc) : Prop :=
  rep c l /\ size c <= capacity c.

(** A public operation with its arguments, the clock reading it takes and,
    for [Cleanup], the order its range loop happens to follow. *)
Inductive op : Type :=
| OpGet (key : string) (now : Z)
| OpSet (key : string) (value : list byte) (ttl now : Z)
| OpDelete (key : string)
| OpCleanup (now : Z) (order : list string)
| OpClear.

Definition apply_op (o : op) (c : Cache) : option Cache :=
  match o with
  | OpGet key now => snd <$> Get key now c
  | OpSet key value ttl now => Set_ key value ttl now c
  | OpDelete key => snd <$> Delete key c
  | OpCleanup now order => snd <$> Cleanup now order c
  | OpClear => Some (Clear c)
  end.

(** The key of a [Set]; [None] for any other operation. *)
Definition set_key (o : op) : option string :=
  match o with
  | OpSet key _ _ _ => Some key
  | _ => None
  end.

(** Run a sequence of operations; [None] if one of them panics. *)
Fixpoint run (ops : list op) (c : Cache) : option Cache :=
  match ops with
  | [] => Some c
  | o :: ops' => c ← apply_op o c; run ops' c
  end.

(** The consistency the specification asks for after every operation. *)
Definition consistent (c : Cache) : Prop :=
  exists l1 l2,
    from_head c = Some l1 /\ from_tail c = Some l2 /\
    size c = Z.of_nat (length l1) /\
    size c = Z.of_nat (length l2) /\
    size c = Z.of_nat (base.size (entries c)) /\
    size c <= capacity c.

(** The fourth end-to-end scenario: capacity 3, insert k1, k2, k3, read
    k1, insert k4. *)
Definition lru_scenario : list op :=
  [ OpSet "k1" ["1"%byte] 0 10; OpSet "k2" ["2"%byte] 0 20;
    OpSet "k3" ["3"%byte] 0 30; OpGet "k1" 40; OpSet "k4" ["4"%byte] 0 50 ].

(** The state the scenario leaves behind. *)
Definition lru_state : Cache :=
  default (NewCache 3) (run lru_scenario (NewCache 3)).

(** [TestCacheLRUEviction]: capacity 3, four inserts. *)
Definition four_inserts : list op :=
  [ OpSet "key1" ["1"%byte] 0 10; OpSet "key2" ["2"%byte] 0 20;
    OpSet "key3" ["3"%byte] 0 30; OpSet "key4" ["4"%byte] 0 40 ].

(** *** The contents of the cache *)

(** What the entries at [l] store, in the order of [l]. *)
Definition payloads_of (h : gmap loc Entry) (l : list loc)
  : list (string * list byte * Z) :=
  omap (fun p => payload <$> h !! p) l.

(** The stored triples (key, value, expiry) met from [head] along [Next]:
    the most recently used first. *)
Definition contents (c : Cache) : option (list (string * list byte * Z)) :=
  l ← from_head c; Some (payloads_of (heap c) l).

Definition pkey (x : string * list byte * Z) : string := x.1.1.
Definition pvalue (x : string * list byte * Z) : list byte := x.1.2.
Definition pexpiry (x : string * list byte * Z) : Z := x.2.

(** The expiry test of [Get] and [Cleanup], on a stored triple. *)
Definition stale (now : Z) (x : string * list byte * Z) : bool :=
  negb (IsZero (pexpiry x)) && After now (pexpiry x).

(** The first stored triple with the given key. *)
Definition lookup_key (key : string) (V : list (string * list byte * Z))
  : option (string * list byte * Z) :=
  List.find (fun x => String.eqb (pkey x) key) V.

(** The expiry [Set] stores: [time.Now().Add(ttl)] for a positive [ttl],
    the zero instant otherwise. *)
Definition expiry_of (ttl now : Z) : Z := if ttl >? 0 then now + ttl else 0.

(** Three inserts with different lifetimes, as in [TestCacheCleanup]. *)
Definition ttl_scenario : list op :=
  [ OpSet "expired1" ["1"%byte] 1 10; OpSet "expired2" ["2"%byte] 1 10;
    OpSet "valid" ["3"%byte] 0 10 ].

Definition ttl_state : Cache :=
  default (NewCache 100) (run ttl_scenario (NewCache 100)).

End Cache.

(** ** package client *)

Module Client.

(** The replies of the generated gRPC stub. *)
Record GetResponse : Type := mkGetResponse { Value : list byte; Found : bool }.
Record SetResponse : Type := mkSetResponse { Success : bool }.
Record DeleteResponse : Type := mkDeleteResponse { Deleted : bool }.

(** The pair [(resp, err)] an RPC returns. *)
Inductive rpc (A : Type) : Type :=
| Reply (resp : A)
| Fail (msg : string).
Arguments Reply {A} resp.
Arguments Fail {A} msg.

(** What the network does during one coordinator call, per node identity:
    the outcome of each RPC the client may issue, and for a hedged read
    whether the hedge goroutine's value reaches [hedgeCh] before the
    per-replica deadline fires ([ctx.Done()]). *)
Record Net : Type := mkNet {
  rpc_Get : string -> string -> rpc GetResponse;
  rpc_Get_hedge : string -> string -> rpc GetResponse;
  hedge_in_time : string -> bool;
  rpc_Set : string -> string -> list byte -> Z -> rpc SetResponse;
  rpc_Delete : string -> string -> rpc DeleteResponse
}.

(** [type Client struct]: the ring, the node identities that have a
    connection, the quorum settings and the hedging timeout.  The logger
    and [hedgeRatio], which no call reads except to report it, are left
    out, and so is the mutex around the connection table. *)
Record Client : Type := mkClient {
  ring : Ring.Ring;
  connections : gset string;
  readQuorum : Z;
  writeQuorum : Z;
  hedgeTimeout : Z
}.

Definition ctx_Err : string := "context deadline exceeded".

(** [getConnection] *)
Definition getConnection (c : Client) (nodeID : string) : result unit :=
  if decide (nodeID ∈ connections c) then Ok tt
  else Err ("no connection to node " ++ nodeID).

(** [getFromNodeWithRetry], on the outcome of its one RPC. *)
Definition getFromNodeWithRetry (r : rpc GetResponse) : result (list byte) :=
  match r with
  | Fail msg => Err msg
  | Reply resp => if negb (Found resp) then Err "key not found" else Ok (Value resp)
  end.

(** [getFromNode]: with hedging armed, the primary attempt is awaited
    first; when it fails the [select] waits for a value from the hedge
    goroutine or for the deadline, whichever comes first, and the hedge
    goroutine sends nothing when its own attempt fails. *)
Definition getFromNode (c : Client) (net : Net) (nodeID key : string)
  : result (list byte) :=
  match getConnection c nodeID with
  | Err msg => Err msg
  | Ok _ =>
      if hedgeTimeout c >? 0 then
        match getFromNodeWithRetry (rpc_Get net nodeID key) with
        | Ok value => Ok value
        | Err _ =>
            match getFromNodeWithRetry (rpc_Get_hedge net nodeID key) with
            | Ok value => if hedge_in_time net nodeID then Ok value else Err ctx_Err
            | Err _ => Err ctx_Err
            end
        end
      else getFromNodeWithRetry (rpc_Get net nodeID key)
  end.

(** [setToNode] *)
Definition setToNode (c : Client) (net : Net) (nodeID key : string)
    (value : list byte) (ttl : Z) : result unit :=
  match getConnection c nodeID with
  | Err msg => Err msg
  | Ok _ =>
      match rpc_Set net nodeID key value ttl with
      | Fail msg => Err msg
      | Reply resp => if negb (Success resp) then Err "set operation failed" else Ok tt
      end
  end.

(** [deleteFromNode] *)
Definition deleteFromNode (c : Client) (net : Net) (nodeID key : string)
  : result unit :=
  match getConnection c nodeID with
  | Err msg => Err msg
  | Ok _ =>
      match rpc_Delete net nodeID key with
      | Fail msg => Err msg
      | Reply resp => if negb (Deleted resp) then Err "delete operation failed" else Ok tt
      end
  end.

(** The loop [for i := 1; i < len(owners); i++] of [Get]. *)
Fixpoint Get_others (c : Client) (net : Net) (key : string)
    (owners : list Ring.Node) : result (list byte) :=
  match owners with
  | [] => Err "failed to get key from any node"
  | o :: owners' =>
      match getFromNode c net (Ring.ID o) key with
      | Ok value => Ok value
      | Err _ => Get_others c net key owners'
      end
  end.

(** [Get]; [it] is the order in which [Owners] meets the ring's nodes. *)
Definition Get (c : Client) (net : Net) (it : list Ring.Node) (key : string)
  : option (result (list byte)) :=
  owners ← Ring.Owners (ring c) it key (readQuorum c);
  match owners with
  | [] => Some (Err "no nodes available")
  | primary :: others =>
      match getFromNode c net (Ring.ID primary) key with
      | Ok value => Some (Ok value)
      | Err _ => Some (Get_others c net key others)
      end
  end.

(** The loop that drains the [results] channel and counts the [nil]s. *)
Fixpoint successes (results : list (result unit)) : Z :=
  match results with
  | [] => 0
  | r :: results' => (if is_ok r then 1 else 0) + successes results'
  end.

(** [Set]: one goroutine per owner sends its outcome on [results]; the
    outcomes are listed here in the order of the owners, the count of
    successes does not depend on the order of arrival. *)
Definition Set_ (c : Client) (net : Net) (it : list Ring.Node) (key : string)
    (value : list byte) (ttl : Z) : option (result unit) :=
  owners ← Ring.Owners (ring c) it key (writeQuorum c);
  match owners with
  | [] => Some (Err "no nodes available")
  | _ =>
      let results := map (fun o => setToNode c net (Ring.ID o) key value ttl) owners in
      if successes results >=? writeQuorum c then Some (Ok tt)
      else Some (Err "failed to write to quorum of nodes")
  end.

(** [Delete] *)
Definition Delete (c : Client) (net : Net) (it : list Ring.Node) (key : string)
  : option (result unit) :=
  owners ← Ring.Owners (ring c) it key (writeQuorum c);
  match owners with
  | [] => Some (Err "no nodes available")
  | _ =>
      let results := map (fun o => deleteFromNode c net (Ring.ID o) key) owners in
      if successes results >=? writeQuorum c then Some (Ok tt)
      else Some (Err "failed to delete from quorum of nodes")
  end.

(** The outcome the specification describes for a read: a value, a
    definite not-found, or an error. *)
Inductive read_outcome : Type :=
| Found_value (value : list byte)
| Not_found
| Read_error.

(** The coordinator of the specification: the first replica of the owner
    list that answers, found or not, decides; transport failures alone
    make it move on. *)
Fixpoint spec_Get (c : Client) (net : Net) (key : string)
    (owners : list Ring.Node) : read_outcome :=
  match owners with
  | [] => Read_error
  | o :: owners' =>
      match getConnection c (Ring.ID o), rpc_Get net (Ring.ID o) key with
      | Ok _, Reply resp => if Found resp then Found_value (Value resp) else Not_found
      | _, _ => spec_Get c net key owners'
      end
  end.

(** The owner is connected and its replica reports [deleted = true]. *)
Definition delete_ack (c : Client) (net : Net) (key : string) (o : Ring.Node) : bool :=
  bool_decide (Ring.ID o ∈ connections c) &&
  match rpc_Delete net (Ring.ID o) key with
  | Reply resp => Deleted resp
  | Fail _ => false
  end.

(** The client of the end-to-end test: three nodes, both quorums 2, a
    hedging timeout of 100ms. *)
Definition client3 : Client :=
  mkClient Ring.ring3 {[ "node1"; "node2"; "node3" ]}%string 2 2 100000000.

(** The same settings on a ring of a single node. *)
Definition client1 : Client :=
  mkClient (Ring.AddNode "node1" "localhost:8081" Ring.NewRing)
           {[ "node1" ]}%string 2 2 100000000.

(** Every replica is reachable and none holds the key. *)
Definition net_absent : Net :=
  mkNet (fun _ _ => Reply (mkGetResponse [] false))
        (fun _ _ => Reply (mkGetResponse [] false))
        (fun _ => true)
        (fun _ _ _ _ => Reply (mkSetResponse true))
        (fun _ _ => Reply (mkDeleteResponse false)).

(** Every replica is reachable; only [node2] holds the key. *)
Definition net_only_node2 : Net :=
  let get (id key : string) :=
    if String.eqb id "node2" then Reply (mkGetResponse ["v"%byte] true)
    else Reply (mkGetResponse [] false) in
  mkNet get get (fun _ => true)
        (fun _ _ _ _ => Reply (mkSetResponse true))
        (fun id _ => Reply (mkDeleteResponse (String.eqb id "node2"))).

(** Every replica is reachable and every RPC succeeds. *)
Definition net_all_ok : Net :=
  mkNet (fun _ _ => Reply (mkGetResponse ["v"%byte] true))
        (fun _ _ => Reply (mkGetResponse ["v"%byte] true))
        (fun _ => true)
        (fun _ _ _ _ => Reply (mkSetResponse true))
        (fun _ _ => Reply (mkDeleteResponse true)).

(** *** Membership and connections *)

(** [type Config struct]; [HedgeRatio], like the field of the client it
    fills, is only stored. *)
Record Config : Type := mkConfig {
  ReadQuorum : Z;
  WriteQuorum : Z;
  HedgeTimeout : Z
}.

(** [NewClient], once the logger is built. *)
Definition NewClient (config : Config) : Client :=
  mkClient Ring.NewRing ∅ (ReadQuorum config) (WriteQuorum config)
           (HedgeTimeout config).

(** [AddNode]; [dial] is what [grpc.Dial] returns for the address.  The
    ring takes the node before the dial, whatever comes of it. *)
Definition AddNode (id addr : string) (dial : result unit) (c : Client)
  : Client * result unit :=
  let r := Ring.AddNode id addr (ring c) in
  match dial with
  | Err msg =>
      (mkClient r (connections c) (readQuorum c) (writeQuorum c) (hedgeTimeout c),
       Err ("failed to connect to " ++ addr ++ ": " ++ msg))
  | Ok _ =>
      (mkClient r ({[ id ]} ∪ connections c) (readQuorum c) (writeQuorum c)
                (hedgeTimeout c),
       Ok tt)
  end.

(** [RemoveNode] *)
Definition RemoveNode (id : string) (c : Client) : Client :=
  mkClient (Ring.RemoveNode id (ring c)) (connections c ∖ {[ id ]})
           (readQuorum c) (writeQuorum c) (hedgeTimeout c).

(** [Close] closes and forgets every connection; it always returns [nil]. *)
Definition Close (c : Client) : Client :=
  mkClient (ring c) ∅ (readQuorum c) (writeQuorum c) (hedgeTimeout c).

(** [GetStats], without the two hedging settings it copies. *)
Record Stats : Type := mkStats {
  stat_nodes : Z;
  stat_connections : Z;
  stat_read_quorum : Z;
  stat_write_quorum : Z
}.

Definition GetStats (c : Client) : Stats :=
  mkStats (Ring.NodeCount (ring c)) (Z.of_nat (size (connections c)))
          (readQuorum c) (writeQuorum c).

(** A call that changes the membership, with the outcome of its dial. *)
Inductive op : Type :=
| OpAddNode (id addr : string) (dial : result unit)
| OpRemoveNode (id : string)
| OpClose.

Definition apply_op (o : op) (c : Client) : Client :=
  match o with
  | OpAddNode id addr dial => fst (AddNode id addr dial c)
  | OpRemoveNode id => RemoveNode id c
  | OpClose => Close c
  end.

Definition run (ops : list op) (c : Client) : Client :=
  fold_left (fun c o => apply_op o c) ops c.

(** The two networks answer alike for every node but [id]. *)
Definition agree_off (id : string) (net1 net2 : Net) : Prop :=
  forall id', id' <> id ->
    (forall key, rpc_Get net1 id' key = rpc_Get net2 id' key) /\
    (forall key, rpc_Get_hedge net1 id' key = rpc_Get_hedge net2 id' key) /\
    hedge_in_time net1 id' = hedge_in_time net2 id' /\
    (forall key value ttl,
        rpc_Set net1 id' key value ttl = rpc_Set net2 id' key value ttl) /\
    (forall key, rpc_Delete net1 id' key = rpc_Delete net2 id' key).

(** The owner is connected and its replica reports [success = true]. *)
Definition set_ack (c : Client) (net : Net) (key : string) (value : list byte)
    (ttl : Z) (o : Ring.Node) : bool :=
  bool_decide (Ring.ID o ∈ connections c) &&
  match rpc_Set net (Ring.ID o) key value ttl with
  | Reply resp => Success resp
  | Fail _ => false
  end.

(** No replica answers. *)
Definition net_down : Net :=
  mkNet (fun _ _ => Fail "unavailable") (fun _ _ => Fail "unavailable")
        (fun _ => false)
        (fun _ _ _ _ => Fail "unavailable") (fun _ _ => Fail "unavailable").

(** Every replica answers but [node3]. *)
Definition net_node3_down : Net :=
  let up (id : string) := negb (String.eqb id "node3") in
  mkNet (fun id _ => if up id then Reply (mkGetResponse ["v"%byte] true)
                     else Fail "unavailable")
        (fun id _ => if up id then Reply (mkGetResponse ["v"%byte] true)
                     else Fail "unavailable")
        (fun _ => true)
        (fun id _ _ _ => if up id then Reply (mkSetResponse true)
                         else Fail "unavailable")
        (fun id _ => if up id then Reply (mkDeleteResponse true)
                     else Fail "unavailable").

(** The membership calls of the end-to-end test. *)
Definition three_nodes : list op :=
  [ OpAddNode "node1" "localhost:8081" (Ok tt);
    OpAddNode "node2" "localhost:8082" (Ok tt);
    OpAddNode "node3" "localhost:8083" (Ok tt) ].

End Client.

(** ** package server *)

Module Server.

(** [status.Error(code, msg)], with the two codes the server uses. *)
Inductive Code : Type := Canceled | Unavailable.

(** The pair [(resp, err)] a handler, or the interceptor, returns. *)
Inductive reply (A : Type) : Type :=
| Done (resp : A)
| Status (code : Code) (msg : string).
Arguments Done {A} resp.
Arguments Status {A} code msg.

Definition is_done {A} (r : reply A) : bool :=
  match r with Done _ => true | Status _ _ => false end.

(** [semaphore.Weighted] of golang.org/x/sync: [size] permits, [cur] of
    them held.  The server only ever calls [TryAcquire] and [Release], so
    the list of waiters stays empty. *)
Record Weighted : Type := mkWeighted { size : Z; cur : Z }.

Definition NewWeighted (n : Z) : Weighted := mkWeighted n 0.

(** [TryAcquire(n)]: [success := s.size-s.cur >= n && s.waiters.Len() == 0;
    if success { s.cur += n }]. *)
Definition TryAcquire (n : Z) (s : Weighted) : bool * Weighted :=
  if size s - cur s >=? n then (true, mkWeighted (size s) (cur s + n))
  else (false, s).

(** [Release(n)]: [s.cur -= n], and a panic when more is released than
    is held. *)
Definition Release (n : Z) (s : Weighted) : option Weighted :=
  if cur s - n <? 0 then None else Some (mkWeighted (size s) (cur s - n)).

(** The requests of the service; a [SetRequest] carries a [Ttl] or none. *)
Inductive request : Type :=
| GetRequest (key : string)
| SetRequest (key : string) (value : list byte) (ttl : option Z)
| DeleteRequest (key : string)
| HealthRequest.

Inductive response : Type :=
| GetResponse (value : list byte) (found : bool)
| SetResponse (success : bool)
| DeleteResponse (deleted : bool)
| HealthResponse (healthy : bool) (status : string).

(** The handlers [Get], [Set], [Delete] and [Health] on the cache of the
    server; [cancelled] is [ctx.Err() != nil] and [now] the reading of the
    clock the cache takes.  [Ttl.AsDuration()] gives back the duration
    the message was built from. *)
Definition Get (cancelled : bool) (key : string) (now : Z) (c : Cache.Cache)
  : option (reply response * Cache.Cache) :=
  if cancelled then Some (Status Canceled "request canceled", c)
  else
    r ← Cache.Get key now c;
    Some (Done (GetResponse r.1.1 r.1.2), r.2).

Definition Set_ (cancelled : bool) (key : string) (value : list byte)
    (req_ttl : option Z) (now : Z) (c : Cache.Cache)
  : option (reply response * Cache.Cache) :=
  if cancelled then Some (Status Canceled "request canceled", c)
  else
    let ttl := match req_ttl with Some d => d | None => 0 end in
    c ← Cache.Set_ key value ttl now c;
    Some (Done (SetResponse true), c).

Definition Delete (cancelled : bool) (key : string) (c : Cache.Cache)
  : option (reply response * Cache.Cache) :=
  if cancelled then Some (Status Canceled "request canceled", c)
  else
    r ← Cache.Delete key c;
    Some (Done (DeleteResponse r.1), r.2).

Definition Health (cancelled : bool) : reply response :=
  if cancelled then Status Canceled "request canceled"
  else Done (HealthResponse true "healthy").

(** The handler gRPC dispatches a request to. *)
Definition handler (cancelled : bool) (req : request) (now : Z) (c : Cache.Cache)
  : option (reply response * Cache.Cache) :=
  match req with
  | GetRequest key => Get cancelled key now c
  | SetRequest key value ttl => Set_ cancelled key value ttl now c
  | DeleteRequest key => Delete cancelled key c
  | HealthRequest => Some (Health cancelled, c)
  end.

(** [type Server struct], the parts a request meets: the cache, the
    semaphore, the recorded CPU samples and [int(s.cpuWindow.Seconds())],
    the whole seconds of the CPU window.  A sample is a [float64]; no
    arithmetic on samples is modelled, so they are of any type [A], and
    the comparison [avgCPU > s.cpuThreshold] of the average of a history
    with the threshold is a function [over] of the history. *)
Record Server (A : Type) : Type := mkServer {
  cache : Cache.Cache;
  semaphore : Weighted;
  cpuHistory : list A;
  windowSize : Z
}.
Arguments mkServer {A} cache semaphore cpuHistory windowSize.
Arguments cache {A} s.
Arguments semaphore {A} s.
Arguments cpuHistory {A} s.
Arguments windowSize {A} s.

(** [type Config struct], with the window in whole seconds. *)
Record Config : Type := mkConfig {
  CacheCapacity : Z;
  MaxConcurrent : Z;
  CPUWindow_Seconds : Z
}.

(** [NewServer], once the logger is built. *)
Definition NewServer {A} (config : Config) : Server A :=
  mkServer (Cache.NewCache (CacheCapacity config))
           (NewWeighted (MaxConcurrent config)) [] (CPUWindow_Seconds config).

(** [shouldShedLoad] *)
Definition shouldShedLoad {A} (over : list A -> bool) (s : Server A) : bool :=
  if Z.of_nat (length (cpuHistory s)) =? 0 then false else over (cpuHistory s).

(** [updateCPUUsage] on the sample it takes.  The slice expression
    [s.cpuHistory[len(s.cpuHistory)-windowSize:]] panics when its low
    bound is negative or exceeds the length. *)
Definition updateCPUUsage {A} (cpuUsage : A) (s : Server A) : option (Server A) :=
  let history := (cpuHistory s ++ [cpuUsage])%list in
  let len := Z.of_nat (length history) in
  if len >? windowSize s then
    let low := len - windowSize s in
    if (low <? 0) || (low >? len) then None
    else Some (mkServer (cache s) (semaphore s) (drop (Z.to_nat low) history)
                        (windowSize s))
  else Some (mkServer (cache s) (semaphore s) history (windowSize s)).

(** [unaryInterceptor] around a handler that runs to its end before the
    next request arrives: the deferred [Release] runs when the handler
    has returned.  [cancelled] is [ctx.Err() != nil] where the
    interceptor reads it, [cancelled'] where the handler does. *)
Definition unaryInterceptor {A} (over : list A -> bool) (cancelled cancelled' : bool)
    (req : request) (now : Z) (s : Server A)
  : option (reply response * Server A) :=
  if cancelled then Some (Status Canceled "request canceled", s)
  else if shouldShedLoad over s then Some (Status Unavailable "server overloaded", s)
  else
    match TryAcquire 1 (semaphore s) with
    | (false, _) => Some (Status Unavailable "too many concurrent requests", s)
    | (true, sem) =>
        r ← handler cancelled' req now (cache s);
        sem ← Release 1 sem;
        Some (r.1, mkServer r.2 sem (cpuHistory s) (windowSize s))
    end.

(** What happens at a server: the ticker fires and a sample is taken, or
    a request is served. *)
Inductive event (A : Type) : Type :=
| Tick (cpuUsage : A)
| Call (cancelled cancelled' : bool) (req : request) (now : Z).
Arguments Tick {A} cpuUsage.
Arguments Call {A} cancelled cancelled' req now.

(** Run the events in turn, collecting the answers to the calls; [None]
    if something panics. *)
Fixpoint serve {A} (over : list A -> bool) (evs : list (event A)) (s : Server A)
  : option (list (reply response) * Server A) :=
  match evs with
  | [] => Some ([], s)
  | Tick cpuUsage :: evs' =>
      s ← updateCPUUsage cpuUsage s; serve over evs' s
  | Call cancelled cancelled' req now :: evs' =>
      r ← unaryInterceptor over cancelled cancelled' req now s;
      rs ← serve over evs' r.2;
      Some (r.1 :: rs.1, rs.2)
  end.

(** The sample a tick takes; none for a call. *)
Definition sample_of {A} (e : event A) : option A :=
  match e with
  | Tick cpuUsage => Some cpuUsage
  | Call _ _ _ _ => None
  end.

(** Requests in flight at once.  Each arrival passes the interceptor up
    to [TryAcquire]; each return is the deferred [Release] of a request
    that was admitted and has not returned yet ([running] counts these;
    with none running nothing returns). *)
Inductive moment : Type := Arrive | Return.

Fixpoint admission (ms : list moment) (sem : Weighted) (running : nat)
  : option (Weighted * nat) :=
  match ms with
  | [] => Some (sem, running)
  | Arrive :: ms' =>
      match TryAcquire 1 sem with
      | (true, sem) => admission ms' sem (S running)
      | (false, sem) => admission ms' sem running
      end
  | Return :: ms' =>
      match running with
      | O => admission ms' sem O
      | S k => sem ← Release 1 sem; admission ms' sem k
      end
  end.

(** The configuration of the end-to-end test, and a few events. *)
Definition test_config : Config := mkConfig 1000 100 10.

Definition some_events : list (event Z) :=
  [ Tick 5; Call false false (SetRequest "k" ["v"%byte] None) 10; Tick 7;
    Call false false (GetRequest "k") 20; Call true true (DeleteRequest "k") 30;
    Call false false (DeleteRequest "k") 40; Call false false HealthRequest 50 ].

End Server.

(** ** Replicas behind the network *)

Module Cluster.

(** The cache of the replica [id] is one that cache operations lead to
    from a new cache of a capacity of at least 1. *)
Definition replica_cache (state : string -> Cache.Cache) (id : string) : Prop :=
  exists cap ops, 1 <= cap /\ Cache.run ops (Cache.NewCache cap) = Some (state id).

(** Every reply of the replica [id] to the [Set] request of the client
    comes from its handler, run on the cache [before id] at the reading
    [clock id] of its clock and leaving the cache [after id].  The
    request carries a [Ttl] only for a positive [ttl], as [setToNode]
    builds it. *)
Definition replica_Set (before after : string -> Cache.Cache) (clock : string -> Z)
    (net : Client.Net) (key : string) (value : list byte) (ttl : Z) (id : string)
  : Prop :=
  forall resp,
    Client.rpc_Set net id key value ttl = Client.Reply resp ->
    Server.Set_ false key value (if ttl >? 0 then Some ttl else None)
                (clock id) (before id)
    = Some (Server.Done (Server.SetResponse (Client.Success resp)), after id).

(** The replica [id] answers the [Get] request of the client, and its
    reply comes from its handler run on the cache [state id]. *)
Definition replica_Get (state : string -> Cache.Cache) (clock : string -> Z)
    (net : Client.Net) (key : string) (id : string) : Prop :=
  exists value found c',
    Server.Get false key (clock id) (state id)
    = Some (Server.Done (Server.GetResponse value found), c') /\
    Client.rpc_Get net id key = Client.Reply (Client.mkGetResponse value found).

(** A network in which every replica is up and answers from its cache
    [state id], all at the instant [now]. *)
Definition net_of (state : string -> Cache.Cache) (now : Z) : Client.Net :=
  let get (id key : string) :=
    match Server.Get false key now (state id) with
    | Some (Server.Done (Server.GetResponse value found), _) =>
        Client.Reply (Client.mkGetResponse value found)
    | _ => Client.Fail "unavailable"
    end in
  Client.mkNet get get (fun _ => true)
    (fun id key value ttl =>
       match Server.Set_ false key value (if ttl >? 0 then Some ttl else None)
                         now (state id) with
       | Some (Server.Done (Server.SetResponse success), _) =>
           Client.Reply (Client.mkSetResponse success)
       | _ => Client.Fail "unavailable"
       end)
    (fun id key =>
       match Server.Delete false key (state id) with
       | Some (Server.Done (Server.DeleteResponse deleted), _) =>
           Client.Reply (Client.mkDeleteResponse deleted)
       | _ => Client.Fail "unavailable"
       end).

(** Replicas with new caches, and the same after a [Set] at the instant 10. *)
Definition new_replicas : string -> Cache.Cache := fun _ => Cache.NewCache 1000.

Definition written_replicas : string -> Cache.Cache :=
  fun _ => default (Cache.NewCache 1000)
             (Cache.Set_ "test-key" ["v"%byte] 0 10 (Cache.NewCache 1000)).

End Cluster.

(** * Properties *)

(** ** The library sort *)

Section sort_Slice_facts.
Context {A : Type} (rank : A -> Z).

Lemma sift_Permutation (less : A -> A -> bool) x rp :
  Ring.sift less x rp ≡ₚ x :: rp.
Proof.
  induction rp as [|y rp IH]; simpl; [done|].
  destruct (less x y); [|done].
  rewrite IH. apply Permutation_swap.
Qed.

Lemma sort_Slice_Permutation (less : A -> A -> bool) l :
  Ring.sort_Slice less l ≡ₚ l.
Proof.
  unfold Ring.sort_Slice. rewrite <- Permutation_rev.
  assert (G : forall acc, fold_left (fun rp x => Ring.sift less x rp) l acc ≡ₚ l ++ acc).
  { induction l as [|x l IH]; intros acc; simpl; [done|].
    rewrite IH, sift_Permutation. by rewrite Permutation_middle. }
  by rewrite G, app_nil_r.
Qed.

(** The inner loop keeps the reversed prefix ascending in [rank]. *)
Lemma sift_ascending x rp :
  StronglySorted (fun a b => rank a <= rank b) rp ->
  StronglySorted (fun a b => rank a <= rank b)
                 (Ring.sift (fun a b => rank a >? rank b) x rp).
Proof.
  induction rp as [|y rp IH]; intros Hs; simpl.
  - repeat constructor.
  - apply StronglySorted_inv in Hs as [Hs Hy].
    destruct (Z.gtb_spec (rank x) (rank y)) as [Hlt|Hle].
    + constructor; [by apply IH|].
      rewrite sift_Permutation. constructor; [lia|done].
    + constructor; [by constructor|].
      constructor; [done|].
      eapply Forall_impl; [exact Hy|]. simpl. intros z ?. lia.
Qed.

Lemma ascending_rev l :
  StronglySorted (fun a b => rank a <= rank b) l ->
  StronglySorted (fun a b => rank b <= rank a) (rev l).
Proof.
  induction 1 as [|a l Hs IH Ha]; simpl.
  - constructor.
  - apply StronglySorted_app_2; [|exact IH|repeat constructor].
    intros x1 x2 Hx1 Hx2. apply list_elem_of_singleton in Hx2 as ->.
    rewrite Forall_forall in Ha. apply Ha.
    apply list_elem_of_In, in_rev. by apply list_elem_of_In.
Qed.

Lemma sort_Slice_descending l :
  StronglySorted (fun a b => rank b <= rank a)
                 (Ring.sort_Slice (fun a b => rank a >? rank b) l).
Proof.
  unfold Ring.sort_Slice. apply ascending_rev.
  assert (G : forall acc,
             StronglySorted (fun a b => rank a <= rank b) acc ->
             StronglySorted (fun a b => rank a <= rank b)
               (fold_left (fun rp x => Ring.sift (fun a b => rank a >? rank b) x rp)
                          l acc)).
  { induction l as [|x l IH]; intros acc Hacc; simpl; [done|].
    apply IH. by apply sift_ascending. }
  apply G. constructor.
Qed.

(** Sorting commutes with relabelling the elements. *)
Lemma sort_Slice_map {B} (f : B -> A) (less : A -> A -> bool) (l : list B) :
  Ring.sort_Slice less (map f l)
  = map f (Ring.sort_Slice (fun a b => less (f a) (f b)) l).
Proof.
  unfold Ring.sort_Slice. rewrite map_rev. f_equal.
  assert (S : forall x rp, Ring.sift less (f x) (map f rp)
                      = map f (Ring.sift (fun a b => less (f a) (f b)) x rp)).
  { intros x rp. induction rp as [|y rp IH]; simpl; [done|].
    destruct (less (f x) (f y)); simpl; [by rewrite IH|done]. }
  change (@nil A) with (map f []). generalize (@nil B) as acc.
  induction l as [|x l IH]; intros acc; simpl; [done|].
  by rewrite S, IH.
Qed.

(** A slice that is already in descending order is left as it is. *)
Lemma sort_Slice_sorted l :
  StronglySorted (fun a b => rank b <= rank a) l ->
  Ring.sort_Slice (fun a b => rank a >? rank b) l = l.
Proof.
  intros Hs. unfold Ring.sort_Slice.
  assert (G : forall done,
             StronglySorted (fun a b => rank b <= rank a) (done ++ l) ->
             fold_left (fun rp x => Ring.sift (fun a b => rank a >? rank b) x rp)
                       l (rev done)
             = rev (done ++ l)).
  { clear Hs. induction l as [|x l IH]; intros done Hs; simpl.
    - by rewrite app_nil_r.
    - assert (E : Ring.sift (fun a b => rank a >? rank b) x (rev done)
                  = rev (done ++ [x])).
      { rewrite rev_app_distr. simpl.
        destruct done as [|d done] using rev_ind; [done|].
        rewrite rev_app_distr. simpl.
        assert (rank x <= rank d).
        { apply (StronglySorted_app_1_elem_of _ _ _ d x) in Hs; [done| |by left].
          apply elem_of_app. right. by left. }
        destruct (Z.gtb_spec (rank x) (rank d)); [lia|done]. }
      rewrite E, (IH (done ++ [x])); by rewrite <- app_assoc. }
  specialize (G [] Hs). simpl in G. rewrite G. apply rev_involutive.
Qed.
End sort_Slice_facts.

(** ** The ring *)

Section ring_facts.
Import Ring.
Implicit Types (r : Ring) (it : list Node) (key : string) (n : Z).

Lemma wf_NewRing : wf NewRing.
Proof. intros id nd. unfold NewRing; simpl. by rewrite lookup_empty. Qed.

Lemma wf_AddNode id addr r : wf r -> wf (AddNode id addr r).
Proof.
  intros Hwf id' nd. unfold AddNode; simpl.
  rewrite lookup_insert. case_decide; [|by apply Hwf].
  intros [= <-]. by subst.
Qed.

Lemma wf_RemoveNode id r : wf r -> wf (RemoveNode id r).
Proof.
  intros Hwf id' nd. unfold RemoveNode; simpl.
  rewrite lookup_delete. case_decide; [done|by apply Hwf].
Qed.

Lemma length_members r : length (members r) = size (nodes r).
Proof. unfold members. by rewrite length_fmap, length_map_to_list. Qed.

Lemma length_range_order r it : range_order r it -> length it = size (nodes r).
Proof. intros ->. apply length_members. Qed.

Lemma elem_of_members r nd :
  nd ∈ members r <-> exists id, nodes r !! id = Some nd.
Proof.
  unfold members. rewrite list_elem_of_fmap. split.
  - intros [[id nd'] [-> H]]. exists id. by apply elem_of_map_to_list.
  - intros [id H]. exists (id, nd). split; [done|]. by apply elem_of_map_to_list.
Qed.

(** In a well-formed ring the members have pairwise distinct identities. *)
Lemma NoDup_ID_members r : wf r -> NoDup (map ID (members r)).
Proof.
  intros Hwf. unfold members.
  assert (E : map ID (map_to_list (nodes r)).*2 = (map_to_list (nodes r)).*1).
  { assert (F : Forall (fun kv => ID kv.2 = kv.1) (map_to_list (nodes r))).
    { apply Forall_forall. intros [id nd] H. simpl.
      apply Hwf. by apply elem_of_map_to_list. }
    induction F as [|[id nd] l E _ IH]; [done|].
    rewrite !fmap_cons. simpl in *. by rewrite E, <- IH. }
  rewrite E. apply NoDup_fst_map_to_list.
Qed.

Lemma ranking_Permutation key it : ranking key it ≡ₚ it.
Proof. apply sort_Slice_Permutation. Qed.

Lemma ranking_descending key it :
  StronglySorted (fun a b => score_of key b <= score_of key a) (ranking key it).
Proof. apply (sort_Slice_descending (score_of key)). Qed.

(** Every arrangement of the membership in descending score is the ranking
    of some run of the range loop: leaving the enumeration free accounts
    for any sort that is not stable. *)
Lemma ranking_of_sorted_run key r full :
  full ≡ₚ members r ->
  StronglySorted (fun a b => score_of key b <= score_of key a) full ->
  range_order r full /\ ranking key full = full.
Proof.
  intros Hperm Hs. split; [exact Hperm|].
  by apply (sort_Slice_sorted (score_of key)).
Qed.

(** What [Owners] computes, with the scores folded back into the nodes. *)
Lemma Owners_unfold r it key n :
  Owners r it key n =
    if Z.of_nat (size (nodes r)) =? 0 then Some []
    else
      let n' := if n >? Z.of_nat (size (nodes r)) then Z.of_nat (size (nodes r)) else n in
      if n' <? 0 then None else Some (take (Z.to_nat n') (ranking key it)).
Proof.
  unfold Owners. destruct (_ =? 0); [done|]. cbv zeta.
  destruct (_ <? 0); [done|]. f_equal.
  rewrite (sort_Slice_map (fun nd => mkScore nd (hash (key ++ ID nd))) less).
  rewrite firstn_map, map_map. simpl. rewrite map_id. done.
Qed.

(** With a non-negative count [Owners] returns, and its result is the
    ranking cut to [min(n, |membership|)]. *)
Lemma Owners_nonneg r it key n :
  0 <= n ->
  Owners r it key n
  = Some (take (Z.to_nat (Z.min n (Z.of_nat (size (nodes r))))) (ranking key it)).
Proof.
  intros Hn. rewrite Owners_unfold.
  destruct (Z.eqb_spec (Z.of_nat (size (nodes r))) 0) as [E|E].
  - rewrite E. replace (Z.min n 0) with 0 by lia. done.
  - cbv zeta. destruct (Z.gtb_spec n (Z.of_nat (size (nodes r)))).
    + destruct (Z.ltb_spec (Z.of_nat (size (nodes r))) 0); [lia|].
      do 3 f_equal. lia.
    + destruct (Z.ltb_spec n 0); [lia|]. do 3 f_equal. lia.
Qed.

(** With a negative count and a non-empty ring [Owners] panics. *)
Lemma Owners_negative r it key n :
  n < 0 -> nodes r <> ∅ -> Owners r it key n = None.
Proof.
  intros Hn Hne. rewrite Owners_unfold.
  apply map_size_non_empty_iff in Hne.
  destruct (Z.eqb_spec (Z.of_nat (size (nodes r))) 0); [lia|]. cbv zeta.
  destruct (Z.gtb_spec n (Z.of_nat (size (nodes r)))); [lia|].
  destruct (Z.ltb_spec n 0); [done|lia].
Qed.

(** Without ties every run of the range loop yields the same ranking. *)
Lemma ranking_unique key r it1 it2 :
  no_ties key r -> range_order r it1 -> range_order r it2 ->
  ranking key it1 = ranking key it2.
Proof.
  intros Hnt H1 H2.
  apply (StronglySorted_unique_strong (fun a b => score_of key b <= score_of key a));
    [|apply ranking_descending..|by rewrite !ranking_Permutation, H1, H2].
  intros a b Ha Hb Hab Hba.
  rewrite ranking_Permutation, H1 in Ha. rewrite ranking_Permutation, H2 in Hb.
  apply Hnt; [done..|lia].
Qed.

(** The order of the specification is a permutation, descending in score. *)
Lemma spec_insert_Permutation key x l : spec_insert key x l ≡ₚ x :: l.
Proof.
  induction l as [|y l IH]; simpl; [done|].
  destruct (spec_before key x y); [done|]. rewrite IH. apply Permutation_swap.
Qed.

Lemma spec_order_Permutation key l : foldr (spec_insert key) [] l ≡ₚ l.
Proof.
  induction l as [|x l IH]; simpl; [done|]. by rewrite spec_insert_Permutation, IH.
Qed.

Lemma spec_insert_descending key x l :
  StronglySorted (fun a b => score_of key b <= score_of key a) l ->
  StronglySorted (fun a b => score_of key b <= score_of key a) (spec_insert key x l).
Proof.
  induction l as [|y l IH]; intros Hs; simpl; [repeat constructor|].
  pose proof Hs as Hs'. apply StronglySorted_inv in Hs' as [Hl Hy].
  destruct (spec_before key x y) eqn:E; unfold spec_before in E;
    fold (score_of key x) in E; fold (score_of key y) in E.
  - constructor; [done|]. 
    assert (score_of key y <= score_of key x).
    { apply orb_true_iff in E as [E|E]; [lia|].
      apply andb_true_iff in E as [E _]. lia. }
    constructor; [done|]. eapply Forall_impl; [exact Hy|]. simpl. intros; lia.
  - constructor; [by apply IH|]. rewrite spec_insert_Permutation.
    constructor; [|done].
    apply orb_false_iff in E as [E _]. lia.
Qed.

Lemma spec_order_descending key l :
  StronglySorted (fun a b => score_of key b <= score_of key a)
                 (foldr (spec_insert key) [] l).
Proof.
  induction l as [|x l IH]; simpl; [constructor|]. by apply spec_insert_descending.
Qed.

(** Without ties the ranking is the order of the specification. *)
Lemma ranking_spec_order key r it :
  no_ties key r -> range_order r it ->
  ranking key it = foldr (spec_insert key) [] (members r).
Proof.
  intros Hnt H.
  apply (StronglySorted_unique_strong (fun a b => score_of key b <= score_of key a));
    [|apply ranking_descending|apply spec_order_descending
     |by rewrite ranking_Permutation, spec_order_Permutation].
  intros a b Ha Hb Hab Hba.
  rewrite ranking_Permutation, H in Ha. rewrite spec_order_Permutation in Hb.
  apply Hnt; [done..|lia].
Qed.
Lemma length_ranking key r it :
  range_order r it -> length (ranking key it) = size (nodes r).
Proof. intros Hit. rewrite ranking_Permutation. by apply length_range_order. Qed.

(** [Owners] returns an empty list exactly for an empty ring or a count
    of 0. *)
Lemma Owners_nil_iff r it key n :
  range_order r it ->
  (Owners r it key n = Some [] <-> nodes r = ∅ \/ n = 0).
Proof.
  intros Hit. pose proof (length_ranking key r it Hit) as Hlen. split.
  - intros HO. destruct (decide (nodes r = ∅)) as [|Hne]; [by left|]. right.
    destruct (Z.lt_ge_cases n 0) as [Hneg|Hn].
    + by rewrite Owners_negative in HO.
    + apply map_size_non_empty_iff in Hne. rewrite Owners_nonneg in HO by done.
      injection HO as HO. apply (f_equal length) in HO.
      rewrite length_take, Hlen in HO. simpl in HO. lia.
  - intros [Hempty| ->].
    + by rewrite Owners_unfold, Hempty, map_size_empty.
    + rewrite Owners_nonneg by done. by rewrite Z.min_l by lia.
Qed.

End ring_facts.

(** ** Lists: filtering a sorted list and a cut list *)

Section list_facts.
Context {A : Type}.

Lemma StronglySorted_filter (R : relation A) (P : A -> Prop)
    `{!forall x, Decision (P x)} (l : list A) :
  StronglySorted R l -> StronglySorted R (filter P l).
Proof.
  induction 1 as [|x l Hs IH Hx]; [constructor|].
  rewrite filter_cons. case_decide; [|done].
  constructor; [done|].
  apply Forall_forall. intros y Hy. apply list_elem_of_filter in Hy as [_ Hy].
  rewrite Forall_forall in Hx. by apply Hx.
Qed.

Lemma take_prefix_le (l : list A) (n m : nat) :
  (n <= m)%nat -> take n l `prefix_of` take m l.
Proof.
  intros Hnm. replace (take n l) with (take n (take m l)).
  - apply prefix_take.
  - rewrite take_take. f_equal. lia.
Qed.

Lemma filter_take_prefix (P : A -> Prop) `{!forall x, Decision (P x)}
    (l : list A) (k : nat) :
  filter P (take k l) `prefix_of` take k (filter P l).
Proof.
  revert k. induction l as [|x l IH]; intros [|k]; simpl;
    try (by apply prefix_nil).
  rewrite !filter_cons. case_decide; simpl.
  - by apply prefix_cons.
  - etrans; [apply IH|]. apply take_prefix_le. lia.
Qed.

Lemma head_take (l : list A) (n : nat) : (1 <= n)%nat -> head (take n l) = head l.
Proof. destruct n; [lia|]. by destruct l. Qed.

(** The head of a descending list dominates every element. *)
Lemma head_descending (rank : A -> Z) (x : A) (l : list A) (y : A) :
  StronglySorted (fun a b => rank b <= rank a) (x :: l) ->
  y ∈ x :: l -> rank y <= rank x.
Proof.
  intros Hs Hy. apply StronglySorted_inv in Hs as [_ Hx].
  apply elem_of_cons in Hy as [->|Hy]; [lia|].
  rewrite Forall_forall in Hx. by apply Hx.
Qed.

Lemma NoDup_fmap_no_ties {B} (f : A -> B) (l : list A) (a b : A) :
  NoDup (f <$> l) -> a ∈ l -> b ∈ l -> f a = f b -> a = b.
Proof.
  induction l as [|x l IH]; intros Hnd Ha Hb E; [by apply elem_of_nil in Ha|].
  rewrite fmap_cons in Hnd. apply NoDup_cons in Hnd as [Hx Hnd].
  apply elem_of_cons in Ha as [->|Ha]; apply elem_of_cons in Hb as [->|Hb].
  - done.
  - exfalso. apply Hx. rewrite E. by apply list_elem_of_fmap_2.
  - exfalso. apply Hx. rewrite <- E. by apply list_elem_of_fmap_2.
  - by apply IH.
Qed.
End list_facts.

(** ** The claims about [Owners] *)

Section owners_claims.
Import Ring.
Local Open Scope string_scope.
Implicit Types (r : Ring) (it : list Node) (key : string) (n : Z).

Lemma no_ties_NoDup key r :
  NoDup (score_of key <$> members r) -> no_ties key r.
Proof. intros Hnd a b Ha Hb E. by eapply NoDup_fmap_no_ties. Qed.

Lemma members_AddNode r x addr :
  nodes r !! x = None ->
  members (AddNode x addr r) ≡ₚ mkNode x addr :: members r.
Proof.
  intros Hx. unfold members, AddNode; simpl.
  by rewrite map_to_list_insert.
Qed.

Lemma members_ID_ne r x y :
  wf r -> nodes r !! x = None -> y ∈ members r -> ID y <> x.
Proof.
  intros Hwf Hx Hy E. apply elem_of_members in Hy as [id Hid].
  pose proof (Hwf _ _ Hid). congruence.
Qed.

(** Distinct identities and the length of the result, for every run. *)
Lemma Owners_distinct_length r it key n :
  wf r -> range_order r it -> 0 <= n ->
  exists res, Owners r it key n = Some res /\
    NoDup (map ID res) /\
    Z.of_nat (length res) = Z.min n (Z.of_nat (size (nodes r))).
Proof.
  intros Hwf Hit Hn. eexists. split; [by apply Owners_nonneg|]. split.
  - rewrite <- firstn_map.
    assert (E : map ID (ranking key it) ≡ₚ map ID (members r)).
    { apply Permutation_map. by rewrite ranking_Permutation, Hit. }
    eapply sublist_NoDup; [|apply sublist_take].
    rewrite E. by apply NoDup_ID_members.
  - rewrite length_take.
    assert (length (ranking key it) = size (nodes r)) as ->.
    { rewrite ranking_Permutation. by apply length_range_order. }
    lia.
Qed.

(** Without ties the result does not depend on the run. *)
Lemma Owners_no_ties_deterministic r it1 it2 key n :
  no_ties key r -> range_order r it1 -> range_order r it2 ->
  Owners r it1 key n = Owners r it2 key n.
Proof.
  intros Hnt H1 H2. rewrite !Owners_unfold.
  by rewrite (ranking_unique key r it1 it2).
Qed.
End owners_claims.

Section owners_theorems.
Import Ring.
Local Open Scope string_scope.
Implicit Types (r : Ring) (it : list Node) (key : string) (n : Z).

(** What holds of [Owners] for every membership, key and count
    [n >= 0], on every run of the range loop: the score of a node is the
    big-endian 64-bit integer read from the first 8 bytes of
    MD5(key ++ node id); the result is the first [min(n, |membership|)]
    nodes of an arrangement of the whole membership in descending score;
    and when no two members have the same score this is exactly the
    order of the specification. *)
Lemma Owners_by_score r it key n :
  range_order r it -> 0 <= n ->
  exists full,
    Owners r it key n
      = Some (take (Z.to_nat (Z.min n (Z.of_nat (size (nodes r))))) full) /\
    full ≡ₚ members r /\
    StronglySorted (fun a b => hash (key ++ ID b) <= hash (key ++ ID a)) full /\
    (forall input,
       hash input = BigEndian_Uint64 (take 8 (MD5.Sum (bytes_of_string input)))) /\
    (no_ties key r -> Owners r it key n = Some (spec_Owners r key n)).
Proof.
  intros Hit Hn. exists (ranking key it). repeat split.
  - by apply Owners_nonneg.
  - by rewrite ranking_Permutation.
  - apply ranking_descending.
  - intros input. unfold hash, BigEndian_Uint64. by rewrite take_take.
  - intros Hnt. rewrite Owners_nonneg by done. unfold spec_Owners.
    by rewrite (ranking_spec_order key r it).
Qed.

(** C3 at the failing input.  The two members of [tied_ring] have the
    same score for the empty key, and the identity of [node_b] comes
    before that of [node_a]; the order of the specification therefore
    puts [node_b] first.  The comparison handed to [sort.Slice] looks at
    scores only, so on the run of the range loop that meets [node_a]
    first [Owners] keeps [node_a] first, for a count of 2 and as the
    primary owner for a count of 1.  On the run that meets [node_b]
    first the result is the one the specification asks for. *)
Theorem Owners_tie_not_broken_by_identity :
  wf tied_ring /\
  range_order tied_ring [node_a; node_b] /\
  range_order tied_ring [node_b; node_a] /\
  score_of "" node_a = score_of "" node_b /\
  String.ltb (ID node_b) (ID node_a) = true /\
  spec_Owners tied_ring "" 2 = [node_b; node_a] /\
  spec_Owners tied_ring "" 1 = [node_b] /\
  Owners tied_ring [node_a; node_b] "" 2 = Some [node_a; node_b] /\
  Owners tied_ring [node_a; node_b] "" 1 = Some [node_a] /\
  Owners tied_ring [node_a; node_b] "" 2 <> Some (spec_Owners tied_ring "" 2) /\
  Owners tied_ring [node_a; node_b] "" 1 <> Some (spec_Owners tied_ring "" 1) /\
  Owners tied_ring [node_b; node_a] "" 2 = Some (spec_Owners tied_ring "" 2).
Proof.
  split; [repeat apply wf_AddNode; apply wf_NewRing|].
  split; [unfold range_order; apply (bool_decide_unpack _); by vm_compute|].
  split; [unfold range_order; apply (bool_decide_unpack _); by vm_compute|].
  split; [by vm_compute|]. split; [by vm_compute|]. split; [by vm_compute|].
  split; [by vm_compute|]. split; [by vm_compute|]. split; [by vm_compute|].
  split; [intros H; by vm_compute in H|]. split; [intros H; by vm_compute in H|].
  by vm_compute.
Qed.

(** C4 at the failing input: two runs of [Owners] on the same ring, key
    and count return different lists, because the comparison never
    separates equal scores and the map is met in either order. *)
Theorem Owners_tied_scores_two_results :
  wf tied_ring /\
  range_order tied_ring [node_a; node_b] /\
  range_order tied_ring [node_b; node_a] /\
  Owners tied_ring [node_a; node_b] "" 2 = Some [node_a; node_b] /\
  Owners tied_ring [node_b; node_a] "" 2 = Some [node_b; node_a] /\
  [node_a; node_b] <> [node_b; node_a].
Proof.
  split; [repeat apply wf_AddNode; apply wf_NewRing|].
  split; [unfold range_order; apply (bool_decide_unpack _); by vm_compute|].
  split; [unfold range_order; apply (bool_decide_unpack _); by vm_compute|].
  split; [by vm_compute|]. split; [by vm_compute|].
  intros H. by vm_compute in H.
Qed.

(** C10.  On a non-empty ring [Owners] fails to return exactly when the
    count is negative: the count is only clamped from above and
    [make([]*Node, n)] panics on a negative length. *)
Theorem Owners_negative_count r it key n :
  0 < NodeCount r -> (Owners r it key n = None <-> n < 0).
Proof.
  intros Hne. split.
  - intros H. destruct (Z.lt_ge_cases n 0) as [|Hn]; [done|].
    by rewrite Owners_nonneg in H.
  - intros Hn. apply Owners_negative; [done|].
    intros E. unfold NodeCount in Hne. rewrite E, map_size_empty in Hne. lia.
Qed.

Lemma Owners_negative_count_witness :
  0 < NodeCount ring3 /\
  (Owners ring3 (members ring3) "test-key" (-1) = None <-> -1 < 0).
Proof.
  split; [reflexivity|]. apply Owners_negative_count. reflexivity.
Defined.
End owners_theorems.

Section add_node.
Import Ring.
Local Open Scope string_scope.
Implicit Types (r : Ring) (it : list Node) (key : string) (n : Z).

Lemma no_ties_before_AddNode key r x addr :
  nodes r !! x = None -> no_ties key (AddNode x addr r) -> no_ties key r.
Proof.
  intros Hx Hnt a b Ha Hb. apply Hnt; rewrite members_AddNode by done; by right.
Qed.

(** Dropping the new node from the ranking of the grown ring gives the
    ranking of the old ring. *)
Lemma ranking_AddNode key r x addr it it' :
  wf r -> nodes r !! x = None -> no_ties key (AddNode x addr r) ->
  range_order r it -> range_order (AddNode x addr r) it' ->
  filter (fun nd => ID nd <> x) (ranking key it') = ranking key it.
Proof.
  intros Hwf Hx Hnt Hit Hit'.
  assert (Hperm : filter (fun nd => ID nd <> x) (ranking key it') ≡ₚ ranking key it).
  { rewrite !ranking_Permutation, Hit', Hit. unfold range_order.
    fold (members (AddNode x addr r)). fold (members r).
    rewrite members_AddNode by done.
    rewrite filter_cons_False by (simpl; tauto).
    assert (F : Forall (fun nd => ID nd <> x) (members r)).
    { apply Forall_forall. intros y Hy. by eapply members_ID_ne. }
    clear -F. induction F as [|y l Hy _ IH]; [done|].
    by rewrite filter_cons_True, IH. }
  apply (StronglySorted_unique_strong (fun a b => score_of key b <= score_of key a));
    [|apply StronglySorted_filter, ranking_descending|apply ranking_descending|done].
  intros a b Ha Hb Hab Hba.
  rewrite Hperm in Ha. rewrite ranking_Permutation, Hit in Ha, Hb.
  eapply no_ties_before_AddNode; [done..|lia].
Qed.

(** C5, as amended.  Let [x] be a new node for a well-formed ring and
    [key] a key for which no two nodes of the grown ring have the same
    score.  Then, whatever the runs of the range loops, the primary owner
    (for any count [n >= 1]) changes exactly when the score of [x] exceeds
    the score of every old node, and the old nodes keep their relative
    order: the new result without [x] is a prefix of the old result. *)
Theorem AddNode_moves_only_to_new_node r x addr key n it it' :
  wf r -> nodes r !! x = None ->
  no_ties key (AddNode x addr r) ->
  range_order r it -> range_order (AddNode x addr r) it' ->
  1 <= n ->
  exists res res',
    Owners r it key n = Some res /\
    Owners (AddNode x addr r) it' key n = Some res' /\
    (head res <> head res' <->
       forall y, y ∈ members r -> hash (key ++ ID y) < hash (key ++ x)) /\
    filter (fun nd => ID nd <> x) res' `prefix_of` res.
Proof.
  intros Hwf Hx Hnt Hit Hit' Hn.
  pose proof (ranking_AddNode key r x addr it it' Hwf Hx Hnt Hit Hit') as Hfull.
  pose proof (ranking_descending key it') as Hdesc'.
  assert (Hlen : length (ranking key it) = size (nodes r)).
  { rewrite ranking_Permutation. by apply length_range_order. }
  assert (Hmem' : forall y, y ∈ ranking key it' <-> y = mkNode x addr \/ y ∈ members r).
  { intros y. rewrite ranking_Permutation, Hit'. unfold range_order.
    fold (members (AddNode x addr r)). rewrite members_AddNode by done.
    apply elem_of_cons. }
  assert (Hmem : forall y, y ∈ ranking key it <-> y ∈ members r).
  { intros y. by rewrite ranking_Permutation, Hit. }
  assert (Hsize' : size (nodes (AddNode x addr r)) = S (size (nodes r))).
  { unfold AddNode; simpl. by apply map_size_insert_None. }
  exists (take (Z.to_nat (Z.min n (Z.of_nat (size (nodes r))))) (ranking key it)),
    (take (Z.to_nat (Z.min n (Z.of_nat (size (nodes (AddNode x addr r))))))
          (ranking key it')).
  split; [apply Owners_nonneg; lia|]. split; [apply Owners_nonneg; lia|]. split.
  - (* the primary owner *)
    rewrite (head_take (ranking key it')) by (rewrite Hsize'; lia).
    destruct (ranking key it') as [|h' t'] eqn:E'.
    { exfalso. specialize (Hmem' (mkNode x addr)).
      rewrite elem_of_nil in Hmem'. tauto. }
    simpl.
    destruct (decide (Forall (fun y => score_of key y < score_of key (mkNode x addr))
                             (members r))) as [Hall|Hnall].
    + (* the new node beats every old node: it is the new primary *)
      rewrite Forall_forall in Hall.
      assert (h' = mkNode x addr) as ->.
      { destruct (proj1 (Hmem' h')) as [|Hh]; [by left|done|].
        assert (mkNode x addr ∈ h' :: t') as Hin by (apply Hmem'; by left).
        pose proof (head_descending (score_of key) h' t' _ Hdesc' Hin).
        specialize (Hall _ Hh). lia. }
      split; [intros _; exact Hall|]. intros _ Heq.
      destruct (take _ (ranking key it)) as [|h t] eqn:E; [done|].
      simpl in Heq. injection Heq as ->.
      assert (mkNode x addr ∈ ranking key it) as Hin.
      { apply (subseteq_take (Z.to_nat (Z.min n (Z.of_nat (size (nodes r)))))).
        rewrite E. by left. }
      apply Hmem in Hin. by apply (members_ID_ne r x _ Hwf Hx Hin).
    + (* some old node scores at least as much: the primary stays *)
      split; [|intros Hall; exfalso; apply Hnall, Forall_forall, Hall].
      intros Hne. exfalso. apply Hne. clear Hne.
      apply not_Forall_Exists in Hnall; [|apply _].
      apply Exists_exists in Hnall as (y & Hy & Hyx).
      assert (h' <> mkNode x addr) as Hh'.
      { intros ->.
        pose proof (head_descending (score_of key) _ t' y Hdesc') as Hle.
        assert (y ∈ mkNode x addr :: t') as Hy' by (apply Hmem'; by right).
        specialize (Hle Hy').
        assert (y = mkNode x addr) as ->.
        { apply Hnt; [rewrite members_AddNode by done; by right
                     |rewrite members_AddNode by done; by left|].
          unfold score_of in *. simpl in *. lia. }
        by apply (members_ID_ne r x _ Hwf Hx Hy). }
      assert (ID h' <> x) as HID.
      { destruct (proj1 (Hmem' h')) as [|Hh]; [by left|done|].
        by apply (members_ID_ne r x _ Hwf Hx Hh). }
      rewrite filter_cons_True in Hfull by done.
      rewrite <- Hfull. rewrite head_take; [done|].
      assert (0 < size (nodes r))%nat.
      { rewrite <- Hlen, <- Hfull. simpl. lia. }
      lia.
  - (* the order among the old nodes *)
    etrans; [apply filter_take_prefix|]. rewrite Hfull.
    assert (T : forall k, take k (ranking key it)
                      = take (min k (size (nodes r))) (ranking key it)).
    { intros k. rewrite <- (firstn_all (ranking key it)) at 1.
      by rewrite take_take, Hlen. }
    rewrite T, (T (Z.to_nat (Z.min n (Z.of_nat (size (nodes r)))))), Hsize'.
    apply take_prefix_le. lia.
Qed.
End add_node.

Section add_node_examples.
Import Ring.
Local Open Scope string_scope.

Lemma AddNode_moves_only_to_new_node_witness :
  wf ring2 /\ nodes ring2 !! "node3" = None /\
  no_ties "test-key" (AddNode "node3" "localhost:8083" ring2) /\
  range_order ring2 (members ring2) /\
  range_order (AddNode "node3" "localhost:8083" ring2) (members ring3) /\
  1 <= 2 /\
  exists res res',
    Owners ring2 (members ring2) "test-key" 2 = Some res /\
    Owners (AddNode "node3" "localhost:8083" ring2) (members ring3) "test-key" 2
      = Some res' /\
    (head res <> head res' <->
       forall y, y ∈ members ring2 ->
         hash ("test-key" ++ ID y) < hash ("test-key" ++ "node3")) /\
    filter (fun nd => ID nd <> "node3") res' `prefix_of` res.
Proof.
  assert (W : wf ring2) by (repeat apply wf_AddNode; apply wf_NewRing).
  assert (N : nodes ring2 !! "node3" = None) by reflexivity.
  assert (T : no_ties "test-key" (AddNode "node3" "localhost:8083" ring2)).
  { apply no_ties_NoDup. apply (bool_decide_unpack _). by vm_compute. }
  assert (R2 : range_order ring2 (members ring2))
    by (unfold range_order, members; reflexivity).
  assert (R3 : range_order (AddNode "node3" "localhost:8083" ring2) (members ring3))
    by (unfold range_order, members; reflexivity).
  repeat (split; [done|]).
  apply (AddNode_moves_only_to_new_node ring2 "node3" "localhost:8083" "test-key" 2
           (members ring2) (members ring3) W N T R2 R3). lia.
Defined.

(** C5 as stated fails.  [node_b] joins the ring that holds [node_a]; for
    the empty key its score equals, and so does not exceed, the score of
    [node_a]; yet on the run that meets [node_b] first the primary owner
    changes from [node_a] to [node_b]. *)
Lemma AddNode_tie_changes_primary :
  wf ring_a /\ nodes ring_a !! collision_b = None /\
  range_order ring_a [node_a] /\
  range_order (AddNode collision_b "10.0.0.2:8080" ring_a) [node_b; node_a] /\
  Owners ring_a [node_a] "" 1 = Some [node_a] /\
  Owners (AddNode collision_b "10.0.0.2:8080" ring_a) [node_b; node_a] "" 1
    = Some [node_b] /\
  node_a <> node_b /\
  ~ (forall y, y ∈ members ring_a -> hash ("" ++ ID y) < hash ("" ++ collision_b)).
Proof.
  split; [apply wf_AddNode, wf_NewRing|].
  split; [by vm_compute|].
  split; [unfold range_order; apply (bool_decide_unpack _); by vm_compute|].
  split; [unfold range_order; apply (bool_decide_unpack _); by vm_compute|].
  split; [by vm_compute|]. split; [by vm_compute|].
  split; [intros H; by vm_compute in H|].
  intros H. specialize (H node_a).
  assert (node_a ∈ members ring_a) as Hin.
  { apply elem_of_members. exists collision_a. by vm_compute. }
  specialize (H Hin). by vm_compute in H.
Qed.
End add_node_examples.

(** ** The quorum coordinator *)

Section client_facts.
Import Client.
Local Open Scope string_scope.
Implicit Types (c : Client) (net : Net) (it owners : list Ring.Node) (key : string).

(** [Get] treats the primary like every other owner. *)
Lemma Get_as_loop c net it key owners :
  Ring.Owners (ring c) it key (readQuorum c) = Some owners -> owners <> [] ->
  Get c net it key = Some (Get_others c net key owners).
Proof.
  intros HO Hne. unfold Get. rewrite HO. simpl.
  destruct owners as [|primary others]; [done|]. simpl.
  by destruct (getFromNode c net (Ring.ID primary) key).
Qed.

Lemma Get_others_all_fail c net key owners :
  (forall o, o ∈ owners -> is_ok (getFromNode c net (Ring.ID o) key) = false) ->
  Get_others c net key owners = Err "failed to get key from any node".
Proof.
  induction owners as [|o owners IH]; intros H; simpl; [done|].
  pose proof (H o ltac:(by left)) as Ho.
  destruct (getFromNode c net (Ring.ID o) key); [discriminate|].
  apply IH. intros o' Ho'. apply H. by right.
Qed.

Lemma Get_others_first_value c net key before o after value :
  (forall o', o' ∈ before -> is_ok (getFromNode c net (Ring.ID o') key) = false) ->
  getFromNode c net (Ring.ID o) key = Ok value ->
  Get_others c net key (before ++ o :: after)%list = Ok value.
Proof.
  induction before as [|b before IH]; intros H Ho; simpl.
  - by rewrite Ho.
  - pose proof (H b ltac:(by left)) as Hb.
    destruct (getFromNode c net (Ring.ID b) key); [discriminate|].
    apply IH; [|done]. intros o' Ho'. apply H. by right.
Qed.

(** The loop that drains the channel counts the successful outcomes, in
    whatever order they arrive. *)
Lemma successes_count {A} (f : A -> result unit) (l : list A) :
  successes (map f l) = Z.of_nat (length (filter (fun a => is_ok (f a) = true) l)).
Proof.
  induction l as [|a l IH]; simpl; [done|].
  rewrite filter_cons, IH. destruct (is_ok (f a)); case_decide; try done.
  simpl length. lia.
Qed.

Lemma successes_Permutation (rs rs' : list (result unit)) :
  rs ≡ₚ rs' -> successes rs = successes rs'.
Proof. induction 1; simpl; lia. Qed.

Lemma successes_le_length (rs : list (result unit)) :
  0 <= successes rs <= Z.of_nat (length rs).
Proof. induction rs as [|r rs IH]; simpl; [lia|]. destruct (is_ok r); lia. Qed.

Lemma deleteFromNode_ok c net key o :
  is_ok (deleteFromNode c net (Ring.ID o) key) = delete_ack c net key o.
Proof.
  unfold deleteFromNode, getConnection, delete_ack. case_decide as Hc.
  - rewrite bool_decide_eq_true_2 by done. simpl.
    by destruct (rpc_Delete net (Ring.ID o) key) as [[[]]|].
  - by rewrite bool_decide_eq_false_2 by done.
Qed.

(** When a connected replica answers "not found", its attempt yields a
    value only from the hedged request, and only in time. *)
Lemma getFromNode_after_not_found c net id key resp value :
  id ∈ connections c -> rpc_Get net id key = Reply resp -> Found resp = false ->
  getFromNode c net id key = Ok value <->
  0 < hedgeTimeout c /\ hedge_in_time net id = true /\
  exists resp', rpc_Get_hedge net id key = Reply resp' /\
                Found resp' = true /\ Value resp' = value.
Proof.
  intros Hc Hr Hf. unfold getFromNode, getConnection. rewrite decide_True by done.
  assert (P : getFromNodeWithRetry (rpc_Get net id key) = Err "key not found").
  { unfold getFromNodeWithRetry. by rewrite Hr, Hf. }
  rewrite P. destruct (Z.gtb_spec (hedgeTimeout c) 0) as [Hgt|Hle].
  - unfold getFromNodeWithRetry.
    destruct (rpc_Get_hedge net id key) as [resp'|msg].
    + destruct (Found resp') eqn:F; simpl.
      * destruct (hedge_in_time net id); split.
        -- intros [= <-]. split; [lia|]. split; [done|]. by exists resp'.
        -- by intros (_ & _ & resp'' & [= <-] & _ & <-).
        -- done.
        -- by intros (_ & ? & _).
      * split; [done|]. intros (_ & _ & resp'' & [= <-] & ? & _). congruence.
    + split; [done|]. by intros (_ & _ & resp'' & ? & _).
  - split; [done|]. intros [? _]. lia.
Qed.

(** The owners a call works with, by the ring and the quorum it uses. *)
Lemma Owners_cases r it key (n : Z) :
  Ring.range_order r it ->
  (Ring.nodes r <> ∅ -> n < 0 -> Ring.Owners r it key n = None) /\
  (Ring.nodes r = ∅ \/ n = 0 -> Ring.Owners r it key n = Some []) /\
  (Ring.nodes r <> ∅ -> 1 <= n ->
   exists owners, Ring.Owners r it key n = Some owners /\ owners <> []).
Proof.
  intros Hit. split; [|split].
  - intros Hne Hn. by apply Owners_negative.
  - intros H. by apply Owners_nil_iff.
  - intros Hne Hn. rewrite Owners_nonneg by lia. eexists. split; [done|].
    intros E. apply (f_equal Some) in E. rewrite <- (Owners_nonneg _ it key n) in E by lia.
    apply (Owners_nil_iff _ _ _ _ Hit) in E as [?|?]; [done|lia].
Qed.

(** C1, as amended.  For every coordinator GET, on any run of the range
    loop of [Owners].  With a negative read quorum on a ring that is not
    empty the call panics; with an empty ring or a read quorum of 0 it
    returns the error "no nodes available".  Otherwise the owner list is
    not empty, and: the answer "not found" of a connected replica makes
    the attempt on that replica an error, the attempt yielding a value
    exactly when hedging is armed and the hedged request to the same
    replica finds the key and delivers it before the deadline; the
    coordinator goes on to the next owner after every error and returns
    the value of the first owner whose attempt yields one; when no
    owner's attempt yields a value, whether the owners failed or
    answered "not found", it returns the error "failed to get key from
    any node". *)
Theorem Get_returns_first_value c net it key :
  Ring.range_order (ring c) it ->
  (forall id resp value,
      id ∈ connections c ->
      rpc_Get net id key = Reply resp -> Found resp = false ->
      getFromNode c net id key = Ok value <->
      0 < hedgeTimeout c /\ hedge_in_time net id = true /\
      exists resp', rpc_Get_hedge net id key = Reply resp' /\
                    Found resp' = true /\ Value resp' = value) /\
  (Ring.nodes (ring c) <> ∅ -> readQuorum c < 0 -> Get c net it key = None) /\
  (Ring.nodes (ring c) = ∅ \/ readQuorum c = 0 ->
   Get c net it key = Some (Err "no nodes available")) /\
  (Ring.nodes (ring c) <> ∅ -> 1 <= readQuorum c ->
   exists owners,
     Ring.Owners (ring c) it key (readQuorum c) = Some owners /\ owners <> [] /\
     ((forall o, o ∈ owners -> is_ok (getFromNode c net (Ring.ID o) key) = false) ->
      Get c net it key = Some (Err "failed to get key from any node")) /\
     (forall before o after value,
        owners = (before ++ o :: after)%list ->
        (forall o', o' ∈ before -> is_ok (getFromNode c net (Ring.ID o') key) = false) ->
        getFromNode c net (Ring.ID o) key = Ok value ->
        Get c net it key = Some (Ok value))).
Proof.
  intros Hit.
  destruct (Owners_cases (ring c) it key (readQuorum c) Hit) as (HN & HE & HS).
  split; [|split; [|split]].
  - intros id resp value. apply getFromNode_after_not_found.
  - intros Hne Hn. unfold Get. by rewrite HN.
  - intros H. unfold Get. by rewrite HE.
  - intros Hne Hn. destruct (HS Hne Hn) as (owners & HO & Hnil).
    exists owners. split; [done|]. split; [done|]. split.
    + intros H. rewrite (Get_as_loop _ _ _ _ _ HO Hnil).
      by rewrite Get_others_all_fail.
    + intros before o after value -> Hb Ho.
      rewrite (Get_as_loop _ _ _ _ _ HO Hnil).
      by rewrite (Get_others_first_value _ _ _ _ _ _ value).
Qed.

(** C2, as amended.  For every coordinator DELETE, on any run of the
    range loop of [Owners].  A connected replica that reports "did not
    exist" makes [deleteFromNode] return the error "delete operation
    failed", which does not count toward the quorum.  With a negative
    write quorum on a ring that is not empty the call panics; with an
    empty ring or a write quorum of 0 it returns the error "no nodes
    available".  Otherwise the owner list is not empty and [Delete]
    succeeds exactly when at least write-quorum of the owners are
    connected and report [deleted = true], and returns the error "failed
    to delete from quorum of nodes" when fewer do. *)
Theorem Delete_counts_deleted_replies c net it key :
  Ring.range_order (ring c) it ->
  (forall id, id ∈ connections c ->
      rpc_Delete net id key = Reply (mkDeleteResponse false) ->
      deleteFromNode c net id key = Err "delete operation failed") /\
  (Ring.nodes (ring c) <> ∅ -> writeQuorum c < 0 -> Delete c net it key = None) /\
  (Ring.nodes (ring c) = ∅ \/ writeQuorum c = 0 ->
   Delete c net it key = Some (Err "no nodes available")) /\
  (Ring.nodes (ring c) <> ∅ -> 1 <= writeQuorum c ->
   exists owners,
     Ring.Owners (ring c) it key (writeQuorum c) = Some owners /\ owners <> [] /\
     Delete c net it key
     = Some (if decide (writeQuorum c
                        <= Z.of_nat (length (filter (fun o => delete_ack c net key o = true)
                                                    owners)))
             then Ok tt
             else Err "failed to delete from quorum of nodes")).
Proof.
  intros Hit.
  destruct (Owners_cases (ring c) it key (writeQuorum c) Hit) as (HN & HE & HS).
  split; [|split; [|split]].
  - intros id Hc Hr. unfold deleteFromNode, getConnection.
    rewrite decide_True by done. by rewrite Hr.
  - intros Hne Hn. unfold Delete. by rewrite HN.
  - intros H. unfold Delete. by rewrite HE.
  - intros Hne Hn. destruct (HS Hne Hn) as (owners & HO & Hnil).
    exists owners. split; [done|]. split; [done|].
    unfold Delete. rewrite HO. simpl.
    destruct owners as [|o owners']; [done|].
    set (owners := o :: owners') in *.
    rewrite (successes_count (fun o => deleteFromNode c net (Ring.ID o) key)).
    assert (E : filter (fun o => is_ok (deleteFromNode c net (Ring.ID o) key) = true) owners
                = filter (fun o => delete_ack c net key o = true) owners).
    { apply list_filter_iff. intros x. by rewrite deleteFromNode_ok. }
    rewrite E.
    destruct (Z.geb_spec
                (Z.of_nat (length (filter (fun o => delete_ack c net key o = true) owners)))
                (writeQuorum c));
      case_decide; try done; lia.
Qed.

(** C9.  When the ring has fewer nodes than the write quorum (and at
    least one), [Set] and [Delete] return the quorum failure whatever
    the replicas answer: at most one success per owner is counted and
    there are fewer owners than the quorum asks for. *)
Theorem small_ring_never_reaches_write_quorum c net it key value ttl :
  Ring.range_order (ring c) it ->
  0 < Ring.NodeCount (ring c) < writeQuorum c ->
  Set_ c net it key value ttl = Some (Err "failed to write to quorum of nodes") /\
  Delete c net it key = Some (Err "failed to delete from quorum of nodes").
Proof.
  intros Hit [Hpos Hlt]. unfold Ring.NodeCount in *.
  unfold Set_, Delete. rewrite Owners_nonneg by lia. simpl.
  remember (take _ (Ring.ranking key it)) as owners eqn:E.
  assert (Hlen : length owners = size (Ring.nodes (ring c))).
  { subst owners. rewrite length_take, ranking_Permutation.
    rewrite (length_range_order _ _ Hit). lia. }
  clear E. destruct owners as [|o owners'] eqn:E; [simpl in Hlen; lia|].
  rewrite <- E in *. clear E o owners'.
  split.
  - pose proof (successes_le_length
      (map (fun o => setToNode c net (Ring.ID o) key value ttl) owners)) as H.
    rewrite length_map in H.
    destruct (Z.geb_spec (successes (map (fun o => setToNode c net (Ring.ID o) key value ttl) owners))
                         (writeQuorum c)); [lia|done].
  - pose proof (successes_le_length
      (map (fun o => deleteFromNode c net (Ring.ID o) key) owners)) as H.
    rewrite length_map in H.
    destruct (Z.geb_spec (successes (map (fun o => deleteFromNode c net (Ring.ID o) key) owners))
                         (writeQuorum c)); [lia|done].
Qed.
End client_facts.

Section client_examples.
Import Client.
Local Open Scope string_scope.

Lemma Get_returns_first_value_witness :
  Ring.range_order (ring client3) (Ring.members Ring.ring3) /\
  Ring.nodes (ring client3) <> ∅ /\ 1 <= readQuorum client3 /\
  Get client3 net_only_node2 (Ring.members Ring.ring3) "test-key" = Some (Ok ["v"%byte]).
Proof.
  assert (R : Ring.range_order (ring client3) (Ring.members Ring.ring3))
    by (unfold Ring.range_order, Ring.members; reflexivity).
  assert (N : Ring.nodes (ring client3) <> ∅).
  { intros E. apply (f_equal (fun m => m !! "node1")) in E. by vm_compute in E. }
  assert (Q : 1 <= readQuorum client3) by (by vm_compute).
  split; [exact R|]. split; [exact N|]. split; [exact Q|].
  destruct (Get_returns_first_value client3 net_only_node2 _ "test-key" R)
    as (_ & _ & _ & H).
  destruct (H N Q) as (owners & HO & _ & _ & HV).
  apply (HV [Ring.node1] Ring.node2 []); [|intros o' Ho'|by vm_compute].
  - assert (O : Ring.Owners (ring client3) (Ring.members Ring.ring3) "test-key"
                  (readQuorum client3) = Some [Ring.node1; Ring.node2]) by (by vm_compute).
    rewrite O in HO. by injection HO as <-.
  - apply list_elem_of_singleton in Ho' as ->. by vm_compute.
Defined.

(** C1 as stated fails.  The owners of "test-key" are [node1] and
    [node2]; [node1] answers "not found".  The coordinator of the
    specification stops there with a definite not-found; the code goes
    on and returns the value [node2] holds.  When no replica holds the
    key the code returns an error. *)
Lemma Get_not_found_falls_through :
  Ring.Owners (ring client3) (Ring.members Ring.ring3) "test-key" (readQuorum client3)
    = Some [Ring.node1; Ring.node2] /\
  rpc_Get net_only_node2 "node1" "test-key" = Reply (mkGetResponse [] false) /\
  spec_Get client3 net_only_node2 "test-key" [Ring.node1; Ring.node2] = Not_found /\
  Get client3 net_only_node2 (Ring.members Ring.ring3) "test-key" = Some (Ok ["v"%byte]) /\
  spec_Get client3 net_absent "test-key" [Ring.node1; Ring.node2] = Not_found /\
  Get client3 net_absent (Ring.members Ring.ring3) "test-key"
    = Some (Err "failed to get key from any node").
Proof. by vm_compute. Qed.

Lemma Delete_counts_deleted_replies_witness :
  Ring.range_order (ring client3) (Ring.members Ring.ring3) /\
  Ring.nodes (ring client3) <> ∅ /\ 1 <= writeQuorum client3 /\
  Delete client3 net_only_node2 (Ring.members Ring.ring3) "test-key"
    = Some (Err "failed to delete from quorum of nodes").
Proof.
  assert (R : Ring.range_order (ring client3) (Ring.members Ring.ring3))
    by (unfold Ring.range_order, Ring.members; reflexivity).
  assert (N : Ring.nodes (ring client3) <> ∅).
  { intros E. apply (f_equal (fun m => m !! "node1")) in E. by vm_compute in E. }
  assert (Q : 1 <= writeQuorum client3) by (by vm_compute).
  split; [exact R|]. split; [exact N|]. split; [exact Q|].
  destruct (Delete_counts_deleted_replies client3 net_only_node2 _ "test-key" R)
    as (_ & _ & _ & H).
  destruct (H N Q) as (owners & HO & _ & ->).
  assert (O : Ring.Owners (ring client3) (Ring.members Ring.ring3) "test-key"
                (writeQuorum client3) = Some [Ring.node1; Ring.node2]) by (by vm_compute).
  rewrite O in HO. injection HO as <-. by vm_compute.
Defined.

(** C2 as stated fails.  Both owners of "test-key" are connected and
    answer; neither holds the key, so both report [deleted = false]; the
    write quorum is 2 and [Delete] returns the quorum failure. *)
Lemma Delete_of_absent_key_fails :
  Ring.Owners (ring client3) (Ring.members Ring.ring3) "test-key" (writeQuorum client3)
    = Some [Ring.node1; Ring.node2] /\
  "node1" ∈ connections client3 /\ "node2" ∈ connections client3 /\
  rpc_Delete net_absent "node1" "test-key" = Reply (mkDeleteResponse false) /\
  rpc_Delete net_absent "node2" "test-key" = Reply (mkDeleteResponse false) /\
  Delete client3 net_absent (Ring.members Ring.ring3) "test-key"
    = Some (Err "failed to delete from quorum of nodes").
Proof.
  split; [by vm_compute|].
  split; [apply (bool_decide_unpack _); by vm_compute|].
  split; [apply (bool_decide_unpack _); by vm_compute|].
  by vm_compute.
Qed.

Lemma small_ring_never_reaches_write_quorum_witness :
  Ring.range_order (ring client1) (Ring.members (ring client1)) /\
  0 < Ring.NodeCount (ring client1) < writeQuorum client1 /\
  Set_ client1 net_all_ok (Ring.members (ring client1)) "test-key" ["v"%byte] 0
    = Some (Err "failed to write to quorum of nodes") /\
  Delete client1 net_all_ok (Ring.members (ring client1)) "test-key"
    = Some (Err "failed to delete from quorum of nodes").
Proof.
  split; [unfold Ring.range_order, Ring.members; reflexivity|].
  split; [by vm_compute|].
  apply small_ring_never_reaches_write_quorum;
    [unfold Ring.range_order, Ring.members; reflexivity|by vm_compute].
Defined.
End client_examples.

(** ** The cache: chained segments of the heap *)

Section cache_heap.
Import Cache.
Implicit Types (h : gmap loc Entry) (l : list loc) (p q : loc)
               (prev next : option loc) (e : Entry).

Lemma hd_or_app l1 l2 d : hd_or (l1 ++ l2) d = hd_or l1 (hd_or l2 d).
Proof. by destruct l1. Qed.

Lemma last_or_app l1 l2 d : last_or (l1 ++ l2) d = last_or l2 (last_or l1 d).
Proof.
  unfold last_or. rewrite last_app. by destruct (last l2).
Qed.

Lemma last_or_cons p l d : last_or (p :: l) d = last_or l (Some p).
Proof. unfold last_or. rewrite last_cons. by destruct (last l). Qed.

Lemma hd_or_None l : hd_or l None = List.head l.
Proof. by destruct l. Qed.

Lemma last_or_None l : last_or l None = last l.
Proof. unfold last_or. by destruct (last l). Qed.

Lemma dseg_app h prev l1 l2 next :
  dseg h prev (l1 ++ l2) next <->
  dseg h prev l1 (hd_or l2 next) /\ dseg h (last_or l1 prev) l2 next.
Proof.
  revert prev. induction l1 as [|p l1 IH]; intros prev; simpl.
  - unfold last_or; simpl. tauto.
  - rewrite last_or_cons. split.
    + intros (e & He & Hp & Hn & Hd). apply IH in Hd as [Hd1 Hd2].
      split; [|done]. exists e. by rewrite <- hd_or_app.
    + intros [(e & He & Hp & Hn & Hd1) Hd2].
      exists e. rewrite hd_or_app. repeat split; [done..|]. by apply IH.
Qed.

(** Entries outside a segment do not matter to it. *)
Lemma dseg_frame h h' prev l next :
  (forall p, p ∈ l -> h' !! p = h !! p) ->
  dseg h prev l next -> dseg h' prev l next.
Proof.
  revert prev. induction l as [|p l IH]; intros prev Hf; simpl; [done|].
  intros (e & He & Hp & Hn & Hd). exists e. split.
  - rewrite Hf; [done|by left].
  - repeat split; [done..|]. apply IH; [|done].
    intros q Hq. apply Hf. by right.
Qed.

Lemma dseg_lookup h prev l next p :
  dseg h prev l next -> p ∈ l -> is_Some (h !! p).
Proof.
  revert prev. induction l as [|q l IH]; intros prev Hd Hp; [by apply elem_of_nil in Hp|].
  destruct Hd as (e & He & _ & _ & Hd).
  apply elem_of_cons in Hp as [->|Hp]; [by eexists|by eapply IH].
Qed.

(** Redirecting the forward link of the last entry of a segment. *)
Lemma dseg_set_next h prev l q e next next' :
  dseg h prev (l ++ [q]) next -> NoDup (l ++ [q]) -> h !! q = Some e ->
  dseg (<[q := mkEntry (Key e) (Value e) (ExpiresAt e) (Prev e) next']> h)
       prev (l ++ [q]) next'.
Proof.
  revert prev. induction l as [|p l IH]; intros prev; simpl.
  - intros (e' & He' & Hp & Hn & _) _ He. simplify_eq.
    eexists. rewrite lookup_insert_eq. by repeat split.
  - intros (e' & He' & Hp & Hn & Hd) Hnd He.
    apply NoDup_cons in Hnd as [Hp' Hnd].
    assert (p <> q) by (intros ->; apply Hp', elem_of_app; right; by left).
    exists e'. rewrite lookup_insert_ne by done. repeat split; [done..| |by apply IH].
    rewrite Hn. by destruct l.
Qed.

(** Redirecting the backward link of the first entry of a segment. *)
Lemma dseg_set_prev h prev q l e next prev' :
  dseg h prev (q :: l) next -> q ∉ l -> h !! q = Some e ->
  dseg (<[q := mkEntry (Key e) (Value e) (ExpiresAt e) prev' (Next e)]> h)
       prev' (q :: l) next.
Proof.
  simpl. intros (e' & He' & Hp & Hn & Hd) Hq He. simplify_eq.
  eexists. rewrite lookup_insert_eq. repeat split; [done|].
  eapply dseg_frame; [|done].
  intros p Hp. apply lookup_insert_ne. by intros ->.
Qed.

Lemma same_payload_trans h1 h2 h3 :
  same_payload h1 h2 -> same_payload h2 h3 -> same_payload h1 h3.
Proof. intros H12 H23 p. by rewrite H23, H12. Qed.

Lemma same_payload_insert h p e e' :
  h !! p = Some e -> payload e' = payload e -> same_payload h (<[p := e']> h).
Proof.
  intros He Hpl q. destruct (decide (p = q)) as [->|].
  - by rewrite lookup_insert_eq, He; simpl; rewrite Hpl.
  - by rewrite lookup_insert_ne.
Qed.

Lemma same_payload_Key h h' p :
  same_payload h h' -> Key <$> h' !! p = Key <$> h !! p.
Proof.
  intros H. specialize (H p).
  destruct (h' !! p), (h !! p); simpl in *; try done.
  unfold payload in H. simplify_eq. by f_equal.
Qed.

Lemma write_Prev_Some h p v e :
  h !! p = Some e ->
  write_Prev p v h = Some (<[p := mkEntry (Key e) (Value e) (ExpiresAt e) v (Next e)]> h).
Proof. intros He. unfold write_Prev. by rewrite He. Qed.

Lemma write_Next_Some h p v e :
  h !! p = Some e ->
  write_Next p v h = Some (<[p := mkEntry (Key e) (Value e) (ExpiresAt e) (Prev e) v]> h).
Proof. intros He. unfold write_Next. by rewrite He. Qed.
End cache_heap.

(** ** The cache: the list mutations *)

Section cache_list.
Import Cache.
Implicit Types (h : gmap loc Entry) (l : list loc) (p q : loc)
               (prev next : option loc) (e : Entry) (c : Cache).

(** [entry.Prev.Next = entry.Next], when the entry has a predecessor. *)
Lemma unlink_prev h prev l next next' :
  dseg h prev l next -> NoDup l ->
  exists h1,
    match last l with
    | Some q => write_Next q next' h
    | None => Some h
    end = Some h1 /\
    dseg h1 prev l next' /\
    (forall q, q ∉ l -> h1 !! q = h !! q) /\
    same_payload h h1.
Proof.
  intros Hd Hnd. destruct l as [|p0 l0] using rev_ind.
  - exists h. simpl. repeat split; done.
  - clear IHl0. rewrite last_snoc.
    destruct (dseg_lookup h prev (l0 ++ [p0]) next p0 Hd) as [e He].
    { apply elem_of_app. right. by left. }
    rewrite (write_Next_Some _ _ _ _ He). eexists. split; [done|].
    split; [by eapply dseg_set_next|]. split.
    + intros q Hq. apply lookup_insert_ne. intros ->.
      apply Hq, elem_of_app. right. by left.
    + apply (same_payload_insert _ _ e); [done|reflexivity].
Qed.

(** [entry.Next.Prev = entry.Prev], when the entry has a successor. *)
Lemma unlink_next h prev l next prev' :
  dseg h prev l next -> NoDup l ->
  exists h2,
    match List.head l with
    | Some n => write_Prev n prev' h
    | None => Some h
    end = Some h2 /\
    dseg h2 prev' l next /\
    (forall q, q ∉ l -> h2 !! q = h !! q) /\
    same_payload h h2.
Proof.
  intros Hd Hnd. destruct l as [|n l0].
  - exists h. simpl. repeat split; done.
  - simpl List.head. pose proof Hd as (e & He & _).
    apply NoDup_cons in Hnd as [Hn _].
    rewrite (write_Prev_Some _ _ _ _ He). eexists. split; [done|].
    split; [by eapply dseg_set_prev|]. split.
    + intros q Hq. apply lookup_insert_ne. intros ->. apply Hq. by left.
    + apply (same_payload_insert _ _ e); [done|reflexivity].
Qed.

(** Taking the entry [p] out of the chain, as [removeEntry] and
    [moveToFront] both do. *)
Lemma unlink h l1 p l2 :
  dseg h None (l1 ++ p :: l2) None -> NoDup (l1 ++ p :: l2) ->
  exists e h1 h2,
    h !! p = Some e /\ Prev e = last l1 /\ Next e = List.head l2 /\
    match last l1 with
    | Some q => write_Next q (List.head l2) h
    | None => Some h
    end = Some h1 /\
    h1 !! p = Some e /\
    match List.head l2 with
    | Some n => write_Prev n (last l1) h1
    | None => Some h1
    end = Some h2 /\
    h2 !! p = Some e /\
    dseg h2 None (l1 ++ l2) None /\
    same_payload h h2.
Proof.
  intros Hd Hnd.
  apply dseg_app in Hd as [Hd1 (e & He & Hp & Hn & Hd2)].
  rewrite last_or_None in Hp. rewrite hd_or_None in Hn.
  apply NoDup_app in Hnd as (Hnd1 & Hdisj & Hnd2).
  apply NoDup_cons in Hnd2 as [Hp2 Hnd2].
  assert (Hp1 : p ∉ l1) by (intros Hin; apply (Hdisj p Hin); by left).
  destruct (unlink_prev h None l1 _ (List.head l2) Hd1 Hnd1)
    as (h1 & E1 & Hd1' & Hf1 & Hpl1).
  assert (Hd2' : dseg h1 (Some p) l2 None).
  { eapply dseg_frame; [|exact Hd2]. intros q Hq. apply Hf1.
    intros Hq1. apply (Hdisj q Hq1). by right. }
  destruct (unlink_next h1 (Some p) l2 None (last l1) Hd2' Hnd2)
    as (h2 & E2 & Hd2'' & Hf2 & Hpl2).
  exists e, h1, h2. repeat split; try done.
  - by rewrite Hf1.
  - by rewrite Hf2, Hf1.
  - apply dseg_app. rewrite hd_or_None, last_or_None. split; [|done].
    eapply dseg_frame; [|exact Hd1']. intros q Hq. apply Hf2.
    intros Hq2. apply (Hdisj q Hq). by right.
  - by eapply same_payload_trans.
Qed.

(** The index after an entry left the list and its key left the map. *)
Lemma index_ok_remove ents h h' l1 p l2 e :
  index_ok ents h (l1 ++ p :: l2) -> NoDup (l1 ++ p :: l2) ->
  h !! p = Some e -> same_payload h h' ->
  index_ok (delete (Key e) ents) h' (l1 ++ l2).
Proof.
  intros Hidx Hnd He Hpl k q.
  rewrite (same_payload_Key h h' q Hpl).
  assert (Hp : ents !! Key e = Some p).
  { apply Hidx. split; [apply elem_of_app; right; by left|by rewrite He]. }
  assert (Hnotin : p ∉ l1 ++ l2).
  { apply NoDup_app in Hnd as (_ & Hdisj & Hnd2).
    apply NoDup_cons in Hnd2 as [Hp2 _].
    intros [Hin|Hin]%elem_of_app; [|done]. apply (Hdisj p Hin). by left. }
  rewrite lookup_delete. case_decide as Hk.
  - subst k. split; [done|]. intros [Hq Hkq]. exfalso.
    assert (ents !! Key e = Some q) as Hq'.
    { apply Hidx. split; [|done].
      apply elem_of_app in Hq as [|]; apply elem_of_app; [by left|right; by right]. }
    rewrite Hp in Hq'. by simplify_eq.
  - rewrite (Hidx k q). split; intros [Hq Hkq]; (split; [|done]).
    + apply elem_of_app in Hq as [Hq|Hq]; [apply elem_of_app; by left|].
      apply elem_of_cons in Hq as [->|Hq]; [|apply elem_of_app; by right].
      rewrite He in Hkq. simpl in Hkq. by simplify_eq.
    + apply elem_of_app in Hq as [|]; apply elem_of_app; [by left|right; by right].
Qed.

Lemma NoDup_unlink l1 p l2 :
  NoDup (l1 ++ p :: l2) -> NoDup (l1 ++ l2) /\ p ∉ l1 ++ l2.
Proof.
  intros Hnd. apply NoDup_app in Hnd as (Hnd1 & Hdisj & Hnd2).
  apply NoDup_cons in Hnd2 as [Hp2 Hnd2]. split.
  - apply NoDup_app. repeat split; [done| |done].
    intros x Hx Hx2. apply (Hdisj x Hx). by right.
  - intros [Hin|Hin]%elem_of_app; [|done]. apply (Hdisj p Hin). by left.
Qed.

Lemma head_unlink l1 p l2 :
  List.head (l1 ++ l2)
  = match last l1 with Some _ => List.head (l1 ++ p :: l2) | None => List.head l2 end.
Proof.
  destruct l1 as [|a l1]; [done|]. simpl.
  by destruct (last (a :: l1)) eqn:E; [|apply last_None in E].
Qed.

Lemma last_unlink l1 p l2 :
  last (l1 ++ l2)
  = match List.head l2 with Some _ => last (l1 ++ p :: l2) | None => last l1 end.
Proof.
  destruct l2 as [|a l2]; simpl; [by rewrite app_nil_r|].
  rewrite !last_app, !last_cons. by destruct (last l2).
Qed.

(** [removeEntry] takes the entry out of the list and the index. *)
Lemma removeEntry_rep c l1 p l2 :
  rep c (l1 ++ p :: l2) ->
  exists c' e,
    removeEntry p c = Some c' /\ heap c !! p = Some e /\
    rep c' (l1 ++ l2) /\
    entries c' = delete (Key e) (entries c) /\
    capacity c' = capacity c /\
    same_payload (heap c) (heap c').
Proof.
  intros [Hd Hnd Hhd Htl Hsz Hidx].
  destruct (unlink (heap c) l1 p l2 Hd Hnd)
    as (e & h1 & h2 & He & Hp & Hn & E1 & He1 & E2 & He2 & Hd' & Hpl).
  exists (mkCache (delete (Key e) (entries c))
            (match last l1 with Some _ => head c | None => List.head l2 end)
            (match List.head l2 with Some _ => tail c | None => last l1 end)
            (capacity c) (size c - 1) h2), e.
  split.
  { unfold removeEntry. rewrite He. simpl. rewrite Hp, Hn.
    destruct (last l1) as [q|]; simpl in *.
    - rewrite E1. simpl. rewrite He1. simpl. rewrite Hp, Hn.
      destruct (List.head l2) as [n|]; simpl in *.
      + by rewrite E2.
      + by injection E2 as <-.
    - injection E1 as <-. rewrite He. simpl. rewrite Hp, Hn.
      destruct (List.head l2) as [n|]; simpl in *.
      + by rewrite E2.
      + by injection E2 as <-. }
  split; [done|]. split; [|done].
  destruct (NoDup_unlink _ _ _ Hnd) as [Hnd' _].
  split; simpl; try done.
  - rewrite (head_unlink l1 p l2), Hhd. done.
  - rewrite (last_unlink l1 p l2), Htl. done.
  - rewrite Hsz, !length_app. simpl. lia.
  - by eapply index_ok_remove.
Qed.
End cache_list.

Section cache_front.
Import Cache.
Implicit Types (h : gmap loc Entry) (l : list loc) (p q : loc)
               (prev next : option loc) (e : Entry) (c : Cache).

(** [addToFront] puts an entry that is not in the list before its head. *)
Lemma addToFront_list c l p e :
  dseg (heap c) None l None -> NoDup l -> p ∉ l -> heap c !! p = Some e ->
  head c = List.head l -> tail c = last l ->
  exists h',
    addToFront p c
    = Some (mkCache (entries c) (Some p) (last (p :: l)) (capacity c) (size c) h') /\
    dseg h' None (p :: l) None /\ same_payload (heap c) h'.
Proof.
  intros Hd Hnd Hp He Hhd Htl. unfold addToFront.
  rewrite (write_Prev_Some _ _ _ _ He). simpl.
  erewrite write_Next_Some by apply lookup_insert_eq. simpl.
  rewrite insert_insert_eq.
  set (e' := mkEntry (Key e) (Value e) (ExpiresAt e) None (head c)).
  set (hb := <[p := e']> (heap c)).
  assert (Hpl : same_payload (heap c) hb)
    by (apply (same_payload_insert _ _ e); [done|reflexivity]).
  assert (Hdb : dseg hb None l None).
  { eapply dseg_frame; [|exact Hd]. intros q Hq.
    apply lookup_insert_ne. by intros ->. }
  assert (Htl' : match tail c with None => Some p | Some t => Some t end
                 = last (p :: l)).
  { rewrite last_cons, Htl. by destruct (last l). }
  rewrite Htl'. rewrite Hhd. destruct l as [|hd l']; simpl.
  - exists hb. split; [done|]. split; [|done].
    exists e'. unfold hb. rewrite lookup_insert_eq. subst e'; simpl.
    by rewrite Hhd.
  - assert (hd <> p) as Hne by (intros ->; apply Hp; by left).
    pose proof Hdb as (ehd & Hehd & _).
    rewrite (write_Prev_Some _ _ _ _ Hehd).
    assert (Hd' : dseg (<[hd := mkEntry (Key ehd) (Value ehd) (ExpiresAt ehd)
                                        (Some p) (Next ehd)]> hb)
                       (Some p) (hd :: l') None).
    { apply NoDup_cons in Hnd as [Hhd' _]. by eapply dseg_set_prev. }
    eexists. split; [done|]. split.
    + exists e'. split; [|subst e'; simpl; by rewrite ?Hhd].
      rewrite lookup_insert_ne by done. apply lookup_insert_eq.
    + eapply same_payload_trans; [exact Hpl|].
      apply (same_payload_insert _ _ ehd); [done|reflexivity].
Qed.

Lemma index_ok_rearrange ents h h' l l' :
  index_ok ents h l -> (forall q, q ∈ l <-> q ∈ l') ->
  (forall q, Key <$> h' !! q = Key <$> h !! q) ->
  index_ok ents h' l'.
Proof. intros Hidx Hl Hk k q. by rewrite Hk, <- Hl. Qed.

Lemma elem_of_move_front l1 p l2 q :
  q ∈ l1 ++ p :: l2 <-> q ∈ p :: l1 ++ l2.
Proof. rewrite elem_of_cons, !elem_of_app, elem_of_cons. tauto. Qed.

(** [moveToFront] moves an entry of the list before its head. *)
Lemma moveToFront_rep c l1 p l2 :
  rep c (l1 ++ p :: l2) ->
  exists c',
    moveToFront p c = Some c' /\
    rep c' (p :: l1 ++ l2) /\
    entries c' = entries c /\ capacity c' = capacity c /\ size c' = size c /\
    same_payload (heap c) (heap c').
Proof.
  intros Hrep. pose proof Hrep as [Hd Hnd Hhd Htl Hsz Hidx].
  unfold moveToFront. destruct l1 as [|a l1].
  { simpl in *. rewrite decide_True by done. by exists c. }
  assert (Some p <> head c) as Hne.
  { rewrite Hhd. simpl. intros [= ->].
    apply NoDup_cons in Hnd as [Ha _]. apply Ha, elem_of_app. right. by left. }
  rewrite decide_False by done.
  destruct (unlink (heap c) (a :: l1) p l2 Hd Hnd)
    as (e & h1 & h2 & He & Hp & Hn & E1 & He1 & E2 & He2 & Hd' & Hpl).
  rewrite He. simpl. rewrite Hp, Hn.
  destruct (last (a :: l1)) as [q|] eqn:El1; [|by apply last_None in El1].
  rewrite E1. simpl. rewrite He1. simpl. rewrite Hp, Hn.
  assert (E2' : match List.head l2 with
                | Some n => write_Prev n (Some q) h1
                | None => Some h1
                end = Some h2) by done.
  rewrite E2'. simpl. rewrite He2. simpl. rewrite Hp.
  destruct (NoDup_unlink _ _ _ Hnd) as [Hnd' Hp'].
  set (tl := if decide (Some p = tail c) then Some q else tail c).
  assert (Htl' : tl = last ((a :: l1) ++ l2)).
  { unfold tl. rewrite (last_unlink (a :: l1) p l2), El1, Htl.
    destruct l2 as [|b l2]; simpl List.head.
    - rewrite decide_True; [done|]. by rewrite last_snoc.
    - rewrite decide_False; [done|].
      rewrite last_app, !last_cons. intros Heq.
      apply NoDup_app in Hnd as (_ & _ & Hnd2).
      apply NoDup_cons in Hnd2 as [Hp2 _]. apply Hp2.
      destruct (last l2) as [z|] eqn:Ez; simplify_eq.
      + right. by apply last_Some_elem_of.
      + by left. }
  destruct (addToFront_list
              (mkCache (entries c) (head c) tl (capacity c) (size c) h2)
              ((a :: l1) ++ l2) p e) as (h' & E & Hd'' & Hpl'); simpl; try done.
  rewrite E. eexists. split; [done|]. split; [|repeat split; try done].
  - split; simpl; try done.
    + by constructor.
    + rewrite Hsz, !length_app. simpl. lia.
    + eapply index_ok_rearrange; [exact Hidx|apply elem_of_move_front|].
      intros q0. apply same_payload_Key. by eapply same_payload_trans.
  - by eapply same_payload_trans.
Qed.
End cache_front.

(** ** The cache: the public operations *)

Section cache_ops.
Import Cache.
Implicit Types (h : gmap loc Entry) (l : list loc) (p q : loc)
               (e : Entry) (c : Cache) (key : string).

Lemma expired_iff now e :
  expired now e = true <-> ExpiresAt e <> 0 /\ ExpiresAt e < now.
Proof.
  unfold expired, IsZero, After.
  rewrite andb_true_iff, negb_true_iff, Z.eqb_neq, Z.gtb_ltb, Z.ltb_lt. tauto.
Qed.

Lemma filter_ne_unlink l1 p l2 :
  NoDup (l1 ++ p :: l2) -> filter (fun q => q <> p) (l1 ++ p :: l2) = l1 ++ l2.
Proof.
  intros Hnd. apply NoDup_app in Hnd as (_ & Hdisj & Hnd2).
  apply NoDup_cons in Hnd2 as [Hp2 _].
  assert (F : forall l, p ∉ l -> filter (fun q => q <> p) l = l).
  { induction l as [|a l IH]; intros Hl; [done|].
    apply not_elem_of_cons in Hl as [? ?].
    rewrite filter_cons_True by done. by rewrite IH. }
  rewrite filter_app, filter_cons_False by (intros H; by apply H).
  rewrite !F; [done..|]. intros Hin. apply (Hdisj p Hin). by left.
Qed.

Lemma rep_NewCache cap : rep (NewCache cap) [].
Proof.
  split; simpl; try done; [constructor|].
  intros k p. rewrite lookup_empty. split; [done|]. intros [H _].
  by apply elem_of_nil in H.
Qed.

Lemma rep_Clear c : rep (Clear c) [].
Proof.
  split; simpl; try done; [constructor|].
  intros k p. rewrite lookup_empty. split; [done|]. intros [H _].
  by apply elem_of_nil in H.
Qed.

(** An indexed key leads to an entry of the list that carries it. *)
Lemma rep_lookup c l key p :
  rep c l -> entries c !! key = Some p ->
  exists l1 l2 e, l = l1 ++ p :: l2 /\ heap c !! p = Some e /\ Key e = key.
Proof.
  intros Hrep Hk. apply (rep_index _ _ Hrep) in Hk as [Hin Hkey].
  apply list_elem_of_split in Hin as (l1 & l2 & ->).
  destruct (heap c !! p) as [e|] eqn:He; [|done].
  exists l1, l2, e. simpl in Hkey. by simplify_eq.
Qed.

(** [Get] on a well-formed cache. *)
Lemma Get_rep c l key now :
  rep c l ->
  match entries c !! key with
  | None => Get key now c = Some ([], false, c)
  | Some p =>
      exists e, heap c !! p = Some e /\ Key e = key /\
        if expired now e then
          exists c', Get key now c = Some ([], false, c') /\
                     rep c' (filter (fun q => q <> p) l) /\
                     entries c' !! key = None /\
                     capacity c' = capacity c /\ size c' = size c - 1
        else
          exists c', Get key now c = Some (Value e, true, c') /\
                     rep c' (p :: filter (fun q => q <> p) l) /\
                     entries c' = entries c /\
                     capacity c' = capacity c /\ size c' = size c
  end.
Proof.
  intros Hrep. unfold Get. destruct (entries c !! key) as [p|] eqn:Hk; [|done].
  destruct (rep_lookup _ _ _ _ Hrep Hk) as (l1 & l2 & e & -> & He & Hkey).
  exists e. split; [done|]. split; [done|]. rewrite He. simpl.
  rewrite (filter_ne_unlink _ _ _ (rep_NoDup _ _ Hrep)).
  destruct (expired now e).
  - destruct (removeEntry_rep c l1 p l2 Hrep)
      as (c' & e' & E & He' & Hrep' & Hents & Hcap & Hpl).
    rewrite E. simpl. exists c'. split; [done|]. split; [done|].
    assert (e' = e) as -> by congruence.
    split; [rewrite Hents, <- Hkey; apply lookup_delete_eq|]. split; [done|].
    rewrite (rep_size _ _ Hrep'), (rep_size _ _ Hrep), !length_app. simpl. lia.
  - destruct (moveToFront_rep c l1 p l2 Hrep)
      as (c' & E & Hrep' & Hents & Hcap & Hsz & Hpl).
    rewrite E. simpl. specialize (Hpl p). rewrite He in Hpl.
    destruct (heap c' !! p) as [e'|]; [|done]. simpl in *.
    assert (Value e' = Value e) as -> by (unfold payload in Hpl; by simplify_eq).
    by exists c'.
Qed.

(** [Delete] on a well-formed cache. *)
Lemma Delete_rep c l key :
  rep c l ->
  exists b c' l', Delete key c = Some (b, c') /\ rep c' l' /\
    capacity c' = capacity c /\ size c' <= size c.
Proof.
  intros Hrep. unfold Delete. destruct (entries c !! key) as [p|] eqn:Hk.
  - destruct (rep_lookup _ _ _ _ Hrep Hk) as (l1 & l2 & e & -> & He & Hkey).
    destruct (removeEntry_rep c l1 p l2 Hrep)
      as (c' & e' & E & He' & Hrep' & Hents & Hcap & Hpl).
    rewrite E. simpl. exists true, c', (l1 ++ l2).
    split; [done|]. split; [done|]. split; [done|].
    rewrite (rep_size _ _ Hrep'), (rep_size _ _ Hrep), !length_app. simpl. lia.
  - exists false, c, l. split; [done|]. split; [done|]. split; [done|lia].
Qed.

(** [Cleanup] on a well-formed cache, whatever the order of its loop. *)
Lemma Cleanup_loop_rep now order : forall removed c l,
  rep c l ->
  exists n c' l', Cleanup_loop now order removed c = Some (n, c') /\ rep c' l' /\
    capacity c' = capacity c /\ size c' <= size c.
Proof.
  induction order as [|key order IH]; intros removed c l Hrep; simpl.
  - exists removed, c, l. split; [done|]. split; [done|]. split; [done|lia].
  - destruct (entries c !! key) as [p|] eqn:Hk; [|by apply (IH _ _ l)].
    destruct (rep_lookup _ _ _ _ Hrep Hk) as (l1 & l2 & e & -> & He & Hkey).
    rewrite He. simpl. destruct (expired now e); [|by eapply IH].
    destruct (removeEntry_rep c l1 p l2 Hrep)
      as (c' & e' & E & He' & Hrep' & Hents & Hcap & Hpl).
    rewrite E. simpl.
    destruct (IH (removed + 1) c' _ Hrep') as (n & c'' & l'' & E' & Hrep'' & Hcap' & Hsz).
    exists n, c'', l''. split; [done|]. split; [done|]. split; [congruence|].
    rewrite (rep_size _ _ Hrep'), !length_app in Hsz.
    rewrite (rep_size _ _ Hrep), !length_app. simpl. lia.
Qed.
End cache_ops.

(** ** The cache: the keys along the recency list, and [Set] *)

Section cache_keys.
Import Cache.
Implicit Types (h : gmap loc Entry) (l : list loc) (p q : loc)
               (e : Entry) (c : Cache) (key : string).

Lemma keys_of_app h l1 l2 : keys_of h (l1 ++ l2) = keys_of h l1 ++ keys_of h l2.
Proof. apply omap_app. Qed.

Lemma keys_of_unfold h p l :
  keys_of h (p :: l)
  = match Key <$> h !! p with
    | Some k => k :: keys_of h l
    | None => keys_of h l
    end.
Proof. reflexivity. Qed.

Lemma keys_of_cons h p l e :
  h !! p = Some e -> keys_of h (p :: l) = Key e :: keys_of h l.
Proof. intros He. by rewrite keys_of_unfold, He. Qed.

Lemma keys_of_ext h h' l :
  (forall q, q ∈ l -> Key <$> h' !! q = Key <$> h !! q) ->
  keys_of h' l = keys_of h l.
Proof.
  induction l as [|p l IH]; intros H; [done|].
  rewrite !keys_of_unfold, (H p) by by left.
  rewrite IH; [done|]. intros q Hq. apply H. by right.
Qed.

Lemma keys_of_same_payload h h' l :
  same_payload h h' -> keys_of h' l = keys_of h l.
Proof. intros Hpl. apply keys_of_ext. intros q _. by apply same_payload_Key. Qed.

Lemma keys_of_length h prev l next :
  dseg h prev l next -> length (keys_of h l) = length l.
Proof.
  revert prev. induction l as [|p l IH]; intros prev; [done|].
  intros (e & He & _ & _ & Hd). rewrite (keys_of_cons _ _ _ _ He). simpl.
  f_equal. by eapply IH.
Qed.

Lemma elem_of_keys_of c l key :
  rep c l -> key ∈ keys_of (heap c) l <-> is_Some (entries c !! key).
Proof.
  intros Hrep. unfold keys_of. rewrite list_elem_of_omap. split.
  - intros (p & Hp & Hk). exists p. by apply (rep_index _ _ Hrep).
  - intros [p Hp]. exists p. by apply (rep_index _ _ Hrep).
Qed.

Lemma keys_of_NoDup c l : rep c l -> NoDup (keys_of (heap c) l).
Proof.
  intros Hrep. pose proof (rep_NoDup _ _ Hrep) as Hnd.
  pose proof (rep_index _ _ Hrep) as Hidx.
  assert (Hinj : forall p q k, p ∈ l -> q ∈ l ->
             Key <$> heap c !! p = Some k -> Key <$> heap c !! q = Some k -> p = q).
  { intros p q k Hp Hq Hkp Hkq.
    assert (entries c !! k = Some p) as E1 by by apply Hidx.
    assert (entries c !! k = Some q) as E2 by by apply Hidx.
    congruence. }
  clear Hrep Hidx. induction l as [|p l IH]; [constructor|].
  apply NoDup_cons in Hnd as [Hp Hnd]. rewrite keys_of_unfold.
  destruct (Key <$> heap c !! p) as [k|] eqn:Hk.
  - constructor.
    + unfold keys_of. rewrite list_elem_of_omap. intros (q & Hq & Hkq).
      assert (p = q) as -> by (eapply Hinj; [by left|by right|done..]). done.
    + apply IH; [done|]. intros p' q' k' Hp' Hq'. apply Hinj; by right.
  - apply IH; [done|]. intros p' q' k' Hp' Hq'. apply Hinj; by right.
Qed.

Lemma filter_ne_unlink_keys (ks1 : list string) k ks2 :
  NoDup (ks1 ++ k :: ks2) ->
  filter (fun k' => k' <> k) (ks1 ++ k :: ks2) = ks1 ++ ks2.
Proof.
  intros Hnd. apply NoDup_app in Hnd as (_ & Hdisj & Hnd2).
  apply NoDup_cons in Hnd2 as [Hp2 _].
  assert (F : forall l : list string, k ∉ l -> filter (fun k' => k' <> k) l = l).
  { induction l as [|a l IH]; intros Hl; [done|].
    apply not_elem_of_cons in Hl as [? ?].
    rewrite filter_cons_True by done. by rewrite IH. }
  rewrite filter_app, filter_cons_False by (intros H; by apply H).
  rewrite !F; [done..|]. intros Hin. apply (Hdisj k Hin). by left.
Qed.

Lemma filter_ne_absent (ks : list string) k :
  k ∉ ks -> filter (fun k' => k' <> k) ks = ks.
Proof.
  induction ks as [|a l IH]; intros Hl; [done|].
  apply not_elem_of_cons in Hl as [? ?].
  rewrite filter_cons_True by done. by rewrite IH.
Qed.

(** Rewriting what an entry stores leaves the chain as it is. *)
Lemma dseg_update_payload h prev l next p e k v x :
  h !! p = Some e -> dseg h prev l next ->
  dseg (<[p := mkEntry k v x (Prev e) (Next e)]> h) prev l next.
Proof.
  intros He. revert prev. induction l as [|q l IH]; intros prev; simpl; [done|].
  intros (e' & He' & Hp & Hn & Hd). destruct (decide (p = q)) as [->|Hne].
  - eexists. rewrite lookup_insert_eq. simplify_eq.
    repeat split; [done..|]. by apply IH.
  - exists e'. rewrite lookup_insert_ne by done. repeat split; [done..|]. by apply IH.
Qed.
End cache_keys.

Section cache_set.
Import Cache.
Implicit Types (h : gmap loc Entry) (l : list loc) (p q : loc)
               (e : Entry) (c : Cache) (key : string).

(** [Set] on a key that is in the index. *)
Lemma Set_existing c l key value ttl now p :
  inv c l -> entries c !! key = Some p ->
  exists c' l', Set_ key value ttl now c = Some c' /\ inv c' l' /\
    capacity c' = capacity c /\
    keys_of (heap c') l'
    = take (Z.to_nat (capacity c))
           (key :: filter (fun k => k <> key) (keys_of (heap c) l)).
Proof.
  intros [Hrep Hcap] Hk. unfold Set_. rewrite Hk.
  destruct (rep_lookup _ _ _ _ Hrep Hk) as (l1 & l2 & e & -> & He & Hkey).
  rewrite He. simpl.
  set (expiry := if ttl >? 0 then now + ttl else 0).
  set (h := <[p := mkEntry (Key e) value expiry (Prev e) (Next e)]> (heap c)).
  assert (Hkeys : forall q, Key <$> h !! q = Key <$> heap c !! q).
  { intros q. unfold h. destruct (decide (p = q)) as [->|].
    - by rewrite lookup_insert_eq, He.
    - by rewrite lookup_insert_ne. }
  assert (Hrep1 : rep (with_heap c h) (l1 ++ p :: l2)).
  { destruct Hrep as [Hd Hnd Hhd Htl Hsz Hidx]. split; simpl; try done.
    - by apply dseg_update_payload.
    - eapply index_ok_rearrange; [exact Hidx|done|exact Hkeys]. }
  destruct (moveToFront_rep _ l1 p l2 Hrep1)
    as (c' & E & Hrep' & Hents & Hcap' & Hsz' & Hpl).
  rewrite E. exists c', (p :: l1 ++ l2). split; [done|].
  split; [split; [done|]; simpl in *; lia|]. split; [done|].
  rewrite (keys_of_same_payload _ _ _ Hpl). simpl heap.
  rewrite !(keys_of_ext (heap c) h) by (intros; apply Hkeys).
  pose proof (keys_of_NoDup _ _ Hrep) as HndK.
  pose proof (keys_of_length _ _ _ _ (rep_dseg _ _ Hrep)) as HlenK.
  pose proof (rep_size _ _ Hrep) as Hsz.
  rewrite keys_of_app, (keys_of_cons _ _ _ _ He) in HndK, HlenK.
  rewrite keys_of_app, !(keys_of_cons _ _ _ _ He), keys_of_app, Hkey in *.
  rewrite filter_ne_unlink_keys by done.
  rewrite take_ge; [done|].
  rewrite length_app in HlenK. simpl in *. rewrite length_app. lia.
Qed.

(** [Set] on a key that is not in the index. *)
Lemma Set_fresh c l key value ttl now :
  inv c l -> entries c !! key = None ->
  exists c' l', Set_ key value ttl now c = Some c' /\ inv c' l' /\
    capacity c' = capacity c /\
    keys_of (heap c') l'
    = take (Z.to_nat (capacity c))
           (key :: filter (fun k => k <> key) (keys_of (heap c) l)).
Proof.
  intros [Hrep Hcap] Hk. unfold Set_. rewrite Hk.
  set (expiry := if ttl >? 0 then now + ttl else 0).
  set (entry := fresh (dom (heap c))).
  set (newE := mkEntry key value expiry None None).
  set (h1 := <[entry := newE]> (heap c)).
  assert (Hfresh : heap c !! entry = None) by apply not_elem_of_dom, is_fresh.
  assert (Hnotin : entry ∉ l).
  { intros Hin.
    destruct (dseg_lookup _ _ _ _ _ (rep_dseg _ _ Hrep) Hin) as [? ?]. congruence. }
  assert (Hframe : forall q, q ∈ l -> h1 !! q = heap c !! q).
  { intros q Hq. apply lookup_insert_ne. by intros ->. }
  pose proof Hrep as [Hd Hnd Hhd Htl Hsz Hidx].
  destruct (addToFront_list
              (mkCache (<[key := entry]> (entries c)) (head c) (tail c)
                       (capacity c) (size c) h1) l entry newE)
    as (h' & E & Hd' & Hpl); simpl; try done.
  { by eapply dseg_frame. }
  { apply lookup_insert_eq. }
  rewrite E. simpl. clear E.
  assert (He' : exists e', h' !! entry = Some e' /\ Key e' = key).
  { pose proof (same_payload_Key _ _ entry Hpl) as HK. simpl in HK. unfold h1 in HK.
    rewrite lookup_insert_eq in HK. destruct (h' !! entry) as [e'|]; [|done].
    exists e'. simpl in HK. by simplify_eq. }
  destruct He' as (e' & He' & Hkey').
  assert (Hkeys : forall q, q ∈ l -> Key <$> h' !! q = Key <$> heap c !! q).
  { intros q Hq. rewrite (same_payload_Key _ _ q Hpl). simpl. by rewrite Hframe. }
  set (c3 := mkCache (<[key := entry]> (entries c)) (Some entry)
                     (last (entry :: l)) (capacity c) (size c + 1) h').
  assert (Hrep3 : rep c3 (entry :: l)).
  { split; simpl; try done.
    - by constructor.
    - rewrite Hsz. lia.
    - intros k q. rewrite lookup_insert. case_decide as Hkk.
      + subst k. split.
        * intros [= <-]. split; [by left|rewrite He'; simpl; by rewrite Hkey'].
        * intros [[->|Hq]%elem_of_cons Hkq]; [done|]. exfalso.
          rewrite Hkeys in Hkq by done.
          assert (entries c !! key = Some q) by by apply Hidx. congruence.
      + rewrite (Hidx k q). split.
        * intros [Hq Hkq]. split; [by right|by rewrite Hkeys].
        * intros [[->|Hq]%elem_of_cons Hkq].
          -- rewrite He' in Hkq. simpl in Hkq. congruence.
          -- split; [done|by rewrite <- Hkeys]. }
  assert (HK3 : keys_of h' (entry :: l) = key :: keys_of (heap c) l).
  { rewrite (keys_of_cons _ _ _ _ He'), Hkey'. f_equal. by apply keys_of_ext. }
  assert (Habsent : key ∉ keys_of (heap c) l).
  { rewrite (elem_of_keys_of _ _ _ Hrep), Hk. by intros [? ?]. }
  rewrite (filter_ne_absent _ _ Habsent).
  pose proof (keys_of_length _ _ _ _ Hd) as HlenK.
  fold c3. change (size c + 1) with (size c3). change (capacity c) with (capacity c3) at 1.
  destruct (Z.gtb_spec (size c3) (capacity c3)) as [Hgt|Hle];
    [simpl in Hgt|simpl in Hle].
  - (* one entry too many: the tail goes *)
    unfold evictLRU. simpl tail.
    destruct (last (entry :: l)) as [t|] eqn:Et; [|by apply last_None in Et].
    apply last_Some in Et as [l0 El0].
    rewrite El0 in Hrep3, HK3.
    destruct (removeEntry_rep c3 l0 t [] Hrep3)
      as (c' & et & E & Het & Hrep' & Hents & Hcap' & Hpl').
    rewrite app_nil_r in Hrep'.
    rewrite E. exists c', l0. split; [done|].
    assert (Hl0 : length l0 = length l).
    { apply (f_equal length) in El0. rewrite length_app in El0. simpl in El0. lia. }
    split; [split; [done|]|].
    { rewrite (rep_size _ _ Hrep'), Hcap'. simpl. lia. }
    split; [done|].
    rewrite (keys_of_same_payload _ _ _ Hpl'). simpl heap.
    rewrite keys_of_app in HK3. rewrite <- HK3.
    rewrite take_app_length'; [done|].
    assert (length (keys_of h' l0) = length l0) as ->.
    { apply (keys_of_length _ None _ (Some t)).
      pose proof (rep_dseg _ _ Hrep3) as Hd3. simpl in Hd3.
      apply dseg_app in Hd3 as [Hd3 _]. exact Hd3. }
    lia.
  - exists c3, (entry :: l). split; [done|]. split; [split; [done|simpl; lia]|].
    split; [done|]. simpl heap. rewrite HK3.
    rewrite take_ge; [done|]. simpl. lia.
Qed.

(** [Set] keeps the invariant and acts on the keys of the recency list
    as "put the key first, drop what exceeds the capacity". *)
Lemma Set_inv c l key value ttl now :
  inv c l ->
  exists c' l', Set_ key value ttl now c = Some c' /\ inv c' l' /\
    capacity c' = capacity c /\
    keys_of (heap c') l'
    = take (Z.to_nat (capacity c))
           (key :: filter (fun k => k <> key) (keys_of (heap c) l)).
Proof.
  intros Hinv. destruct (entries c !! key) as [p|] eqn:Hk.
  - by eapply Set_existing.
  - by apply Set_fresh.
Qed.
End cache_set.

(** ** The cache: what the invariant lets a test observe *)

Section cache_observe.
Import Cache.
Implicit Types (h : gmap loc Entry) (l : list loc) (p q : loc)
               (e : Entry) (c : Cache) (key : string).

Lemma walk_next_dseg h prev l next fuel :
  dseg h prev l next ->
  walk_next h (length l + fuel) (hd_or l next) = (l ++.) <$> walk_next h fuel next.
Proof.
  revert prev. induction l as [|p l IH]; intros prev Hd; simpl.
  - by destruct (walk_next h fuel next).
  - destruct Hd as (e & He & _ & Hn & Hd). rewrite He. simpl.
    rewrite Hn, (IH _ Hd). by destruct (walk_next h fuel next).
Qed.

Lemma walk_prev_dseg h l : forall prev next fuel,
  dseg h prev l next ->
  walk_prev h (length l + fuel) (last_or l prev) = (rev l ++.) <$> walk_prev h fuel prev.
Proof.
  induction l as [|q l IH] using rev_ind; intros prev next fuel Hd.
  - unfold last_or. simpl. by destruct (walk_prev h fuel prev).
  - apply dseg_app in Hd as [Hd1 (e & He & Hp & _)].
    rewrite last_or_app. unfold last_or at 1. simpl last.
    rewrite length_app, Nat.add_1_r. simpl. rewrite He. simpl.
    rewrite Hp, (IH _ _ _ Hd1), rev_app_distr. simpl.
    by destruct (walk_prev h fuel prev).
Qed.

Lemma walk_fuel_None h fuel :
  walk_next h fuel None = Some [] /\ walk_prev h fuel None = Some [].
Proof. by destruct fuel. Qed.

(** No list of distinct entries is longer than the heap. *)
Lemma length_le_heap h prev l next :
  dseg h prev l next -> NoDup l -> (length l <= base.size h)%nat.
Proof.
  intros Hd Hnd. rewrite <- (size_dom (D := gset loc)).
  rewrite <- (size_list_to_set (C := gset loc) l) by done.
  apply subseteq_size. intros p Hp. apply elem_of_list_to_set in Hp.
  apply elem_of_dom. by eapply dseg_lookup.
Qed.

Lemma from_head_rep c l : rep c l -> from_head c = Some l.
Proof.
  intros Hrep. unfold from_head.
  pose proof (length_le_heap _ _ _ _ (rep_dseg _ _ Hrep) (rep_NoDup _ _ Hrep)) as Hle.
  replace (base.size (heap c)) with (length l + (base.size (heap c) - length l))%nat by lia.
  rewrite (rep_head _ _ Hrep), <- hd_or_None.
  rewrite (walk_next_dseg _ _ _ _ _ (rep_dseg _ _ Hrep)).
  rewrite (proj1 (walk_fuel_None _ _)). simpl. by rewrite app_nil_r.
Qed.

Lemma from_tail_rep c l : rep c l -> from_tail c = Some (rev l).
Proof.
  intros Hrep. unfold from_tail.
  pose proof (length_le_heap _ _ _ _ (rep_dseg _ _ Hrep) (rep_NoDup _ _ Hrep)) as Hle.
  replace (base.size (heap c)) with (length l + (base.size (heap c) - length l))%nat by lia.
  rewrite (rep_tail _ _ Hrep), <- last_or_None.
  rewrite (walk_prev_dseg _ _ _ _ _ (rep_dseg _ _ Hrep)).
  rewrite (proj2 (walk_fuel_None _ _)). simpl. by rewrite app_nil_r.
Qed.

(** The index has as many keys as the list has entries. *)
Lemma index_ok_size l : forall (ents : gmap string loc) h,
  NoDup l -> index_ok ents h l -> (forall p, p ∈ l -> is_Some (h !! p)) ->
  base.size ents = length l.
Proof.
  induction l as [|p l IH]; intros ents h Hnd Hidx Hall.
  - apply map_size_empty_iff, map_empty. intros k.
    destruct (ents !! k) as [q|] eqn:E; [|done].
    apply Hidx in E as [E _]. by apply elem_of_nil in E.
  - apply NoDup_cons in Hnd as [Hp Hnd].
    destruct (Hall p) as [e He]; [by left|].
    assert (Hk : ents !! Key e = Some p).
    { apply Hidx. split; [by left|by rewrite He]. }
    assert (Hsz : base.size (delete (Key e) ents) = length l).
    { apply (IH _ h); [done| |intros q Hq; apply Hall; by right].
      intros k q. rewrite lookup_delete. case_decide as Hkk.
      - subst k. split; [done|]. intros [Hq Hkq]. exfalso.
        assert (ents !! Key e = Some q) as Hq'.
        { apply Hidx. split; [by right|done]. }
        congruence.
      - rewrite (Hidx k q). split.
        + intros [[->|Hq]%elem_of_cons Hkq]; [|done].
          rewrite He in Hkq. simpl in Hkq. congruence.
        + intros [Hq Hkq]. split; [by right|done]. }
    rewrite map_size_delete, Hk in Hsz. simpl.
    destruct (base.size ents) eqn:Es; [|simpl in Hsz; lia].
    apply map_size_empty_iff in Es. subst ents. by rewrite lookup_empty in Hk.
Qed.

Lemma rep_index_size c l : rep c l -> base.size (entries c) = length l.
Proof.
  intros Hrep. apply (index_ok_size l _ (heap c)).
  - by apply (rep_NoDup _ _ Hrep).
  - by apply (rep_index _ _ Hrep).
  - intros p Hp. by eapply dseg_lookup, Hp; apply (rep_dseg _ _ Hrep).
Qed.

(** The invariant gives the consistency of the specification. *)
Lemma inv_consistent c l : inv c l -> consistent c.
Proof.
  intros [Hrep Hcap]. exists l, (rev l).
  rewrite (from_head_rep _ _ Hrep), (from_tail_rep _ _ Hrep), length_rev.
  rewrite (rep_index_size _ _ Hrep).
  pose proof (rep_size _ _ Hrep). repeat split; [done..|lia].
Qed.

(** Every public operation returns and keeps the invariant. *)
Lemma apply_op_inv o c l :
  inv c l -> exists c' l', apply_op o c = Some c' /\ inv c' l' /\
                           capacity c' = capacity c.
Proof.
  intros Hinv. pose proof Hinv as [Hrep Hcap]. destruct o as [key now|key value ttl now|key|now order|]; simpl.
  - pose proof (Get_rep c l key now Hrep) as HG.
    destruct (entries c !! key) as [p|].
    + destruct HG as (e & He & Hkey & HG). destruct (expired now e).
      * destruct HG as (c' & -> & Hrep' & _ & Hcap' & Hsz).
        exists c'. eexists. split; [done|]. split; [split; [done|lia]|done].
      * destruct HG as (c' & -> & Hrep' & _ & Hcap' & Hsz).
        exists c'. eexists. split; [done|]. split; [split; [done|lia]|done].
    + rewrite HG. by exists c, l.
  - destruct (Set_inv c l key value ttl now Hinv) as (c' & l' & -> & Hinv' & Hcap' & _).
    by exists c', l'.
  - destruct (Delete_rep c l key Hrep) as (b & c' & l' & -> & Hrep' & Hcap' & Hsz).
    exists c', l'. split; [done|]. split; [split; [done|lia]|done].
  - unfold Cleanup.
    destruct (Cleanup_loop_rep now order 0 c l Hrep)
      as (n & c' & l' & -> & Hrep' & Hcap' & Hsz).
    exists c', l'. split; [done|]. split; [split; [done|lia]|done].
  - exists (Clear c), []. split; [done|]. split; [|done].
    split; [apply rep_Clear|]. simpl.
    pose proof (rep_size _ _ Hrep). lia.
Qed.

Lemma run_inv ops : forall c l,
  inv c l -> exists c' l', run ops c = Some c' /\ inv c' l' /\
                           capacity c' = capacity c.
Proof.
  induction ops as [|o ops IH]; intros c l Hinv; simpl.
  - by exists c, l.
  - destruct (apply_op_inv o c l Hinv) as (c1 & l1 & -> & Hinv1 & Hcap1). simpl.
    destruct (IH c1 l1 Hinv1) as (c' & l' & E & Hinv' & Hcap').
    exists c', l'. split; [done|]. split; [done|congruence].
Qed.

Lemma inv_NewCache cap : 0 <= cap -> inv (NewCache cap) [].
Proof. intros Hcap. split; [apply rep_NewCache|done]. Qed.

(** Every state a sequence of operations leads to satisfies the invariant. *)
Lemma reachable_inv cap ops c :
  0 <= cap -> run ops (NewCache cap) = Some c ->
  exists l, inv c l /\ capacity c = cap.
Proof.
  intros Hcap Hrun.
  destruct (run_inv ops _ _ (inv_NewCache cap Hcap)) as (c' & l' & E & Hinv & Hc).
  rewrite Hrun in E. injection E as <-. by exists l'.
Qed.
End cache_observe.

(** ** The cache: a run of inserts *)

Section cache_inserts.
Import Cache.
Implicit Types (l : list loc) (c : Cache) (ks K R : list string).

(** Putting a new key first and cutting to the capacity, on a list that
    already starts with the keys inserted so far. *)
Lemma insert_first_prefix (n : nat) (A R : list string) (k : string) :
  k ∉ A ->
  exists R',
    take n (k :: filter (fun k' => k' <> k) (take n (A ++ R)))
    = take n (k :: A ++ R').
Proof.
  intros Hk. rewrite take_app, filter_app.
  rewrite (filter_ne_absent (take n A))
    by (intros Hin; apply Hk; eapply subseteq_take, Hin).
  set (F := filter (fun k' => k' <> k) (take (n - length A) R)).
  exists F. destruct n as [|n]; [done|]. simpl. f_equal.
  destruct (decide (length A <= n)%nat) as [Hle|Hgt].
  - by rewrite (take_ge A (S n)) by lia.
  - rewrite !take_app_le; [|lia|rewrite length_take; lia].
    rewrite take_take. f_equal. lia.
Qed.

(** After a run of [Set]s on distinct keys the recency list starts with
    those keys, last inserted first. *)
Lemma run_sets_keys ops : forall c l ks R,
  inv c l -> Forall (fun o => is_Some (set_key o)) ops ->
  NoDup (ks ++ omap set_key ops) ->
  keys_of (heap c) l = take (Z.to_nat (capacity c)) (rev ks ++ R) ->
  exists c' l' R',
    run ops c = Some c' /\ inv c' l' /\ capacity c' = capacity c /\
    keys_of (heap c') l'
    = take (Z.to_nat (capacity c)) (rev (ks ++ omap set_key ops) ++ R').
Proof.
  induction ops as [|o ops IH]; intros c l ks R Hinv Hsets Hnd HK; simpl.
  - exists c, l, R. by rewrite app_nil_r.
  - apply Forall_cons in Hsets as [[k Hk] Hsets].
    destruct o as [|key value ttl now| | |]; simpl in Hk; try done.
    injection Hk as ->. simpl in *.
    destruct (Set_inv c l k value ttl now Hinv)
      as (c1 & l1 & -> & Hinv1 & Hcap1 & HK1).
    simpl. rewrite HK in HK1.
    assert (Hk : k ∉ rev ks).
    { apply NoDup_app in Hnd as (_ & Hdisj & _). intros Hin.
      apply list_elem_of_In, in_rev, list_elem_of_In in Hin.
      apply (Hdisj k Hin). by left. }
    destruct (insert_first_prefix (Z.to_nat (capacity c)) (rev ks) R k Hk)
      as [R' HR'].
    rewrite HR' in HK1.
    destruct (IH c1 l1 (ks ++ [k]) R' Hinv1 Hsets) as (c' & l' & R'' & E & Hinv' & Hcap' & HK').
    + by rewrite <- app_assoc.
    + by rewrite Hcap1, rev_app_distr.
    + exists c', l', R''. split; [done|]. split; [done|]. split; [congruence|].
      by rewrite Hcap1, <- app_assoc in HK'.
Qed.
End cache_inserts.

(** ** The claims about the cache *)

Section cache_theorems.
Import Cache.
Local Open Scope string_scope.

(** C6.  For every capacity [cap >= 1] and every sequence of public
    operations run on [NewCache cap], after each operation (that is,
    after every prefix of the sequence) the walk from [head] along
    [Next] and the walk from [tail] along [Prev] both end, and [size]
    equals the number of entries each of them meets and the number of
    keys of the index, and does not exceed the capacity. *)
Theorem cache_consistent_after_each_operation (cap : Z) (ops : list op) (n : nat) :
  1 <= cap ->
  exists c, run (take n ops) (NewCache cap) = Some c /\
            consistent c /\ capacity c = cap.
Proof.
  intros Hcap.
  destruct (run_inv (take n ops) _ _ (inv_NewCache cap ltac:(lia)))
    as (c & l & E & Hinv & Hc).
  exists c. split; [done|]. split; [by eapply inv_consistent|done].
Qed.

Lemma cache_consistent_after_each_operation_witness :
  1 <= 3 /\
  exists c, run (take 4 lru_scenario) (NewCache 3) = Some c /\
            consistent c /\ capacity c = 3.
Proof.
  split; [lia|]. apply cache_consistent_after_each_operation. lia.
Defined.

(** C7.  In every state [c] that public operations lead to, [Get key]
    at the instant [now]: returns found = false and leaves the cache as
    it is when the index has no entry for [key]; when the entry is
    expired (its expiry is not the zero instant and lies before [now])
    returns found = false from a cache that no longer holds the key,
    the entry being gone from the recency list; otherwise returns the
    stored value with found = true from a cache whose recency list has
    the entry first and the others in their old order. *)
Theorem Get_spec (cap : Z) (ops : list op) (c : Cache) (key : string) (now : Z) :
  0 <= cap -> run ops (NewCache cap) = Some c ->
  exists l, from_head c = Some l /\
    match entries c !! key with
    | None => Get key now c = Some ([], false, c)
    | Some p =>
        exists e, heap c !! p = Some e /\ Key e = key /\
          if decide (ExpiresAt e <> 0 /\ ExpiresAt e < now) then
            exists c', Get key now c = Some ([], false, c') /\
                       entries c' !! key = None /\
                       from_head c' = Some (filter (fun q => q <> p) l)
          else
            exists c', Get key now c = Some (Value e, true, c') /\
                       head c' = Some p /\
                       from_head c' = Some (p :: filter (fun q => q <> p) l)
    end.
Proof.
  intros Hcap Hrun.
  destruct (reachable_inv cap ops c Hcap Hrun) as (l & [Hrep _] & _).
  exists l. split; [by apply from_head_rep|].
  pose proof (Get_rep c l key now Hrep) as HG.
  destruct (entries c !! key) as [p|]; [|done].
  destruct HG as (e & He & Hkey & HG). exists e. split; [done|]. split; [done|].
  pose proof (expired_iff now e) as Hexp.
  destruct (expired now e); case_decide as Hd.
  - destruct HG as (c' & E & Hrep' & Hnone & _).
    exists c'. split; [done|]. split; [done|]. by apply from_head_rep.
  - exfalso. apply Hd. by apply Hexp.
  - exfalso. apply Hexp in Hd. done.
  - destruct HG as (c' & E & Hrep' & _).
    exists c'. split; [done|]. split; [by rewrite (rep_head _ _ Hrep')|].
    by apply from_head_rep.
Qed.

Lemma Get_spec_witness :
  0 <= 3 /\ run lru_scenario (NewCache 3) = Some lru_state /\
  exists l, from_head lru_state = Some l /\
    match entries lru_state !! "k3" with
    | None => Get "k3" 60 lru_state = Some ([], false, lru_state)
    | Some p =>
        exists e, heap lru_state !! p = Some e /\ Key e = "k3" /\
          if decide (ExpiresAt e <> 0 /\ ExpiresAt e < 60) then
            exists c', Get "k3" 60 lru_state = Some ([], false, c') /\
                       entries c' !! "k3" = None /\
                       from_head c' = Some (filter (fun q => q <> p) l)
          else
            exists c', Get "k3" 60 lru_state = Some (Value e, true, c') /\
                       head c' = Some p /\
                       from_head c' = Some (p :: filter (fun q => q <> p) l)
    end.
Proof.
  split; [lia|]. split; [by vm_compute|].
  apply (Get_spec 3 lru_scenario); [lia|by vm_compute].
Defined.

(** C8.  Start from any state [c0] that public operations lead to on a
    cache of capacity [cap >= 1] and run [Set]s only, on pairwise
    distinct keys and more of them than [cap] (whatever the values and
    time-to-live arguments: no [Get] or [Cleanup] intervenes, so no
    expiry is looked at).  Then the keys in the cache are exactly the
    last [cap] keys inserted, the latest first in the recency list. *)
Theorem Set_keeps_last_inserted (cap : Z) (ops0 : list op) (c0 : Cache)
    (sets : list op) :
  1 <= cap -> run ops0 (NewCache cap) = Some c0 ->
  Forall (fun o => is_Some (set_key o)) sets ->
  NoDup (omap set_key sets) ->
  cap < Z.of_nat (length sets) ->
  let last_keys := drop (length sets - Z.to_nat cap) (omap set_key sets) in
  exists c l,
    run sets c0 = Some c /\ from_head c = Some l /\
    keys_of (heap c) l = rev last_keys /\
    forall k, is_Some (entries c !! k) <-> k ∈ last_keys.
Proof.
  intros Hcap Hrun Hsets Hnd Hlen last_keys.
  destruct (reachable_inv cap ops0 c0 ltac:(lia) Hrun) as (l0 & Hinv0 & Hc0).
  assert (Hlenk : length (omap set_key sets) = length sets).
  { clear -Hsets. induction Hsets as [|o ops [k Hk] _ IH]; [done|].
    change (omap set_key (o :: ops))
      with (match set_key o with
            | Some y => y :: omap set_key ops
            | None => omap set_key ops
            end).
    rewrite Hk. simpl length. by rewrite IH. }
  destruct (run_sets_keys sets c0 l0 [] (keys_of (heap c0) l0) Hinv0 Hsets)
    as (c & l & R & E & Hinv & Hc & HK); [done| |].
  { simpl. rewrite take_ge; [done|].
    destruct Hinv0 as [Hrep0 Hle0].
    rewrite (keys_of_length _ _ _ _ (rep_dseg _ _ Hrep0)).
    pose proof (rep_size _ _ Hrep0). lia. }
  simpl in HK. rewrite Hc0 in HK.
  rewrite take_app_le in HK by (rewrite length_rev, Hlenk; lia).
  rewrite firstn_rev, Hlenk in HK. fold last_keys in HK.
  destruct Hinv as [Hrep _].
  exists c, l. split; [done|]. split; [by apply from_head_rep|]. split; [done|].
  intros k. rewrite <- (elem_of_keys_of c l k Hrep), HK.
  rewrite !list_elem_of_In. symmetry. apply in_rev.
Qed.

Lemma Set_keeps_last_inserted_witness :
  1 <= 3 /\ run [] (NewCache 3) = Some (NewCache 3) /\
  Forall (fun o => is_Some (set_key o)) four_inserts /\
  NoDup (omap set_key four_inserts) /\
  3 < Z.of_nat (length four_inserts) /\
  exists c l,
    run four_inserts (NewCache 3) = Some c /\ from_head c = Some l /\
    keys_of (heap c) l = ["key4"; "key3"; "key2"] /\
    forall k, is_Some (entries c !! k) <-> k ∈ ["key2"; "key3"; "key4"].
Proof.
  assert (F : Forall (fun o => is_Some (set_key o)) four_inserts)
    by (repeat constructor; by eexists).
  assert (N : NoDup (omap set_key four_inserts))
    by (apply (bool_decide_unpack _); by vm_compute).
  split; [lia|]. split; [done|]. split; [exact F|]. split; [exact N|].
  split; [by vm_compute|].
  apply (Set_keeps_last_inserted 3 [] (NewCache 3) four_inserts);
    [lia|done|exact F|exact N|by vm_compute].
Defined.
End cache_theorems.

(** * Further properties *)

(** ** The cache as a recency-ordered list of stored triples *)

Section cache_contents.
Import Cache.
Implicit Types (h : gmap loc Entry) (l : list loc) (p q : loc)
               (e : Entry) (c : Cache) (key : string)
               (V : list (string * list byte * Z)).

Lemma payloads_of_unfold h p l :
  payloads_of h (p :: l)
  = match payload <$> h !! p with
    | Some x => x :: payloads_of h l
    | None => payloads_of h l
    end.
Proof. reflexivity. Qed.

Lemma payloads_of_cons h p l e :
  h !! p = Some e -> payloads_of h (p :: l) = payload e :: payloads_of h l.
Proof. intros He. by rewrite payloads_of_unfold, He. Qed.

Lemma payloads_of_app h l1 l2 :
  payloads_of h (l1 ++ l2) = payloads_of h l1 ++ payloads_of h l2.
Proof. apply omap_app. Qed.

Lemma payloads_of_ext h h' l :
  (forall q, q ∈ l -> payload <$> h' !! q = payload <$> h !! q) ->
  payloads_of h' l = payloads_of h l.
Proof.
  induction l as [|p l IH]; intros H; [done|].
  rewrite !payloads_of_unfold, (H p) by by left.
  rewrite IH; [done|]. intros q Hq. apply H. by right.
Qed.

Lemma payloads_of_same_payload h h' l :
  same_payload h h' -> payloads_of h' l = payloads_of h l.
Proof. intros Hpl. apply payloads_of_ext. intros q _. apply Hpl. Qed.

Lemma keys_of_payloads h l : keys_of h l = map pkey (payloads_of h l).
Proof.
  induction l as [|p l IH]; [done|].
  rewrite keys_of_unfold, payloads_of_unfold.
  destruct (h !! p) as [e|]; simpl; by rewrite IH.
Qed.

Lemma payloads_of_length h prev l next :
  dseg h prev l next -> length (payloads_of h l) = length l.
Proof.
  intros Hd. rewrite <- (keys_of_length _ _ _ _ Hd), keys_of_payloads.
  by rewrite length_map.
Qed.

Lemma contents_rep c l : rep c l -> contents c = Some (payloads_of (heap c) l).
Proof. intros Hrep. unfold contents. by rewrite (from_head_rep _ _ Hrep). Qed.

(** Looking a key up in a list of triples. *)
Lemma lookup_key_absent key V :
  key ∉ map pkey V ->
  lookup_key key V = None /\ filter (fun x => pkey x <> key) V = V.
Proof.
  induction V as [|x V IH]; intros Hk; [done|].
  simpl in Hk. apply not_elem_of_cons in Hk as [Hx Hk].
  destruct (IH Hk) as [IH1 IH2]. split.
  - unfold lookup_key in *. simpl.
    destruct (String.eqb_spec (pkey x) key) as [E|_]; [by subst|done].
  - rewrite filter_cons_True by (intros E; by subst). by rewrite IH2.
Qed.

Lemma lookup_key_present key V1 x V2 :
  pkey x = key -> key ∉ map pkey V1 -> key ∉ map pkey V2 ->
  lookup_key key (V1 ++ x :: V2) = Some x /\
  filter (fun y => pkey y <> key) (V1 ++ x :: V2) = V1 ++ V2.
Proof.
  intros Hx H1 H2. destruct (lookup_key_absent key V2 H2) as [_ F2]. split.
  - clear F2 H2. induction V1 as [|y V1 IH]; simpl.
    + unfold lookup_key. simpl. by rewrite (proj2 (String.eqb_eq _ _) Hx).
    + simpl in H1. apply not_elem_of_cons in H1 as [Hy H1].
      unfold lookup_key in *. simpl.
      destruct (String.eqb_spec (pkey y) key) as [E|_]; [by subst|by apply IH].
  - rewrite filter_app, filter_cons_False by (intros H; by apply H).
    by rewrite (proj2 (lookup_key_absent key V1 H1)), F2.
Qed.

Lemma lookup_key_Some key V x :
  lookup_key key V = Some x -> x ∈ V /\ pkey x = key.
Proof.
  unfold lookup_key. intros H. apply find_some in H as [Hin Heq].
  split; [by apply list_elem_of_In|by apply String.eqb_eq].
Qed.

(** How the index and the list of triples agree. *)
Lemma rep_lookup_key c l key :
  rep c l ->
  match entries c !! key with
  | None =>
      lookup_key key (payloads_of (heap c) l) = None /\
      filter (fun x => pkey x <> key) (payloads_of (heap c) l)
      = payloads_of (heap c) l
  | Some p =>
      exists l1 l2 e,
        l = l1 ++ p :: l2 /\ heap c !! p = Some e /\ Key e = key /\
        lookup_key key (payloads_of (heap c) l) = Some (payload e) /\
        filter (fun x => pkey x <> key) (payloads_of (heap c) l)
        = payloads_of (heap c) l1 ++ payloads_of (heap c) l2
  end.
Proof.
  intros Hrep. destruct (entries c !! key) as [p|] eqn:Hk.
  - destruct (rep_lookup _ _ _ _ Hrep Hk) as (l1 & l2 & e & -> & He & Hkey).
    exists l1, l2, e. split; [done|]. split; [done|]. split; [done|].
    pose proof (keys_of_NoDup _ _ Hrep) as Hnd.
    rewrite keys_of_payloads, payloads_of_app, (payloads_of_cons _ _ _ _ He) in Hnd.
    rewrite payloads_of_app, (payloads_of_cons _ _ _ _ He).
    rewrite map_app in Hnd. simpl in Hnd.
    apply NoDup_app in Hnd as (_ & Hdisj & Hnd2).
    apply NoDup_cons in Hnd2 as [H2 _].
    assert (Hpk : pkey (payload e) = key) by done.
    rewrite Hpk in Hdisj, H2.
    apply lookup_key_present; [done| |done].
    intros Hin. apply (Hdisj _ Hin). by left.
  - apply lookup_key_absent. rewrite <- keys_of_payloads.
    rewrite (elem_of_keys_of _ _ _ Hrep), Hk. by intros [? ?].
Qed.
End cache_contents.

Section cache_contents_ops.
Import Cache.
Implicit Types (h : gmap loc Entry) (l : list loc) (p q : loc)
               (e : Entry) (c : Cache) (key : string)
               (V : list (string * list byte * Z)).

Lemma filter_ext_in {A} (P Q : A -> Prop) `{!forall x, Decision (P x)}
    `{!forall x, Decision (Q x)} (l : list A) :
  (forall x, x ∈ l -> P x <-> Q x) -> filter P l = filter Q l.
Proof.
  induction l as [|a l IH]; intros HPQ; [done|].
  rewrite !filter_cons.
  pose proof (HPQ a ltac:(by left)) as Ha.
  rewrite IH by (intros x Hx; apply HPQ; by right).
  destruct (decide (P a)), (decide (Q a)); tauto.
Qed.

(** [Get], on the contents. *)
Lemma Get_contents c l key now :
  rep c l ->
  match lookup_key key (payloads_of (heap c) l) with
  | None => Get key now c = Some ([], false, c)
  | Some x =>
      if stale now x then
        exists c' l', Get key now c = Some ([], false, c') /\ rep c' l' /\
          payloads_of (heap c') l'
          = filter (fun y => pkey y <> key) (payloads_of (heap c) l) /\
          capacity c' = capacity c /\ size c' = size c - 1
      else
        exists c' l', Get key now c = Some (pvalue x, true, c') /\ rep c' l' /\
          payloads_of (heap c') l'
          = x :: filter (fun y => pkey y <> key) (payloads_of (heap c) l) /\
          capacity c' = capacity c /\ size c' = size c
  end.
Proof.
  intros Hrep. pose proof (rep_lookup_key c l key Hrep) as HL.
  unfold Get. destruct (entries c !! key) as [p|] eqn:Hk.
  - destruct HL as (l1 & l2 & e & -> & He & Hkey & -> & ->).
    rewrite He. simpl.
    change (stale now (payload e)) with (expired now e).
    destruct (expired now e).
    + destruct (removeEntry_rep c l1 p l2 Hrep)
        as (c' & e' & E & He' & Hrep' & Hents & Hcap & Hpl).
      rewrite E. simpl. exists c', (l1 ++ l2). split; [done|]. split; [done|].
      split; [by rewrite (payloads_of_same_payload _ _ _ Hpl), payloads_of_app|].
      split; [done|].
      rewrite (rep_size _ _ Hrep'), (rep_size _ _ Hrep), !length_app. simpl. lia.
    + destruct (moveToFront_rep c l1 p l2 Hrep)
        as (c' & E & Hrep' & Hents & Hcap & Hsz & Hpl).
      rewrite E. simpl. pose proof (Hpl p) as Hp. rewrite He in Hp.
      destruct (heap c' !! p) as [e'|] eqn:He'; [|done]. simpl in *.
      assert (Value e' = Value e) as -> by (unfold payload in Hp; by simplify_eq).
      exists c', (p :: l1 ++ l2). split; [done|]. split; [done|].
      split; [|done].
      rewrite (payloads_of_same_payload _ _ _ Hpl).
      by rewrite (payloads_of_cons _ _ _ _ He), payloads_of_app.
  - destruct HL as [-> _]. done.
Qed.

(** [Delete], on the contents. *)
Lemma Delete_contents c l key :
  rep c l ->
  exists c' l',
    Delete key c
    = Some (match lookup_key key (payloads_of (heap c) l) with
            | Some _ => true
            | None => false
            end, c') /\
    rep c' l' /\
    payloads_of (heap c') l'
    = filter (fun y => pkey y <> key) (payloads_of (heap c) l) /\
    capacity c' = capacity c /\
    (lookup_key key (payloads_of (heap c) l) = None -> c' = c).
Proof.
  intros Hrep. pose proof (rep_lookup_key c l key Hrep) as HL.
  unfold Delete. destruct (entries c !! key) as [p|] eqn:Hk.
  - destruct HL as (l1 & l2 & e & -> & He & Hkey & -> & ->).
    destruct (removeEntry_rep c l1 p l2 Hrep)
      as (c' & e' & E & He' & Hrep' & Hents & Hcap & Hpl).
    rewrite E. simpl. exists c', (l1 ++ l2). split; [done|]. split; [done|].
    split; [by rewrite (payloads_of_same_payload _ _ _ Hpl), payloads_of_app|].
    split; [done|]. done.
  - destruct HL as [-> ->]. by exists c, l.
Qed.

(** One more key for the loop of [Cleanup] to visit, when no stale triple
    has it. *)
Lemma cleanup_visit_fresh now key order V :
  (forall x, x ∈ V -> pkey x = key -> stale now x = false) ->
  filter (fun x => stale now x = true /\ pkey x ∈ key :: order) V
  = filter (fun x => stale now x = true /\ pkey x ∈ order) V /\
  filter (fun x => ~ (stale now x = true /\ pkey x ∈ key :: order)) V
  = filter (fun x => ~ (stale now x = true /\ pkey x ∈ order)) V.
Proof.
  intros HV.
  assert (E : forall x, x ∈ V ->
            (stale now x = true /\ pkey x ∈ key :: order)
            <-> (stale now x = true /\ pkey x ∈ order)).
  { intros x Hx. rewrite elem_of_cons. split; [|tauto].
    intros [Hst [Hk|Ho]]; [|done]. rewrite (HV x Hx Hk) in Hst. done. }
  split; apply filter_ext_in; intros x Hx; rewrite (E x Hx); tauto.
Qed.

(** One more key for the loop to visit, when the triple that has it is
    stale. *)
Lemma cleanup_visit_stale now key order V1 x0 V2 :
  pkey x0 = key -> stale now x0 = true ->
  key ∉ map pkey V1 -> key ∉ map pkey V2 ->
  length (filter (fun x => stale now x = true /\ pkey x ∈ key :: order)
                 (V1 ++ x0 :: V2))
  = S (length (filter (fun x => stale now x = true /\ pkey x ∈ order) (V1 ++ V2))) /\
  filter (fun x => ~ (stale now x = true /\ pkey x ∈ key :: order)) (V1 ++ x0 :: V2)
  = filter (fun x => ~ (stale now x = true /\ pkey x ∈ order)) (V1 ++ V2).
Proof.
  intros Hk Hst H1 H2.
  assert (A : forall V, key ∉ map pkey V ->
            forall x, x ∈ V -> pkey x = key -> stale now x = false).
  { intros V HV x Hx E. exfalso. apply HV. rewrite <- E.
    by apply (list_elem_of_fmap_2 pkey). }
  destruct (cleanup_visit_fresh now key order V1 (A V1 H1)) as [E1 F1].
  destruct (cleanup_visit_fresh now key order V2 (A V2 H2)) as [E2 F2].
  rewrite !filter_app, !filter_cons, E1, E2, F1, F2.
  rewrite decide_True by (split; [done|rewrite Hk; by left]).
  rewrite decide_False by (intros H; apply H; split; [done|rewrite Hk; by left]).
  split; [|done]. rewrite !length_app. simpl. lia.
Qed.

(** [Cleanup], on the contents: the loop removes the stale triples whose
    key it visits, and counts them. *)
Lemma Cleanup_loop_contents now order : forall removed c l,
  rep c l ->
  exists c' l',
    Cleanup_loop now order removed c
    = Some (removed
            + Z.of_nat (length (filter (fun x => stale now x = true /\ pkey x ∈ order)
                                       (payloads_of (heap c) l))), c') /\
    rep c' l' /\
    payloads_of (heap c') l'
    = filter (fun x => ~ (stale now x = true /\ pkey x ∈ order))
             (payloads_of (heap c) l) /\
    capacity c' = capacity c.
Proof.
  induction order as [|key order IH]; intros removed c l Hrep; simpl.
  - exists c, l.
    rewrite (filter_ext_in _ (fun _ => False))
      by (intros x _; rewrite elem_of_nil; tauto).
    rewrite (filter_ext_in (fun x => ~ _) (fun _ => True))
      by (intros x _; rewrite elem_of_nil; tauto).
    assert (F : forall V, filter (fun _ : string * list byte * Z => False) V = []
                          /\ filter (fun _ : string * list byte * Z => True) V = V).
    { induction V as [|x V [IH1 IH2]]; [done|].
      by rewrite filter_cons_False, filter_cons_True, IH1, IH2 by tauto. }
    destruct (F (payloads_of (heap c) l)) as [-> ->]. simpl.
    rewrite Z.add_0_r. done.
  - pose proof (rep_lookup_key c l key Hrep) as HL.
    destruct (entries c !! key) as [p|] eqn:Hk.
    + destruct HL as (l1 & l2 & e & -> & He & Hkey & Hfind & Hfilter).
      rewrite He. simpl.
      pose proof (keys_of_NoDup _ _ Hrep) as Hnd.
      rewrite keys_of_payloads, payloads_of_app, (payloads_of_cons _ _ _ _ He),
        map_app in Hnd. simpl in Hnd.
      apply NoDup_app in Hnd as (_ & Hdisj & Hnd2).
      apply NoDup_cons in Hnd2 as [H2 _].
      assert (Hpk : pkey (payload e) = key) by done. rewrite Hpk in Hdisj, H2.
      assert (H1 : key ∉ map pkey (payloads_of (heap c) l1)).
      { intros Hin. apply (Hdisj _ Hin). by left. }
      rewrite payloads_of_app, (payloads_of_cons _ _ _ _ He).
      change (expired now e) with (stale now (payload e)).
      destruct (stale now (payload e)) eqn:Hst.
      * destruct (removeEntry_rep c l1 p l2 Hrep)
          as (c1 & e' & E & He' & Hrep1 & Hents & Hcap & Hpl).
        rewrite E. simpl.
        destruct (IH (removed + 1) c1 _ Hrep1) as (c' & l' & E' & Hrep' & HV' & Hcap').
        rewrite (payloads_of_same_payload _ _ _ Hpl), payloads_of_app in E', HV'.
        destruct (cleanup_visit_stale now key order _ _ _ Hpk Hst H1 H2) as [EL EF].
        exists c', l'. rewrite E', EL, EF.
        split; [|split; [done|split; [done|congruence]]].
        do 2 f_equal. lia.
      * destruct (IH removed c _ Hrep) as (c' & l' & E' & Hrep' & HV' & Hcap').
        rewrite payloads_of_app, (payloads_of_cons _ _ _ _ He) in E', HV'.
        destruct (cleanup_visit_fresh now key order
                    (payloads_of (heap c) l1 ++ payload e :: payloads_of (heap c) l2))
          as [EL EF].
        { intros x Hx Ex. apply elem_of_app in Hx as [Hx|Hx].
          - exfalso. apply H1. rewrite <- Ex. by apply (list_elem_of_fmap_2 pkey).
          - apply elem_of_cons in Hx as [->|Hx]; [done|].
            exfalso. apply H2. rewrite <- Ex. by apply (list_elem_of_fmap_2 pkey). }
        exists c', l'. by rewrite E', EL, EF.
    + destruct HL as [Hfind Hfilter].
      assert (Habs : key ∉ map pkey (payloads_of (heap c) l)).
      { rewrite <- keys_of_payloads, (elem_of_keys_of _ _ _ Hrep), Hk. by intros [? ?]. }
      destruct (cleanup_visit_fresh now key order (payloads_of (heap c) l))
        as [EL EF].
      { intros x Hx Ex. exfalso. apply Habs. rewrite <- Ex.
        by apply (list_elem_of_fmap_2 pkey). }
      rewrite EL, EF. by apply IH.
Qed.
End cache_contents_ops.

Section cache_contents_set.
Import Cache.
Implicit Types (h : gmap loc Entry) (l : list loc) (p q : loc)
               (e : Entry) (c : Cache) (key : string)
               (V : list (string * list byte * Z)).

(** [Set], on the contents: the new triple goes first, an older triple of
    the same key goes away, and the list is cut to the capacity (to nothing
    when the capacity is not positive). *)
Lemma Set_contents c l key value ttl now :
  rep c l -> size c <= Z.max 0 (capacity c) ->
  exists c' l', Set_ key value ttl now c = Some c' /\ rep c' l' /\
    size c' <= Z.max 0 (capacity c') /\ capacity c' = capacity c /\
    payloads_of (heap c') l'
    = take (Z.to_nat (capacity c))
           ((key, value, expiry_of ttl now)
              :: filter (fun y => pkey y <> key) (payloads_of (heap c) l)).
Proof.
  intros Hrep Hcap. pose proof (rep_lookup_key c l key Hrep) as HL.
  unfold Set_, expiry_of. set (expiry := if ttl >? 0 then now + ttl else 0).
  destruct (entries c !! key) as [p|] eqn:Hk.
  - destruct HL as (l1 & l2 & e & -> & He & Hkey & _ & ->).
    rewrite He. simpl.
    set (h := <[p := mkEntry (Key e) value expiry (Prev e) (Next e)]> (heap c)).
    assert (Hkeys : forall q, Key <$> h !! q = Key <$> heap c !! q).
    { intros q. unfold h. destruct (decide (p = q)) as [->|].
      - by rewrite lookup_insert_eq, He.
      - by rewrite lookup_insert_ne. }
    pose proof Hrep as [Hd Hnd Hhd Htl Hsz Hidx].
    assert (Hrep1 : rep (with_heap c h) (l1 ++ p :: l2)).
    { split; simpl; try done.
      - by apply dseg_update_payload.
      - eapply index_ok_rearrange; [exact Hidx|done|exact Hkeys]. }
    destruct (moveToFront_rep _ l1 p l2 Hrep1)
      as (c' & E & Hrep' & Hents & Hcap' & Hsz' & Hpl).
    rewrite E. exists c', (p :: l1 ++ l2). split; [done|].
    split; [done|]. split; [simpl in *; lia|]. split; [done|].
    rewrite (payloads_of_same_payload _ _ _ Hpl). simpl heap.
    destruct (NoDup_unlink _ _ _ Hnd) as [_ Hp].
    assert (Hp' : h !! p = Some (mkEntry (Key e) value expiry (Prev e) (Next e)))
      by apply lookup_insert_eq.
    rewrite (payloads_of_cons _ _ _ _ Hp').
    rewrite (payloads_of_ext (heap c) h (l1 ++ l2)).
    2:{ intros q Hq. unfold h. rewrite lookup_insert_ne; [done|]. by intros ->. }
    rewrite payloads_of_app. unfold payload at 1. simpl. rewrite Hkey.
    rewrite take_ge; [done|].
    pose proof (payloads_of_length _ _ _ _ Hd) as HlenV.
    rewrite payloads_of_app, (payloads_of_cons _ _ _ _ He), !length_app in HlenV.
    rewrite length_app in Hsz. simpl length in *. rewrite length_app. lia.
  - destruct HL as [_ ->].
    set (entry := fresh (dom (heap c))).
    set (newE := mkEntry key value expiry None None).
    set (h1 := <[entry := newE]> (heap c)).
    assert (Hfresh : heap c !! entry = None) by apply not_elem_of_dom, is_fresh.
    assert (Hnotin : entry ∉ l).
    { intros Hin.
      destruct (dseg_lookup _ _ _ _ _ (rep_dseg _ _ Hrep) Hin) as [? ?]. congruence. }
    assert (Hframe : forall q, q ∈ l -> h1 !! q = heap c !! q).
    { intros q Hq. apply lookup_insert_ne. by intros ->. }
    pose proof Hrep as [Hd Hnd Hhd Htl Hsz Hidx].
    destruct (addToFront_list
                (mkCache (<[key := entry]> (entries c)) (head c) (tail c)
                         (capacity c) (size c) h1) l entry newE)
      as (h' & E & Hd' & Hpl); simpl; try done.
    { by eapply dseg_frame. }
    { apply lookup_insert_eq. }
    rewrite E. simpl. clear E. simpl in Hpl.
    assert (He' : exists e', h' !! entry = Some e' /\ payload e' = (key, value, expiry)).
    { pose proof (Hpl entry) as HK. unfold h1 in HK.
      rewrite lookup_insert_eq in HK. destruct (h' !! entry) as [e'|]; [|done].
      exists e'. split; [done|]. simpl in HK. by injection HK as <- <- <-. }
    destruct He' as (e' & He' & Hpay').
    assert (Hpays : forall q, q ∈ l -> payload <$> h' !! q = payload <$> heap c !! q).
    { intros q Hq. by rewrite (Hpl q), Hframe. }
    assert (Hkeys : forall q, q ∈ l -> Key <$> h' !! q = Key <$> heap c !! q).
    { intros q Hq. rewrite (same_payload_Key _ _ q Hpl). by rewrite Hframe. }
    assert (Hkey' : Key e' = key) by (unfold payload in Hpay'; by simplify_eq).
    set (c3 := mkCache (<[key := entry]> (entries c)) (Some entry)
                       (last (entry :: l)) (capacity c) (size c + 1) h').
    assert (Hrep3 : rep c3 (entry :: l)).
    { split; simpl; try done.
      - by constructor.
      - rewrite Hsz. lia.
      - intros k q. rewrite lookup_insert. case_decide as Hkk.
        + subst k. split.
          * intros [= <-]. split; [by left|rewrite He'; simpl; by rewrite Hkey'].
          * intros [[->|Hq]%elem_of_cons Hkq]; [done|]. exfalso.
            rewrite Hkeys in Hkq by done.
            assert (entries c !! key = Some q) by by apply Hidx. congruence.
        + rewrite (Hidx k q). split.
          * intros [Hq Hkq]. split; [by right|by rewrite Hkeys].
          * intros [[->|Hq]%elem_of_cons Hkq].
            -- rewrite He' in Hkq. simpl in Hkq. congruence.
            -- split; [done|by rewrite <- Hkeys]. }
    assert (HV3 : payloads_of h' (entry :: l)
                  = (key, value, expiry) :: payloads_of (heap c) l).
    { rewrite (payloads_of_cons _ _ _ _ He'), Hpay'. f_equal.
      by apply payloads_of_ext. }
    pose proof (payloads_of_length _ _ _ _ Hd) as HlenV.
    fold c3. change (size c + 1) with (size c3).
    change (capacity c) with (capacity c3) at 1.
    destruct (Z.gtb_spec (size c3) (capacity c3)) as [Hgt|Hle];
      [simpl in Hgt|simpl in Hle].
    + unfold evictLRU. simpl tail.
      destruct (last (entry :: l)) as [t|] eqn:Et; [|by apply last_None in Et].
      apply last_Some in Et as [l0 El0].
      rewrite El0 in Hrep3, HV3.
      destruct (removeEntry_rep c3 l0 t [] Hrep3)
        as (c' & et & E & Het & Hrep' & Hents & Hcap' & Hpl').
      rewrite app_nil_r in Hrep'.
      rewrite E. exists c', l0. split; [done|].
      assert (Hl0 : length l0 = length l).
      { apply (f_equal length) in El0. rewrite length_app in El0. simpl in El0. lia. }
      split; [done|]. split.
      { rewrite (rep_size _ _ Hrep'), Hcap'. simpl. lia. }
      split; [done|].
      rewrite (payloads_of_same_payload _ _ _ Hpl'). simpl heap.
      rewrite payloads_of_app in HV3. rewrite <- HV3.
      rewrite take_app_length'; [done|].
      assert (length (payloads_of h' l0) = length l0) as ->.
      { apply (payloads_of_length _ None _ (Some t)).
        pose proof (rep_dseg _ _ Hrep3) as Hd3. simpl in Hd3.
        apply dseg_app in Hd3 as [Hd3 _]. exact Hd3. }
      lia.
    + exists c3, (entry :: l). split; [done|]. split; [done|].
      split; [simpl; lia|]. split; [done|]. simpl heap. rewrite HV3.
      rewrite take_ge; [done|]. simpl. lia.
Qed.
End cache_contents_set.

Section cache_reachable.
Import Cache.
Implicit Types (h : gmap loc Entry) (l : list loc) (p q : loc)
               (e : Entry) (c : Cache) (key : string)
               (V : list (string * list byte * Z)).

Lemma rep_size_payloads c l :
  rep c l -> size c = Z.of_nat (length (payloads_of (heap c) l)).
Proof.
  intros Hrep.
  by rewrite (payloads_of_length _ _ _ _ (rep_dseg _ _ Hrep)), (rep_size _ _ Hrep).
Qed.

Lemma rep_payloads_NoDup c l : rep c l -> NoDup (map pkey (payloads_of (heap c) l)).
Proof. intros Hrep. rewrite <- keys_of_payloads. by apply keys_of_NoDup. Qed.

Lemma rep_payloads_index c l key :
  rep c l -> is_Some (entries c !! key) <-> key ∈ map pkey (payloads_of (heap c) l).
Proof. intros Hrep. rewrite <- keys_of_payloads. symmetry. by apply elem_of_keys_of. Qed.

Lemma lookup_key_None key V : lookup_key key V = None <-> key ∉ map pkey V.
Proof.
  unfold lookup_key. induction V as [|x V IH]; simpl.
  - split; [intros _; apply not_elem_of_nil|done].
  - rewrite not_elem_of_cons. destruct (String.eqb_spec (pkey x) key) as [E|E].
    + split; [done|]. intros [H _]. by destruct H.
    + rewrite IH. split; [by intros ?; split|by intros [_ ?]].
Qed.

Lemma lookup_key_head key x V : pkey x = key -> lookup_key key (x :: V) = Some x.
Proof. intros <-. unfold lookup_key. simpl. by rewrite String.eqb_refl. Qed.

Lemma filter_id {A} (P : A -> Prop) `{!forall x, Decision (P x)} (l : list A) :
  Forall P l -> filter P l = l.
Proof.
  induction 1 as [|x l Hx _ IH]; [done|].
  rewrite filter_cons, decide_True by done. by rewrite IH.
Qed.

Lemma Forall_filter_ne key V :
  Forall (fun y => pkey y <> key) (filter (fun y => pkey y <> key) V).
Proof. apply Forall_forall. by intros y [? _]%list_elem_of_filter. Qed.

(** Every public operation returns, whatever the capacity, and what it
    leaves in the cache depends on what was in it only: not on the
    addresses of the entries, nor on what else the heap holds. *)
Lemma apply_op_payloads o cap :
  exists F : list (string * list byte * Z) -> list (string * list byte * Z),
  forall c l, rep c l -> size c <= Z.max 0 (capacity c) -> capacity c = cap ->
    exists c' l', apply_op o c = Some c' /\ rep c' l' /\
      size c' <= Z.max 0 (capacity c') /\ capacity c' = cap /\
      payloads_of (heap c') l' = F (payloads_of (heap c) l).
Proof.
  destruct o as [key now|key value ttl now|key|now order|].
  - exists (fun V => match lookup_key key V with
                     | None => V
                     | Some x => if stale now x
                                 then filter (fun y => pkey y <> key) V
                                 else x :: filter (fun y => pkey y <> key) V
                     end).
    intros c l Hrep Hsz Hcap. simpl.
    pose proof (Get_contents c l key now Hrep) as HG.
    destruct (lookup_key key (payloads_of (heap c) l)) as [x|].
    + destruct (stale now x);
        destruct HG as (c' & l' & -> & Hrep' & HV & Hcap' & Hsz');
        exists c', l'; simpl; (split; [done|]); (split; [done|]);
        (split; [lia|]); (split; [congruence|done]).
    + rewrite HG. simpl. by exists c, l.
  - exists (fun V => take (Z.to_nat cap)
                          ((key, value, expiry_of ttl now)
                             :: filter (fun y => pkey y <> key) V)).
    intros c l Hrep Hsz Hcap. simpl.
    destruct (Set_contents c l key value ttl now Hrep Hsz)
      as (c' & l' & E & Hrep' & Hsz' & Hcap' & HV).
    exists c', l'. split; [done|]. split; [done|]. split; [done|].
    split; [congruence|]. by rewrite HV, Hcap.
  - exists (fun V => filter (fun y => pkey y <> key) V).
    intros c l Hrep Hsz Hcap. simpl.
    destruct (Delete_contents c l key Hrep) as (c' & l' & -> & Hrep' & HV & Hcap' & _).
    exists c', l'. simpl. split; [done|]. split; [done|].
    split; [|split; [congruence|done]].
    rewrite (rep_size_payloads _ _ Hrep'), HV, Hcap'.
    rewrite (rep_size_payloads _ _ Hrep) in Hsz.
    pose proof (length_filter (fun y => pkey y <> key) (payloads_of (heap c) l)). lia.
  - exists (fun V => filter (fun x => ~ (stale now x = true /\ pkey x ∈ order)) V).
    intros c l Hrep Hsz Hcap. simpl. unfold Cleanup.
    destruct (Cleanup_loop_contents now order 0 c l Hrep)
      as (c' & l' & -> & Hrep' & HV & Hcap').
    exists c', l'. simpl. split; [done|]. split; [done|].
    split; [|split; [congruence|done]].
    rewrite (rep_size_payloads _ _ Hrep'), HV, Hcap'.
    rewrite (rep_size_payloads _ _ Hrep) in Hsz.
    pose proof (length_filter (fun x => ~ (stale now x = true /\ pkey x ∈ order))
                              (payloads_of (heap c) l)). lia.
  - exists (fun _ => []).
    intros c l Hrep Hsz Hcap. exists (Clear c), []. simpl.
    split; [done|]. split; [apply rep_Clear|]. split; [lia|done].
Qed.

Lemma run_payloads ops cap :
  exists F : list (string * list byte * Z) -> list (string * list byte * Z),
  forall c l, rep c l -> size c <= Z.max 0 (capacity c) -> capacity c = cap ->
    exists c' l', run ops c = Some c' /\ rep c' l' /\
      size c' <= Z.max 0 (capacity c') /\ capacity c' = cap /\
      payloads_of (heap c') l' = F (payloads_of (heap c) l).
Proof.
  induction ops as [|o ops [G IH]].
  - exists (fun V => V). intros c l Hrep Hsz Hcap. by exists c, l.
  - destruct (apply_op_payloads o cap) as [F HF].
    exists (fun V => G (F V)). intros c l Hrep Hsz Hcap. simpl.
    destruct (HF c l Hrep Hsz Hcap) as (c1 & l1 & -> & Hrep1 & Hsz1 & Hcap1 & HV1).
    simpl. destruct (IH c1 l1 Hrep1 Hsz1 Hcap1) as (c' & l' & E & Hrep' & Hsz' & Hcap' & HV').
    exists c', l'. split; [done|]. split; [done|]. split; [done|]. split; [done|].
    by rewrite HV', HV1.
Qed.

(** What [Get], [Delete] and [Cleanup] return depends on the contents only. *)
Lemma answers_payloads key now order :
  exists G : list (string * list byte * Z) -> (list byte * bool) * bool * Z,
  forall c l, rep c l ->
    exists g d n,
      fst <$> Get key now c = Some g /\ fst <$> Delete key c = Some d /\
      fst <$> Cleanup now order c = Some n /\
      G (payloads_of (heap c) l) = (g, d, n).
Proof.
  exists (fun V =>
            (match lookup_key key V with
             | None => ([], false)
             | Some x => if stale now x then ([], false) else (pvalue x, true)
             end,
             match lookup_key key V with Some _ => true | None => false end,
             0 + Z.of_nat (length (filter (fun x => stale now x = true /\ pkey x ∈ order) V)))).
  intros c l Hrep.
  pose proof (Get_contents c l key now Hrep) as HG.
  destruct (Delete_contents c l key Hrep) as (cd & ld & -> & _).
  unfold Cleanup.
  destruct (Cleanup_loop_contents now order 0 c l Hrep) as (cc & lc & -> & _).
  destruct (lookup_key key (payloads_of (heap c) l)) as [x|].
  - destruct (stale now x); destruct HG as (c' & l' & -> & _); by eexists _, _, _.
  - rewrite HG. by eexists _, _, _.
Qed.

(** A state that operations lead to from a new cache. *)
Lemma reachable_rep cap ops c :
  run ops (NewCache cap) = Some c ->
  exists l, rep c l /\ size c <= Z.max 0 cap /\ capacity c = cap.
Proof.
  intros Hrun. destruct (run_payloads ops cap) as [F HF].
  destruct (HF (NewCache cap) [] (rep_NewCache cap)) as (c' & l & E & Hrep & Hsz & Hcap & _);
    [simpl; lia|done|].
  rewrite Hrun in E. injection E as <-. exists l. by rewrite Hcap in Hsz.
Qed.

Lemma run_total cap ops : is_Some (run ops (NewCache cap)).
Proof.
  destruct (run_payloads ops cap) as [F HF].
  destruct (HF (NewCache cap) [] (rep_NewCache cap)) as (c' & l & E & _);
    [simpl; lia|done|].
  by exists c'.
Qed.

(** Two states with the same contents and capacity go on alike. *)
Lemma same_payloads_run ops key now order c1 l1 c2 l2 :
  rep c1 l1 -> rep c2 l2 -> size c1 <= Z.max 0 (capacity c1) ->
  capacity c1 = capacity c2 ->
  payloads_of (heap c1) l1 = payloads_of (heap c2) l2 ->
  exists c1' c2',
    run ops c1 = Some c1' /\ run ops c2 = Some c2' /\
    contents c1' = contents c2' /\ size c1' = size c2' /\
    fst <$> Get key now c1' = fst <$> Get key now c2' /\
    fst <$> Delete key c1' = fst <$> Delete key c2' /\
    fst <$> Cleanup now order c1' = fst <$> Cleanup now order c2'.
Proof.
  intros Hrep1 Hrep2 Hsz1 Hcap HV.
  assert (Hsz2 : size c2 <= Z.max 0 (capacity c2)).
  { rewrite (rep_size_payloads _ _ Hrep2), <- HV, <- (rep_size_payloads _ _ Hrep1).
    by rewrite <- Hcap. }
  destruct (run_payloads ops (capacity c1)) as [F HF].
  destruct (HF c1 l1 Hrep1 Hsz1 eq_refl) as (c1' & l1' & E1 & Hrep1' & _ & _ & HV1).
  destruct (HF c2 l2 Hrep2 Hsz2 (eq_sym Hcap)) as (c2' & l2' & E2 & Hrep2' & _ & _ & HV2).
  exists c1', c2'. split; [done|]. split; [done|].
  assert (HV' : payloads_of (heap c1') l1' = payloads_of (heap c2') l2')
    by by rewrite HV1, HV2, HV.
  split; [by rewrite (contents_rep _ _ Hrep1'), (contents_rep _ _ Hrep2'), HV'|].
  split; [by rewrite (rep_size_payloads _ _ Hrep1'), (rep_size_payloads _ _ Hrep2'), HV'|].
  destruct (answers_payloads key now order) as [G HG].
  destruct (HG c1' l1' Hrep1') as (g1 & d1 & n1 & -> & -> & -> & EG1).
  destruct (HG c2' l2' Hrep2') as (g2 & d2 & n2 & -> & -> & -> & EG2).
  rewrite HV', EG2 in EG1. by simplify_eq.
Qed.
End cache_reachable.

Section cache_round_trip.
Import Cache.
Implicit Types (c : Cache) (key : string).

(** A [Get] right after the [Set] of its key, before the entry expires. *)
Lemma Set_Get_rep c (l : list loc) key value ttl now now' :
  rep c l -> size c <= Z.max 0 (capacity c) -> 1 <= capacity c ->
  ttl <= 0 \/ now' <= now + ttl ->
  exists c1 c2,
    Set_ key value ttl now c = Some c1 /\
    Get key now' c1 = Some (value, true, c2) /\
    contents c2 = contents c1.
Proof.
  intros Hrep Hsz Hcap1 Httl.
  destruct (Set_contents c l key value ttl now Hrep Hsz)
    as (c1 & l1 & E & Hrep1 & _ & _ & HV).
  exists c1. rewrite E.
  destruct (Z.to_nat (capacity c)) as [|n] eqn:En; [lia|].
  rewrite firstn_cons in HV.
  pose proof (Get_contents c1 l1 key now' Hrep1) as HG.
  rewrite HV, (lookup_key_head key) in HG by done.
  assert (Hfresh : stale now' (key, value, expiry_of ttl now) = false).
  { unfold stale, expiry_of, pexpiry, IsZero, After. simpl.
    destruct (Z.gtb_spec ttl 0); [|done].
    apply andb_false_iff. right. rewrite Z.gtb_ltb. apply Z.ltb_ge. lia. }
  rewrite Hfresh in HG. destruct HG as (c2 & l2 & E2 & Hrep2 & HV2 & _).
  exists c2. split; [done|]. split; [done|].
  rewrite (contents_rep _ _ Hrep2), (contents_rep _ _ Hrep1), HV2, HV. do 2 f_equal.
  rewrite filter_cons, decide_False by (intros H; by apply H).
  apply filter_id. eapply Forall_take, Forall_filter_ne.
Qed.
End cache_round_trip.

Section cache_further_theorems.
Import Cache.
Local Open Scope string_scope.
Implicit Types (c : Cache) (key : string) (V : list (string * list byte * Z)).

(** X1.  Whatever the capacity, negative and zero included, no sequence
    of public operations on a new cache panics, and in the state it
    leads to the walk from [head] ends, [size] is the number of entries
    it meets and is at most the capacity (at most 0 for a capacity that
    is not positive), no two of these entries have the same key, and the
    index has exactly their keys. *)
Theorem cache_contents_well_formed (cap : Z) (ops : list op) :
  exists c V,
    run ops (NewCache cap) = Some c /\ contents c = Some V /\
    NoDup (map pkey V) /\
    (forall k, is_Some (entries c !! k) <-> k ∈ map pkey V) /\
    size c = Z.of_nat (length V) /\ size c <= Z.max 0 cap /\ capacity c = cap.
Proof.
  destruct (run_total cap ops) as [c Hrun].
  destruct (reachable_rep cap ops c Hrun) as (l & Hrep & Hsz & Hcap).
  exists c, (payloads_of (heap c) l). split; [done|].
  split; [by apply contents_rep|]. split; [by apply rep_payloads_NoDup|].
  split; [intros k; by apply rep_payloads_index|].
  split; [by apply rep_size_payloads|done].
Qed.

(** X2.  In every state [c] that public operations lead to, with the
    contents [V] (most recently used first), [Set key value ttl] at the
    instant [now] leaves the contents: the new triple, with the expiry
    [now + ttl] for a positive [ttl] and no expiry otherwise, followed by
    [V] without the old triple of [key], cut to the capacity. *)
Theorem Set_contents_spec (cap : Z) (ops : list op) c key value ttl now :
  run ops (NewCache cap) = Some c ->
  exists V c',
    contents c = Some V /\ Set_ key value ttl now c = Some c' /\
    contents c'
    = Some (take (Z.to_nat cap)
                 ((key, value, expiry_of ttl now)
                    :: filter (fun y => pkey y <> key) V)).
Proof.
  intros Hrun. destruct (reachable_rep cap ops c Hrun) as (l & Hrep & Hsz & Hcap).
  rewrite <- Hcap in Hsz.
  destruct (Set_contents c l key value ttl now Hrep Hsz)
    as (c' & l' & E & Hrep' & _ & _ & HV).
  exists (payloads_of (heap c) l), c'. split; [by apply contents_rep|].
  split; [done|]. by rewrite (contents_rep _ _ Hrep'), HV, Hcap.
Qed.

Lemma Set_contents_spec_witness :
  run lru_scenario (NewCache 3) = Some lru_state /\
  exists V c',
    contents lru_state = Some V /\
    Set_ "k5" ["5"%byte] 7 60 lru_state = Some c' /\
    contents c'
    = Some (take (Z.to_nat 3)
                 (("k5", ["5"%byte], expiry_of 7 60)
                    :: filter (fun y => pkey y <> "k5") V)).
Proof.
  split; [by vm_compute|].
  apply (Set_contents_spec 3 lru_scenario). by vm_compute.
Defined.

(** X3.  With a capacity of at least 1, in every state that public
    operations lead to, a [Get] of the key that follows its [Set]
    returns the value set, provided the entry has not expired: [ttl] is
    not positive, or the [Get] comes no later than [now + ttl].  The
    [Get] leaves the contents as the [Set] left them. *)
Theorem Set_then_Get (cap : Z) (ops : list op) c key value ttl now now' :
  1 <= cap -> run ops (NewCache cap) = Some c ->
  ttl <= 0 \/ now' <= now + ttl ->
  exists c1 c2,
    Set_ key value ttl now c = Some c1 /\
    Get key now' c1 = Some (value, true, c2) /\
    contents c2 = contents c1.
Proof.
  intros Hcap1 Hrun Httl.
  destruct (reachable_rep cap ops c Hrun) as (l & Hrep & Hsz & Hcap).
  apply (Set_Get_rep c l); [done|by rewrite Hcap|by rewrite Hcap|done].
Qed.

Lemma Set_then_Get_witness :
  1 <= 3 /\ run lru_scenario (NewCache 3) = Some lru_state /\
  (5 <= 0 \/ 65 <= 60 + 5) /\
  exists c1 c2,
    Set_ "k1" ["9"%byte] 5 60 lru_state = Some c1 /\
    Get "k1" 65 c1 = Some (["9"%byte], true, c2) /\
    contents c2 = contents c1.
Proof.
  split; [lia|]. split; [by vm_compute|]. split; [right; lia|].
  apply (Set_then_Get 3 lru_scenario); [lia|by vm_compute|right; lia].
Defined.

(** X4.  In every state that public operations lead to, with the
    contents [V], a [Get] of a key later than the expiry its [Set] gave
    it (a positive [ttl], and [now + ttl] not the zero instant, which
    stands for no expiry) finds nothing and removes the entry: what is
    left is [V] without the key, less what the [Set] evicted. *)
Theorem Get_after_expiry (cap : Z) (ops : list op) c key value ttl now now' :
  run ops (NewCache cap) = Some c ->
  0 < ttl -> now + ttl <> 0 -> now + ttl < now' ->
  exists V c1 c2,
    contents c = Some V /\
    Set_ key value ttl now c = Some c1 /\
    Get key now' c1 = Some ([], false, c2) /\
    entries c2 !! key = None /\
    contents c2
    = Some (take (Z.to_nat cap - 1) (filter (fun y => pkey y <> key) V)).
Proof.
  intros Hrun Httl Hnz Hlate.
  destruct (reachable_rep cap ops c Hrun) as (l & Hrep & Hsz & Hcap).
  rewrite <- Hcap in Hsz.
  destruct (Set_contents c l key value ttl now Hrep Hsz)
    as (c1 & l1 & E & Hrep1 & _ & _ & HV).
  exists (payloads_of (heap c) l), c1. rewrite E, (contents_rep _ _ Hrep).
  pose proof (Get_contents c1 l1 key now' Hrep1) as HG.
  rewrite HV, Hcap in HG.
  assert (Hstale : stale now' (key, value, expiry_of ttl now) = true).
  { unfold stale, expiry_of, pexpiry, IsZero, After. simpl.
    destruct (Z.gtb_spec ttl 0); [|lia].
    apply andb_true_iff. split.
    - apply negb_true_iff, Z.eqb_neq. lia.
    - rewrite Z.gtb_ltb. apply Z.ltb_lt. lia. }
  destruct (Z.to_nat cap) as [|n] eqn:En.
  - simpl in HG. rewrite Hcap, En in HV. simpl in HV.
    exists c1. split; [done|]. split; [done|]. split; [done|].
    split; [|by rewrite (contents_rep _ _ Hrep1), HV].
    apply eq_None_not_Some. rewrite (rep_payloads_index _ _ _ Hrep1), HV.
    apply not_elem_of_nil.
  - rewrite firstn_cons, (lookup_key_head key), Hstale in HG by done.
    destruct HG as (c2 & l2 & E2 & Hrep2 & HV2 & _).
    exists c2. split; [done|]. split; [done|]. split; [done|].
    rewrite filter_cons, decide_False in HV2 by (intros H; by apply H).
    rewrite filter_id in HV2 by (eapply Forall_take, Forall_filter_ne).
    split.
    + apply eq_None_not_Some. rewrite (rep_payloads_index _ _ _ Hrep2), HV2.
      rewrite list_elem_of_fmap. intros (y & Hy & Hin).
      apply subseteq_take in Hin. apply list_elem_of_filter in Hin as [Hne _].
      by apply Hne.
    + rewrite (contents_rep _ _ Hrep2), HV2. do 2 f_equal. lia.
Qed.

Lemma Get_after_expiry_witness :
  run lru_scenario (NewCache 3) = Some lru_state /\
  0 < 5 /\ 60 + 5 <> 0 /\ 60 + 5 < 66 /\
  exists V c1 c2,
    contents lru_state = Some V /\
    Set_ "k5" ["5"%byte] 5 60 lru_state = Some c1 /\
    Get "k5" 66 c1 = Some ([], false, c2) /\
    entries c2 !! "k5" = None /\
    contents c2
    = Some (take (Z.to_nat 3 - 1) (filter (fun y => pkey y <> "k5") V)).
Proof.
  split; [by vm_compute|]. split; [lia|]. split; [lia|]. split; [lia|].
  apply (Get_after_expiry 3 lru_scenario); [by vm_compute|lia..].
Defined.

(** X5.  In every state that public operations lead to, with the
    contents [V], [Delete key] returns true exactly when [V] has the
    key, and leaves [V] without it, in the same order; deleting the key
    once more returns false and changes nothing. *)
Theorem Delete_spec (cap : Z) (ops : list op) c key :
  run ops (NewCache cap) = Some c ->
  exists V c',
    contents c = Some V /\
    Delete key c = Some (bool_decide (key ∈ map pkey V), c') /\
    contents c' = Some (filter (fun y => pkey y <> key) V) /\
    Delete key c' = Some (false, c').
Proof.
  intros Hrun. destruct (reachable_rep cap ops c Hrun) as (l & Hrep & _).
  destruct (Delete_contents c l key Hrep) as (c' & l' & E & Hrep' & HV & _).
  exists (payloads_of (heap c) l), c'. split; [by apply contents_rep|].
  split; [|split; [by rewrite (contents_rep _ _ Hrep'), HV|]].
  - rewrite E. do 2 f_equal.
    pose proof (lookup_key_None key (payloads_of (heap c) l)) as HN.
    destruct (lookup_key key (payloads_of (heap c) l)).
    + symmetry. apply bool_decide_eq_true. destruct (decide (key ∈ map pkey (payloads_of (heap c) l))); [done|].
      by apply HN in n.
    + symmetry. apply bool_decide_eq_false. by apply HN.
  - destruct (Delete_contents c' l' key Hrep') as (c'' & l'' & E' & _ & _ & _ & Hsame).
    assert (HN : lookup_key key (payloads_of (heap c') l') = None).
    { apply lookup_key_None. rewrite HV, list_elem_of_fmap.
      intros (y & Hy & [Hne _]%list_elem_of_filter). by apply Hne. }
    rewrite E', HN. by rewrite (Hsame HN).
Qed.

Lemma Delete_spec_witness :
  run lru_scenario (NewCache 3) = Some lru_state /\
  exists V c',
    contents lru_state = Some V /\
    Delete "k1" lru_state = Some (bool_decide ("k1" ∈ map pkey V), c') /\
    contents c' = Some (filter (fun y => pkey y <> "k1") V) /\
    Delete "k1" c' = Some (false, c').
Proof.
  split; [by vm_compute|].
  apply (Delete_spec 3 lru_scenario). by vm_compute.
Defined.

(** X6.  In every state that public operations lead to, with the
    contents [V], a [Cleanup] at the instant [now] whose range loop
    starts on the keys of the index, in whatever order, returns the
    number of entries of [V] that are expired at [now] and leaves the
    others, in their order. *)
Theorem Cleanup_spec (cap : Z) (ops : list op) c now order :
  run ops (NewCache cap) = Some c -> range_order c order ->
  exists V c',
    contents c = Some V /\
    Cleanup now order c
    = Some (Z.of_nat (length (filter (fun x => stale now x = true) V)), c') /\
    contents c' = Some (filter (fun x => stale now x = false) V).
Proof.
  intros Hrun Horder. destruct (reachable_rep cap ops c Hrun) as (l & Hrep & _).
  unfold Cleanup.
  destruct (Cleanup_loop_contents now order 0 c l Hrep) as (c' & l' & E & Hrep' & HV & _).
  assert (Hall : forall x, x ∈ payloads_of (heap c) l -> pkey x ∈ order).
  { intros x Hx. rewrite Horder.
    assert (Hk : is_Some (entries c !! pkey x)).
    { apply (rep_payloads_index _ _ _ Hrep), list_elem_of_fmap. by exists x. }
    destruct Hk as [p Hp]. apply list_elem_of_fmap. exists (pkey x, p).
    split; [done|]. by apply elem_of_map_to_list. }
  exists (payloads_of (heap c) l), c'. split; [by apply contents_rep|].
  split.
  - rewrite E, Z.add_0_l. do 4 f_equal.
    apply filter_ext_in. intros x Hx. split; [by intros [? _]|].
    intros ?. split; [done|by apply Hall].
  - rewrite (contents_rep _ _ Hrep'), HV. f_equal.
    apply filter_ext_in. intros x Hx. split.
    + intros Hn. destruct (stale now x); [|done]. exfalso. apply Hn.
      split; [done|by apply Hall].
    + intros Hf [Ht _]. congruence.
Qed.

Lemma Cleanup_spec_witness :
  run ttl_scenario (NewCache 100) = Some ttl_state /\
  range_order ttl_state (map_to_list (entries ttl_state)).*1 /\
  exists V c',
    contents ttl_state = Some V /\
    Cleanup 12 (map_to_list (entries ttl_state)).*1 ttl_state
    = Some (Z.of_nat (length (filter (fun x => stale 12 x = true) V)), c') /\
    contents c' = Some (filter (fun x => stale 12 x = false) V).
Proof.
  split; [by vm_compute|]. split; [unfold range_order; reflexivity|].
  apply (Cleanup_spec 100 ttl_scenario); [by vm_compute|].
  unfold range_order; reflexivity.
Defined.

(** X7.  Two states that public operations lead to on caches of the same
    capacity, and that have the same contents in the same order, cannot
    be told apart: after any further operations they have the same
    contents and size again, and [Get], [Delete] and [Cleanup] return
    the same on both.  Which addresses the entries have, and what
    unlinked entries are left in memory, makes no difference; a cache
    after [Clear], for one, goes on as a new cache does. *)
Theorem same_contents_same_behaviour (cap : Z) (ops1 ops2 : list op) c1 c2
    (ops : list op) key now order :
  run ops1 (NewCache cap) = Some c1 -> run ops2 (NewCache cap) = Some c2 ->
  contents c1 = contents c2 ->
  exists c1' c2',
    run ops c1 = Some c1' /\ run ops c2 = Some c2' /\
    contents c1' = contents c2' /\ size c1' = size c2' /\
    fst <$> Get key now c1' = fst <$> Get key now c2' /\
    fst <$> Delete key c1' = fst <$> Delete key c2' /\
    fst <$> Cleanup now order c1' = fst <$> Cleanup now order c2'.
Proof.
  intros Hrun1 Hrun2 HV.
  destruct (reachable_rep cap ops1 c1 Hrun1) as (l1 & Hrep1 & Hsz1 & Hcap1).
  destruct (reachable_rep cap ops2 c2 Hrun2) as (l2 & Hrep2 & Hsz2 & Hcap2).
  rewrite (contents_rep _ _ Hrep1), (contents_rep _ _ Hrep2) in HV.
  injection HV as HV.
  apply (same_payloads_run ops key now order c1 l1 c2 l2); try done; congruence.
Qed.

Lemma same_contents_same_behaviour_witness :
  run (lru_scenario ++ [OpClear]) (NewCache 3) = Some (Clear lru_state) /\
  run [] (NewCache 3) = Some (NewCache 3) /\
  contents (Clear lru_state) = contents (NewCache 3) /\
  exists c1' c2',
    run four_inserts (Clear lru_state) = Some c1' /\
    run four_inserts (NewCache 3) = Some c2' /\
    contents c1' = contents c2' /\ size c1' = size c2' /\
    fst <$> Get "key2" 50 c1' = fst <$> Get "key2" 50 c2' /\
    fst <$> Delete "key2" c1' = fst <$> Delete "key2" c2' /\
    fst <$> Cleanup 50 ["key2"] c1' = fst <$> Cleanup 50 ["key2"] c2'.
Proof.
  split; [by vm_compute|]. split; [done|]. split; [by vm_compute|].
  apply (same_contents_same_behaviour 3 (lru_scenario ++ [OpClear]) []);
    by vm_compute.
Defined.

(** X8.  A cache whose capacity is zero or negative never holds
    anything: after any sequence of public operations it is empty, and
    every [Get] finds nothing, also right after a [Set] of the key. *)
Theorem nonpositive_capacity_stores_nothing (cap : Z) (ops : list op) :
  cap <= 0 ->
  exists c,
    run ops (NewCache cap) = Some c /\ contents c = Some [] /\ size c = 0 /\
    forall key now, Get key now c = Some ([], false, c).
Proof.
  intros Hcap. destruct (run_total cap ops) as [c Hrun].
  destruct (reachable_rep cap ops c Hrun) as (l & Hrep & Hsz & _).
  pose proof (rep_size_payloads _ _ Hrep) as Hlen.
  assert (HV : payloads_of (heap c) l = []).
  { apply length_zero_iff_nil. lia. }
  exists c. split; [done|]. split; [by rewrite (contents_rep _ _ Hrep), HV|].
  split; [rewrite Hlen, HV; done|].
  intros key now. pose proof (Get_contents c l key now Hrep) as HG.
  by rewrite HV in HG.
Qed.

Lemma nonpositive_capacity_stores_nothing_witness :
  -1 <= 0 /\
  exists c,
    run lru_scenario (NewCache (-1)) = Some c /\ contents c = Some [] /\
    size c = 0 /\ forall key now, Get key now c = Some ([], false, c).
Proof.
  split; [lia|]. apply nonpositive_capacity_stores_nothing. lia.
Defined.

(** X9.  With a capacity of at least 2, in every state that public
    operations lead to, a key that [Get] has just found outlives the
    next [Set] of another key, whatever that [Set] evicts: it comes
    second in the contents, right after the key set, with the value
    [Get] returned. *)
Theorem Get_protects_from_eviction (cap : Z) (ops : list op) c key now v c1
    key' value' ttl now' :
  2 <= cap -> run ops (NewCache cap) = Some c ->
  Get key now c = Some (v, true, c1) -> key' <> key ->
  exists c2 x rest,
    Set_ key' value' ttl now' c1 = Some c2 /\
    contents c2 = Some ((key', value', expiry_of ttl now') :: x :: rest) /\
    pkey x = key /\ pvalue x = v /\ is_Some (entries c2 !! key).
Proof.
  intros Hcap2 Hrun HGet Hne.
  destruct (reachable_rep cap ops c Hrun) as (l & Hrep & Hsz & Hcap).
  pose proof (Get_contents c l key now Hrep) as HG.
  destruct (lookup_key key (payloads_of (heap c) l)) as [x|] eqn:Hx; [|congruence].
  destruct (stale now x);
    destruct HG as (c1' & l1 & E & Hrep1 & HV1 & Hcap1 & Hsz1); [congruence|].
  rewrite HGet in E. injection E as -> <-.
  apply lookup_key_Some in Hx as [_ Hkx].
  destruct (Set_contents c1 l1 key' value' ttl now' Hrep1 ltac:(lia))
    as (c2 & l2 & E2 & Hrep2 & _ & _ & HV2).
  rewrite HV1, Hcap1, Hcap in HV2.
  rewrite filter_cons, decide_True in HV2 by congruence.
  destruct (Z.to_nat cap) as [|[|n]] eqn:En; [lia..|].
  rewrite !firstn_cons in HV2.
  exists c2, x. eexists. split; [done|].
  split; [by rewrite (contents_rep _ _ Hrep2), HV2|]. split; [done|]. split; [done|].
  apply (rep_payloads_index _ _ _ Hrep2). rewrite HV2, <- Hkx. simpl.
  apply elem_of_cons. right. apply elem_of_cons. by left.
Qed.

Lemma Get_protects_from_eviction_witness :
  2 <= 3 /\ run lru_scenario (NewCache 3) = Some lru_state /\
  Get "k3" 60 lru_state
  = Some (["3"%byte], true, default lru_state (snd <$> Get "k3" 60 lru_state)) /\
  "k5" <> "k3" /\
  exists c2 x rest,
    Set_ "k5" ["5"%byte] 0 70 (default lru_state (snd <$> Get "k3" 60 lru_state))
    = Some c2 /\
    contents c2 = Some (("k5", ["5"%byte], expiry_of 0 70) :: x :: rest) /\
    pkey x = "k3" /\ pvalue x = ["3"%byte] /\ is_Some (entries c2 !! "k3").
Proof.
  split; [lia|]. split; [by vm_compute|]. split; [by vm_compute|]. split; [done|].
  apply (Get_protects_from_eviction 3 lru_scenario lru_state "k3" 60);
    [lia|by vm_compute|by vm_compute|done].
Defined.
End cache_further_theorems.

(** ** The ring: membership and owners *)

Section ring_further_facts.
Import Ring.
Implicit Types (r : Ring) (it : list Node) (key : string) (n : Z).

(** Whatever [Owners] returns is a piece of the ranking. *)
Lemma Owners_sublist r it key n res :
  Owners r it key n = Some res -> res `sublist_of` ranking key it.
Proof.
  rewrite Owners_unfold. destruct (_ =? 0).
  - intros [= <-]. apply sublist_nil_l.
  - cbv zeta. destruct (_ <? 0); [done|]. intros [= <-]. apply sublist_take.
Qed.

Lemma Owners_elem_of r it key n res nd :
  range_order r it -> Owners r it key n = Some res -> nd ∈ res -> nd ∈ members r.
Proof.
  intros Hit HO Hnd. apply Owners_sublist in HO.
  rewrite <- Hit, <- (ranking_Permutation key it).
  by eapply elem_of_sublist.
Qed.

Lemma members_RemoveNode r id nd :
  wf r -> nd ∈ members (RemoveNode id r) -> nd ∈ members r /\ ID nd <> id.
Proof.
  intros Hwf. rewrite !elem_of_members. intros [id' H]. simpl in H.
  apply lookup_delete_Some in H as [Hne H].
  split; [by exists id'|]. by rewrite (Hwf _ _ H).
Qed.

Lemma AddNode_RemoveNode r x nd :
  wf r -> nodes r !! x = Some nd -> AddNode x (Addr nd) (RemoveNode x r) = r.
Proof.
  intros Hwf Hx. destruct r as [m]. unfold AddNode, RemoveNode. simpl in *. f_equal.
  pose proof (Hwf _ _ Hx) as Hid. simpl in Hid.
  replace (mkNode x (Addr nd)) with nd by (destruct nd; simpl in *; by subst).
  by apply insert_delete_id.
Qed.

Lemma RemoveNode_absent r x : nodes r !! x = None -> RemoveNode x r = r.
Proof.
  intros Hx. destruct r as [m]. unfold RemoveNode. simpl in *. f_equal.
  by apply delete_id.
Qed.

(** Dropping the removed node from the ranking gives the ranking of the
    ring without it. *)
Lemma ranking_RemoveNode key r x it it' :
  wf r -> no_ties key r -> range_order r it -> range_order (RemoveNode x r) it' ->
  ranking key it' = filter (fun nd => ID nd <> x) (ranking key it).
Proof.
  intros Hwf Hnt Hit Hit'. destruct (nodes r !! x) as [nd|] eqn:Hx.
  - symmetry.
    apply (ranking_AddNode key (RemoveNode x r) x (Addr nd) it' it).
    + by apply wf_RemoveNode.
    + simpl. apply lookup_delete_eq.
    + by rewrite AddNode_RemoveNode.
    + done.
    + by rewrite AddNode_RemoveNode.
  - rewrite RemoveNode_absent in Hit' by done.
    rewrite filter_id; [by apply (ranking_unique key r)|].
    apply Forall_forall. intros y Hy.
    rewrite ranking_Permutation, Hit in Hy. by eapply members_ID_ne.
Qed.

(** Without ties a shorter cut of the ranking is a prefix of a longer
    one, on any two runs. *)
Lemma ranking_prefix key r it1 it2 (k1 k2 : nat) :
  no_ties key r -> range_order r it1 -> range_order r it2 -> (k1 <= k2)%nat ->
  take k1 (ranking key it1) `prefix_of` take k2 (ranking key it2).
Proof.
  intros Hnt H1 H2 Hk. rewrite (ranking_unique key r it1 it2) by done.
  by apply take_prefix_le.
Qed.
End ring_further_facts.

Section ring_further_theorems.
Import Ring.
Local Open Scope string_scope.
Implicit Types (r : Ring) (it : list Node) (key : string) (n : Z).

(** X10.  After [RemoveNode id] on a ring in which every node is stored
    under its own identity, no run of [Owners] returns a node with the
    identity [id]: every node returned was in the ring before, and is
    another node. *)
Theorem Owners_never_returns_removed_node r id it key n res :
  wf r -> range_order (RemoveNode id r) it ->
  Owners (RemoveNode id r) it key n = Some res ->
  (id ∉ map ID res) /\ (forall nd, nd ∈ res -> nd ∈ members r).
Proof.
  intros Hwf Hit HO.
  assert (H : forall nd, nd ∈ res -> nd ∈ members r /\ ID nd <> id).
  { intros nd Hnd. apply members_RemoveNode; [done|]. by eapply Owners_elem_of. }
  split; [|intros nd Hnd; by apply H].
  rewrite list_elem_of_fmap. intros (nd & Hid & Hnd). by apply (H nd).
Qed.

Lemma Owners_never_returns_removed_node_witness :
  wf ring3 /\
  range_order (RemoveNode "node2" ring3) (members (RemoveNode "node2" ring3)) /\
  Owners (RemoveNode "node2" ring3) (members (RemoveNode "node2" ring3)) "test-key" 3
  = Some (default [] (Owners (RemoveNode "node2" ring3)
                        (members (RemoveNode "node2" ring3)) "test-key" 3)) /\
  ("node2" ∉ map ID (default [] (Owners (RemoveNode "node2" ring3)
                                   (members (RemoveNode "node2" ring3)) "test-key" 3))) /\
  (forall nd, nd ∈ default [] (Owners (RemoveNode "node2" ring3)
                                 (members (RemoveNode "node2" ring3)) "test-key" 3) ->
              nd ∈ members ring3).
Proof.
  assert (W : wf ring3) by (repeat apply wf_AddNode; apply wf_NewRing).
  assert (R : range_order (RemoveNode "node2" ring3) (members (RemoveNode "node2" ring3)))
    by (unfold range_order, members; reflexivity).
  split; [exact W|]. split; [exact R|]. split; [by vm_compute|].
  apply (Owners_never_returns_removed_node ring3 "node2" _ "test-key" 3 _ W R).
  by vm_compute.
Defined.

(** X11.  Asked for at least as many owners as the ring has nodes,
    [Owners] returns every node of the ring exactly once, in descending
    score. *)
Theorem Owners_whole_ring r it key n :
  range_order r it -> NodeCount r <= n ->
  exists res,
    Owners r it key n = Some res /\ res ≡ₚ members r /\
    StronglySorted (fun a b => score_of key b <= score_of key a) res.
Proof.
  intros Hit Hn. unfold NodeCount in Hn. exists (ranking key it).
  split; [|split; [by rewrite ranking_Permutation|apply ranking_descending]].
  rewrite Owners_nonneg by lia. f_equal. apply take_ge.
  rewrite (length_ranking key r it Hit). lia.
Qed.

Lemma Owners_whole_ring_witness :
  range_order ring3 (members ring3) /\ NodeCount ring3 <= 5 /\
  exists res,
    Owners ring3 (members ring3) "test-key" 5 = Some res /\
    res ≡ₚ members ring3 /\
    StronglySorted (fun a b => score_of "test-key" b <= score_of "test-key" a) res.
Proof.
  assert (R : range_order ring3 (members ring3))
    by (unfold range_order, members; reflexivity).
  split; [exact R|]. split; [by vm_compute|].
  apply (Owners_whole_ring ring3 (members ring3) "test-key" 5 R). by vm_compute.
Defined.

(** X12.  For a key on which no two nodes of the ring have the same
    score, asking for fewer owners gives a prefix of what asking for
    more gives, on any two runs of the range loop: the owners a read
    quorum is taken from are the first owners of any write quorum that is
    at least as large. *)
Theorem Owners_fewer_is_prefix r it1 it2 key n m :
  no_ties key r -> range_order r it1 -> range_order r it2 ->
  0 <= n <= m ->
  exists rn rm,
    Owners r it1 key n = Some rn /\ Owners r it2 key m = Some rm /\
    rn `prefix_of` rm.
Proof.
  intros Hnt H1 H2 Hnm.
  exists (take (Z.to_nat (Z.min n (Z.of_nat (size (nodes r))))) (ranking key it1)),
         (take (Z.to_nat (Z.min m (Z.of_nat (size (nodes r))))) (ranking key it2)).
  split; [apply Owners_nonneg; lia|]. split; [apply Owners_nonneg; lia|].
  apply (ranking_prefix key r); [done..|lia].
Qed.

Lemma Owners_fewer_is_prefix_witness :
  no_ties "test-key" ring3 /\
  range_order ring3 (members ring3) /\ range_order ring3 (rev (members ring3)) /\
  0 <= 1 <= 2 /\
  exists rn rm,
    Owners ring3 (members ring3) "test-key" 1 = Some rn /\
    Owners ring3 (rev (members ring3)) "test-key" 2 = Some rm /\
    rn `prefix_of` rm.
Proof.
  assert (T : no_ties "test-key" ring3).
  { apply no_ties_NoDup. apply (bool_decide_unpack _). by vm_compute. }
  assert (R : range_order ring3 (members ring3))
    by (unfold range_order, members; reflexivity).
  assert (R' : range_order ring3 (rev (members ring3)))
    by (unfold range_order, members; apply Permutation_sym, Permutation_rev).
  split; [exact T|]. split; [exact R|]. split; [exact R'|]. split; [lia|].
  apply (Owners_fewer_is_prefix ring3 _ _ "test-key" 1 2 T R R'). lia.
Defined.

(** X13.  For a key on which no two nodes have the same score,
    [RemoveNode x] only takes [x] out of the owners: on any runs of the
    range loops, the owners in the ring without [x] are the first [n]
    of the owners in the whole ring with [x] left out, the other nodes
    keeping their order. *)
Theorem RemoveNode_keeps_order r x key it it' n :
  wf r -> no_ties key r -> range_order r it ->
  range_order (RemoveNode x r) it' -> 0 <= n ->
  exists full,
    Owners r it key (NodeCount r) = Some full /\ full ≡ₚ members r /\
    Owners (RemoveNode x r) it' key n
    = Some (take (Z.to_nat n) (filter (fun nd => ID nd <> x) full)).
Proof.
  intros Hwf Hnt Hit Hit' Hn. exists (ranking key it).
  split; [|split; [by rewrite ranking_Permutation|]].
  - unfold NodeCount. rewrite Owners_nonneg by lia. f_equal. apply take_ge.
    rewrite (length_ranking key r it Hit). lia.
  - rewrite Owners_nonneg by done.
    rewrite <- (ranking_RemoveNode key r x it it') by done. f_equal.
    pose proof (length_ranking key _ it' Hit') as Hlen.
    destruct (Z.le_gt_cases n (Z.of_nat (size (nodes (RemoveNode x r))))).
    + f_equal. lia.
    + rewrite !take_ge; [done|lia..].
Qed.

Lemma RemoveNode_keeps_order_witness :
  wf ring3 /\ no_ties "test-key" ring3 /\
  range_order ring3 (members ring3) /\
  range_order (RemoveNode "node1" ring3) (members (RemoveNode "node1" ring3)) /\
  0 <= 2 /\
  exists full,
    Owners ring3 (members ring3) "test-key" (NodeCount ring3) = Some full /\
    full ≡ₚ members ring3 /\
    Owners (RemoveNode "node1" ring3) (members (RemoveNode "node1" ring3)) "test-key" 2
    = Some (take (Z.to_nat 2) (filter (fun nd => ID nd <> "node1") full)).
Proof.
  assert (W : wf ring3) by (repeat apply wf_AddNode; apply wf_NewRing).
  assert (T : no_ties "test-key" ring3).
  { apply no_ties_NoDup. apply (bool_decide_unpack _). by vm_compute. }
  assert (R : range_order ring3 (members ring3))
    by (unfold range_order, members; reflexivity).
  assert (R' : range_order (RemoveNode "node1" ring3)
                 (members (RemoveNode "node1" ring3)))
    by (unfold range_order, members; reflexivity).
  split; [exact W|]. split; [exact T|]. split; [exact R|]. split; [exact R'|].
  split; [lia|].
  apply (RemoveNode_keeps_order ring3 "node1" "test-key" _ _ 2 W T R R'). lia.
Defined.

(** X14.  [AddNode id addr] on a ring in which every node is stored
    under its own identity leaves a ring of which [GetNodes] returns
    nodes with pairwise distinct identities, as many as [NodeCount]
    says, the node [id] among them with the address [addr] and no other;
    the count grows by one when [id] is new and stays when [AddNode]
    replaces the node of that identity. *)
Theorem AddNode_one_node_per_identity r id addr it :
  wf r -> range_order (AddNode id addr r) it ->
  NoDup (map ID (GetNodes (AddNode id addr r) it)) /\
  mkNode id addr ∈ GetNodes (AddNode id addr r) it /\
  (forall nd, nd ∈ GetNodes (AddNode id addr r) it -> ID nd = id -> Addr nd = addr) /\
  NodeCount (AddNode id addr r) = Z.of_nat (length (GetNodes (AddNode id addr r) it)) /\
  NodeCount (AddNode id addr r)
  = NodeCount r + match nodes r !! id with Some _ => 0 | None => 1 end.
Proof.
  intros Hwf Hit. unfold GetNodes.
  pose proof (wf_AddNode id addr r Hwf) as Hwf'.
  assert (Hin : forall nd, nd ∈ it <-> exists k, nodes (AddNode id addr r) !! k = Some nd).
  { intros nd. rewrite Hit. apply elem_of_members. }
  split; [|split; [|split; [|split]]].
  - rewrite Hit. by apply NoDup_ID_members.
  - apply Hin. exists id. simpl. apply lookup_insert_eq.
  - intros nd [k Hk]%Hin Hid. pose proof (Hwf' _ _ Hk) as Hk'.
    rewrite Hid in Hk'. subst k. simpl in Hk. rewrite lookup_insert_eq in Hk.
    by injection Hk as <-.
  - unfold NodeCount. by rewrite (length_range_order _ _ Hit).
  - unfold NodeCount. simpl. destruct (nodes r !! id) as [nd|] eqn:Hid.
    + rewrite <- (insert_delete_eq (nodes r)), map_size_insert_None by apply lookup_delete_eq.
      pose proof (map_size_delete id (nodes r)) as Hd. rewrite Hid in Hd. simpl in Hd.
      assert (size (nodes r) <> 0%nat).
      { apply map_size_non_empty_iff. intros E. by rewrite E, lookup_empty in Hid. }
      lia.
    + rewrite map_size_insert_None by done. lia.
Qed.

Lemma AddNode_one_node_per_identity_witness :
  wf ring3 /\
  range_order (AddNode "node2" "localhost:9092" ring3)
              (members (AddNode "node2" "localhost:9092" ring3)) /\
  NoDup (map ID (GetNodes (AddNode "node2" "localhost:9092" ring3)
                          (members (AddNode "node2" "localhost:9092" ring3)))) /\
  mkNode "node2" "localhost:9092"
    ∈ GetNodes (AddNode "node2" "localhost:9092" ring3)
               (members (AddNode "node2" "localhost:9092" ring3)) /\
  (forall nd, nd ∈ GetNodes (AddNode "node2" "localhost:9092" ring3)
                            (members (AddNode "node2" "localhost:9092" ring3)) ->
              ID nd = "node2" -> Addr nd = "localhost:9092") /\
  NodeCount (AddNode "node2" "localhost:9092" ring3)
  = Z.of_nat (length (GetNodes (AddNode "node2" "localhost:9092" ring3)
                               (members (AddNode "node2" "localhost:9092" ring3)))) /\
  NodeCount (AddNode "node2" "localhost:9092" ring3)
  = NodeCount ring3 + match nodes ring3 !! "node2" with Some _ => 0 | None => 1 end.
Proof.
  assert (W : wf ring3) by (repeat apply wf_AddNode; apply wf_NewRing).
  split; [exact W|]. split; [unfold range_order, members; reflexivity|].
  apply (AddNode_one_node_per_identity ring3 "node2" "localhost:9092" _ W).
  unfold range_order, members; reflexivity.
Defined.

End ring_further_theorems.

(** ** The client: membership, connections and quorums *)

Section client_further_facts.
Import Client.
Local Open Scope string_scope.
Implicit Types (c : Client) (net : Net) (it owners : list Ring.Node) (key : string).

Lemma setToNode_ok c net key value ttl o :
  is_ok (setToNode c net (Ring.ID o) key value ttl) = set_ack c net key value ttl o.
Proof.
  unfold setToNode, getConnection, set_ack. case_decide as Hc.
  - rewrite bool_decide_eq_true_2 by done. simpl.
    by destruct (rpc_Set net (Ring.ID o) key value ttl) as [[[]]|].
  - by rewrite bool_decide_eq_false_2 by done.
Qed.

(** A list [Owners] returns that is not empty was asked for with a
    positive count and is no longer than the count. *)
Lemma Owners_length_le r it key (n : Z) owners :
  Ring.Owners r it key n = Some owners -> owners <> [] ->
  0 < Z.of_nat (length owners) <= n.
Proof.
  intros HO Hne. destruct (Z.lt_ge_cases n 0) as [Hneg|Hn].
  - destruct (decide (Ring.nodes r = ∅)) as [E|E].
    + rewrite Owners_unfold, E, map_size_empty in HO. simpl in HO. congruence.
    + by rewrite Owners_negative in HO.
  - rewrite Owners_nonneg in HO by done. injection HO as <-. split.
    + destruct (take _ _); [done|simpl; lia].
    + rewrite length_take. lia.
Qed.

Lemma successes_all {A} (f : A -> result unit) (l : list A) :
  successes (map f l) >= Z.of_nat (length l) <-> Forall (fun a => is_ok (f a) = true) l.
Proof.
  induction l as [|a l IH]; simpl.
  - split; [constructor|lia].
  - pose proof (successes_le_length (map f l)) as Hle. rewrite length_map in Hle.
    rewrite Forall_cons, <- IH. destruct (is_ok (f a)); split.
    + intros H. split; [done|lia].
    + intros [_ H]. lia.
    + lia.
    + by intros [? _].
Qed.

Lemma successes_none {A} (f : A -> result unit) (l : list A) :
  (forall a, is_ok (f a) = false) -> successes (map f l) = 0.
Proof. intros H. induction l as [|a l IH]; simpl; [done|]. by rewrite H, IH. Qed.

(** A quorum of [n] out of at most [n] outcomes is all of them. *)
Lemma quorum_all {A} (f : A -> result unit) (l : list A) (n : Z) :
  Z.of_nat (length l) <= n ->
  (successes (map f l) >=? n) = true <->
  Z.of_nat (length l) = n /\ Forall (fun a => is_ok (f a) = true) l.
Proof.
  intros Hlen. pose proof (successes_le_length (map f l)) as Hle.
  rewrite length_map in Hle. rewrite <- successes_all.
  destruct (Z.geb_spec (successes (map f l)) n); split; try done; lia.
Qed.

(** What a call depends on: the ring, the quorums, the hedging timeout,
    and for each owner whether it is connected and what it answers. *)
Lemma getFromNode_agree c c' net net' id key :
  (id ∈ connections c <-> id ∈ connections c') ->
  hedgeTimeout c = hedgeTimeout c' ->
  (id ∈ connections c ->
   rpc_Get net id key = rpc_Get net' id key /\
   rpc_Get_hedge net id key = rpc_Get_hedge net' id key /\
   hedge_in_time net id = hedge_in_time net' id) ->
  getFromNode c net id key = getFromNode c' net' id key.
Proof.
  intros Hc Hh Hnet. unfold getFromNode, getConnection.
  destruct (decide (id ∈ connections c)) as [Hin|Hout].
  - rewrite (decide_True (P := id ∈ connections c')) by by apply Hc.
    destruct (Hnet Hin) as (-> & -> & ->). by rewrite Hh.
  - rewrite (decide_False (P := id ∈ connections c')) by (by rewrite <- Hc). done.
Qed.

Lemma Get_others_ext c c' net net' key owners :
  (forall o, o ∈ owners ->
     getFromNode c net (Ring.ID o) key = getFromNode c' net' (Ring.ID o) key) ->
  Get_others c net key owners = Get_others c' net' key owners.
Proof.
  induction owners as [|o owners IH]; intros H; simpl; [done|].
  rewrite (H o) by by left. rewrite IH; [done|]. intros o' Ho'. apply H. by right.
Qed.

(** [Get], as one loop over the owners, the empty list included. *)
Lemma Get_unfold c net it key :
  Get c net it key
  = owners ← Ring.Owners (ring c) it key (readQuorum c);
    Some (match owners with
          | [] => Err "no nodes available"
          | _ => Get_others c net key owners
          end).
Proof.
  unfold Get. destruct (Ring.Owners _ _ _ _) as [[|p others]|]; simpl; try done.
  by destruct (getFromNode c net (Ring.ID p) key).
Qed.

Lemma Set_owners c net it key value ttl owners :
  Ring.Owners (ring c) it key (writeQuorum c) = Some owners -> owners <> [] ->
  Set_ c net it key value ttl
  = Some (if successes (map (fun o => setToNode c net (Ring.ID o) key value ttl) owners)
             >=? writeQuorum c
          then Ok tt else Err "failed to write to quorum of nodes").
Proof.
  intros HO Hne. unfold Set_. rewrite HO. destruct owners; [done|].
  simpl. by destruct (_ >=? _).
Qed.

Lemma Delete_owners c net it key owners :
  Ring.Owners (ring c) it key (writeQuorum c) = Some owners -> owners <> [] ->
  Delete c net it key
  = Some (if successes (map (fun o => deleteFromNode c net (Ring.ID o) key) owners)
             >=? writeQuorum c
          then Ok tt else Err "failed to delete from quorum of nodes").
Proof.
  intros HO Hne. unfold Delete. rewrite HO. destruct owners; [done|].
  simpl. by destruct (_ >=? _).
Qed.

(** [Set] returns [nil] exactly when every owner acknowledges. *)
Lemma Set_Ok_iff c net it key value ttl :
  Set_ c net it key value ttl = Some (Ok tt) <->
  exists owners,
    Ring.Owners (ring c) it key (writeQuorum c) = Some owners /\ owners <> [] /\
    Z.of_nat (length owners) = writeQuorum c /\
    Forall (fun o => set_ack c net key value ttl o = true) owners.
Proof.
  destruct (Ring.Owners (ring c) it key (writeQuorum c)) as [owners|] eqn:HO.
  2:{ unfold Set_. rewrite HO. split; [done|]. by intros (? & ? & _). }
  destruct (decide (owners = [])) as [->|Hne].
  { unfold Set_. rewrite HO. split; [done|]. by intros (? & [= <-] & ? & _). }
  rewrite (Set_owners c net it key value ttl owners HO Hne).
  pose proof (Owners_length_le _ _ _ _ _ HO Hne) as [_ Hlen].
  pose proof (quorum_all (fun o => setToNode c net (Ring.ID o) key value ttl)
                         owners (writeQuorum c) Hlen) as HQ.
  assert (HF : Forall (fun o => is_ok (setToNode c net (Ring.ID o) key value ttl) = true)
                      owners
               <-> Forall (fun o => set_ack c net key value ttl o = true) owners).
  { apply Forall_iff. intros o. by rewrite setToNode_ok. }
  rewrite HF in HQ. destruct (successes _ >=? _); split.
  - intros _. exists owners. destruct HQ as [[? ?] _]; done.
  - done.
  - done.
  - intros (? & [= <-] & _ & ? & ?). destruct HQ as [_ HQ]. by discriminate HQ.
Qed.

Lemma Get_others_Ok c net key owners value :
  Get_others c net key owners = Ok value ->
  exists o, o ∈ owners /\ getFromNode c net (Ring.ID o) key = Ok value.
Proof.
  induction owners as [|o owners IH]; simpl; [done|].
  destruct (getFromNode c net (Ring.ID o) key) as [v|] eqn:E.
  - intros [= ->]. exists o. split; [by left|done].
  - intros H. destruct (IH H) as (o' & Ho' & E'). exists o'. split; [by right|done].
Qed.

Lemma Get_others_Err c net key owners msg :
  Get_others c net key owners = Err msg -> msg = "failed to get key from any node".
Proof.
  induction owners as [|o owners IH]; simpl; [by intros [= <-]|].
  by destruct (getFromNode c net (Ring.ID o) key).
Qed.

Lemma getFromNodeWithRetry_Ok (r : rpc GetResponse) value :
  getFromNodeWithRetry r = Ok value <->
  exists resp, r = Reply resp /\ Found resp = true /\ Value resp = value.
Proof.
  unfold getFromNodeWithRetry. destruct r as [resp|msg].
  - destruct (Found resp) eqn:F; simpl; split.
    + intros [= <-]. by exists resp.
    + intros (resp' & [= <-] & _ & <-). done.
    + done.
    + intros (resp' & [= <-] & ? & _). congruence.
  - split; [done|]. by intros (resp & ? & _).
Qed.

(** The membership calls keep every node under its own identity and
    every connection on a node of the ring, and leave the settings. *)
Lemma run_membership ops : forall c,
  Ring.wf (ring c) ->
  (forall id, id ∈ connections c -> is_Some (Ring.nodes (ring c) !! id)) ->
  Ring.wf (ring (run ops c)) /\
  (forall id, id ∈ connections (run ops c) ->
              is_Some (Ring.nodes (ring (run ops c)) !! id)) /\
  readQuorum (run ops c) = readQuorum c /\
  writeQuorum (run ops c) = writeQuorum c /\
  hedgeTimeout (run ops c) = hedgeTimeout c.
Proof.
  induction ops as [|o ops IH]; intros c Hwf Hconn; [done|].
  change (run (o :: ops) c) with (run ops (apply_op o c)).
  assert (H : Ring.wf (ring (apply_op o c)) /\
              (forall id, id ∈ connections (apply_op o c) ->
                          is_Some (Ring.nodes (ring (apply_op o c)) !! id)) /\
              readQuorum (apply_op o c) = readQuorum c /\
              writeQuorum (apply_op o c) = writeQuorum c /\
              hedgeTimeout (apply_op o c) = hedgeTimeout c).
  { destruct o as [id addr [[]|msg]|id|]; simpl.
    - split; [by apply wf_AddNode|]. split; [|done].
      intros id' [->%elem_of_singleton|Hin]%elem_of_union.
      + rewrite lookup_insert_eq. by eexists.
      + rewrite lookup_insert. case_decide; [by eexists|by apply Hconn].
    - split; [by apply wf_AddNode|]. split; [|done].
      intros id' Hin. rewrite lookup_insert. case_decide; [by eexists|by apply Hconn].
    - split; [by apply wf_RemoveNode|]. split; [|done].
      intros id' [Hin Hne%not_elem_of_singleton]%elem_of_difference.
      rewrite lookup_delete_ne by done. by apply Hconn.
    - split; [done|]. split; [|done]. intros id' Hin. by apply elem_of_empty in Hin. }
  destruct H as (Hwf' & Hconn' & <- & <- & <-). by apply IH.
Qed.
End client_further_facts.

Section client_further_theorems.
Import Client.
Local Open Scope string_scope.
Implicit Types (c : Client) (net : Net) (it owners : list Ring.Node) (key : string).

(** X15.  Whatever membership calls ([AddNode] with a dial that succeeds
    or fails, [RemoveNode], [Close]) a new client has gone through: every
    node of its ring is stored under its own identity, every connection
    belongs to a node of the ring, so that [GetStats] never reports more
    connections than nodes, and the quorums are those of the
    configuration. *)
Theorem client_connections_within_ring (config : Config) (ops : list op) :
  Ring.wf (ring (run ops (NewClient config))) /\
  (forall id, id ∈ connections (run ops (NewClient config)) ->
              is_Some (Ring.nodes (ring (run ops (NewClient config))) !! id)) /\
  stat_connections (GetStats (run ops (NewClient config)))
    <= stat_nodes (GetStats (run ops (NewClient config))) /\
  stat_read_quorum (GetStats (run ops (NewClient config))) = ReadQuorum config /\
  stat_write_quorum (GetStats (run ops (NewClient config))) = WriteQuorum config.
Proof.
  destruct (run_membership ops (NewClient config)) as (Hwf & Hconn & HR & HW & _).
  { apply wf_NewRing. }
  { intros id Hin. by apply elem_of_empty in Hin. }
  split; [done|]. split; [done|]. split; [|done].
  unfold GetStats, Ring.NodeCount. simpl.
  rewrite <- (size_dom (D := gset string)). apply inj_le, subseteq_size.
  intros id Hin. apply elem_of_dom. by apply Hconn.
Qed.

(** X16.  [Set] and [Delete] succeed only with the acknowledgement of
    every owner: the call returns [nil] exactly when [Owners] returns as
    many owners as the write quorum (at least one), each of them is
    connected, and each replies [success] (or [deleted]) true.  One
    owner that is unreachable, or one replica that never held the key to
    delete, fails the call. *)
Theorem write_quorum_needs_every_owner c net it key value ttl :
  (Set_ c net it key value ttl = Some (Ok tt) <->
   exists owners,
     Ring.Owners (ring c) it key (writeQuorum c) = Some owners /\ owners <> [] /\
     Z.of_nat (length owners) = writeQuorum c /\
     Forall (fun o => set_ack c net key value ttl o = true) owners) /\
  (Delete c net it key = Some (Ok tt) <->
   exists owners,
     Ring.Owners (ring c) it key (writeQuorum c) = Some owners /\ owners <> [] /\
     Z.of_nat (length owners) = writeQuorum c /\
     Forall (fun o => delete_ack c net key o = true) owners).
Proof.
  split; [apply Set_Ok_iff|].
  destruct (Ring.Owners (ring c) it key (writeQuorum c)) as [owners|] eqn:HO.
  2:{ unfold Delete. rewrite HO. split; [done|]. by intros (? & ? & _). }
  destruct (decide (owners = [])) as [->|Hne].
  { unfold Delete. rewrite HO. split; [done|]. by intros (? & [= <-] & ? & _). }
  rewrite (Delete_owners c net it key owners HO Hne).
  pose proof (Owners_length_le _ _ _ _ _ HO Hne) as [_ Hlen].
  pose proof (quorum_all (fun o => deleteFromNode c net (Ring.ID o) key)
                         owners (writeQuorum c) Hlen) as HQ.
  assert (HF : Forall (fun o => is_ok (deleteFromNode c net (Ring.ID o) key) = true) owners
               <-> Forall (fun o => delete_ack c net key o = true) owners).
  { apply Forall_iff. intros o. by rewrite deleteFromNode_ok. }
  rewrite HF in HQ. destruct (successes _ >=? _); split.
  - intros _. exists owners. destruct HQ as [[? ?] _]; done.
  - done.
  - done.
  - intros (? & [= <-] & _ & ? & ?). destruct HQ as [_ HQ]. by discriminate HQ.
Qed.

(** X17.  A value [Get] returns was sent by a replica: by an owner of the
    key that is connected and answered [found] with this value, to the
    first request or, with hedging armed, to the hedged one in time. *)
Theorem Get_value_provenance c net it key value :
  Get c net it key = Some (Ok value) ->
  exists owners o,
    Ring.Owners (ring c) it key (readQuorum c) = Some owners /\ o ∈ owners /\
    Ring.ID o ∈ connections c /\
    ((exists resp, rpc_Get net (Ring.ID o) key = Reply resp /\
                   Found resp = true /\ Value resp = value) \/
     (0 < hedgeTimeout c /\ hedge_in_time net (Ring.ID o) = true /\
      exists resp, rpc_Get_hedge net (Ring.ID o) key = Reply resp /\
                   Found resp = true /\ Value resp = value)).
Proof.
  rewrite Get_unfold.
  destruct (Ring.Owners (ring c) it key (readQuorum c)) as [owners|]; [|done].
  simpl. intros [= H]. exists owners.
  assert (H' : Get_others c net key owners = Ok value) by by destruct owners.
  apply Get_others_Ok in H' as (o & Ho & E). exists o.
  split; [done|]. split; [done|].
  unfold getFromNode, getConnection in E. case_decide as Hc; [|done].
  split; [done|].
  destruct (Z.gtb_spec (hedgeTimeout c) 0) as [Hh|Hh].
  - destruct (getFromNodeWithRetry (rpc_Get net (Ring.ID o) key)) as [v|] eqn:E1.
    + left. apply getFromNodeWithRetry_Ok. congruence.
    + right. split; [lia|].
      destruct (getFromNodeWithRetry (rpc_Get_hedge net (Ring.ID o) key)) as [v|] eqn:E2;
        [|done].
      destruct (hedge_in_time net (Ring.ID o)); [|done].
      split; [done|]. apply getFromNodeWithRetry_Ok. congruence.
  - left. by apply getFromNodeWithRetry_Ok.
Qed.

Lemma Get_value_provenance_witness :
  Get client3 net_only_node2 (Ring.members Ring.ring3) "test-key"
  = Some (Ok ["v"%byte]) /\
  exists owners o,
    Ring.Owners (ring client3) (Ring.members Ring.ring3) "test-key"
                (readQuorum client3) = Some owners /\ o ∈ owners /\
    Ring.ID o ∈ connections client3 /\
    ((exists resp, rpc_Get net_only_node2 (Ring.ID o) "test-key" = Reply resp /\
                   Found resp = true /\ Value resp = ["v"%byte]) \/
     (0 < hedgeTimeout client3 /\ hedge_in_time net_only_node2 (Ring.ID o) = true /\
      exists resp, rpc_Get_hedge net_only_node2 (Ring.ID o) "test-key" = Reply resp /\
                   Found resp = true /\ Value resp = ["v"%byte])).
Proof.
  split; [by vm_compute|]. apply Get_value_provenance. by vm_compute.
Defined.

(** X18.  The error "no nodes available" comes exactly when the ring is
    empty or the quorum the call uses is 0: from [Get] for the read
    quorum, from [Set] and [Delete] for the write quorum. *)
Theorem no_nodes_available_iff c net it key value ttl :
  Ring.range_order (ring c) it ->
  (Get c net it key = Some (Err "no nodes available")
   <-> Ring.nodes (ring c) = ∅ \/ readQuorum c = 0) /\
  (Set_ c net it key value ttl = Some (Err "no nodes available")
   <-> Ring.nodes (ring c) = ∅ \/ writeQuorum c = 0) /\
  (Delete c net it key = Some (Err "no nodes available")
   <-> Ring.nodes (ring c) = ∅ \/ writeQuorum c = 0).
Proof.
  intros Hit.
  assert (HE : forall n, Ring.Owners (ring c) it key n = Some []
                         <-> Ring.nodes (ring c) = ∅ \/ n = 0).
  { intros n. by apply Owners_nil_iff. }
  split; [|split].
  - rewrite <- HE, Get_unfold.
    destruct (Ring.Owners (ring c) it key (readQuorum c)) as [[|o owners]|]; simpl;
      [done| |done].
    split; [|done]. intros [= H].
    apply (Get_others_Err c net key (o :: owners)) in H. done.
  - rewrite <- HE. unfold Set_.
    destruct (Ring.Owners (ring c) it key (writeQuorum c)) as [[|o owners]|]; simpl;
      [done| |done].
    split; [|done]. by destruct (_ >=? _).
  - rewrite <- HE. unfold Delete.
    destruct (Ring.Owners (ring c) it key (writeQuorum c)) as [[|o owners]|]; simpl;
      [done| |done].
    split; [|done]. by destruct (_ >=? _).
Qed.

Lemma no_nodes_available_iff_witness :
  Ring.range_order (ring client3) (Ring.members Ring.ring3) /\
  (Get client3 net_all_ok (Ring.members Ring.ring3) "test-key"
   = Some (Err "no nodes available")
   <-> Ring.nodes (ring client3) = ∅ \/ readQuorum client3 = 0) /\
  (Set_ client3 net_all_ok (Ring.members Ring.ring3) "test-key" ["v"%byte] 0
   = Some (Err "no nodes available")
   <-> Ring.nodes (ring client3) = ∅ \/ writeQuorum client3 = 0) /\
  (Delete client3 net_all_ok (Ring.members Ring.ring3) "test-key"
   = Some (Err "no nodes available")
   <-> Ring.nodes (ring client3) = ∅ \/ writeQuorum client3 = 0).
Proof.
  split; [unfold Ring.range_order, Ring.members; reflexivity|].
  apply no_nodes_available_iff. unfold Ring.range_order, Ring.members; reflexivity.
Defined.

(** X19.  After [Close] the ring still has its nodes but no owner can be
    reached: with quorums of at least 1 and a ring that is not empty,
    [Get], [Set] and [Delete] fail whatever the replicas would answer,
    with the errors of a failed read and of a missed quorum, not with "no
    nodes available". *)
Theorem Close_fails_every_call c net it key value ttl :
  Ring.range_order (ring c) it -> Ring.nodes (ring c) <> ∅ ->
  1 <= readQuorum c -> 1 <= writeQuorum c ->
  Get (Close c) net it key = Some (Err "failed to get key from any node") /\
  Set_ (Close c) net it key value ttl = Some (Err "failed to write to quorum of nodes") /\
  Delete (Close c) net it key = Some (Err "failed to delete from quorum of nodes").
Proof.
  intros Hit Hne HR HW. apply map_size_non_empty_iff in Hne.
  assert (HO : forall n, 1 <= n -> exists o owners,
               Ring.Owners (ring c) it key n = Some (o :: owners)).
  { intros n Hn. rewrite Owners_nonneg by lia.
    destruct (take _ _) as [|o owners] eqn:E; [|by exists o, owners].
    apply (f_equal length) in E.
    rewrite length_take, (length_ranking key _ it Hit) in E. simpl in E. lia. }
  assert (Hset : forall o, is_ok (setToNode (Close c) net (Ring.ID o) key value ttl) = false).
  { intros o. unfold setToNode, getConnection. simpl. by rewrite decide_False. }
  assert (Hdel : forall o, is_ok (deleteFromNode (Close c) net (Ring.ID o) key) = false).
  { intros o. unfold deleteFromNode, getConnection. simpl. by rewrite decide_False. }
  split; [|split].
  - destruct (HO _ HR) as (o & owners & E). rewrite Get_unfold. simpl. rewrite E. simpl.
    f_equal. apply (Get_others_all_fail _ _ _ (o :: owners)). intros o' _.
    unfold getFromNode, getConnection. simpl. by rewrite decide_False.
  - destruct (HO _ HW) as (o & owners & E).
    rewrite (Set_owners (Close c) net it key value ttl (o :: owners)) by done.
    rewrite (successes_none (fun o => setToNode (Close c) net (Ring.ID o) key value ttl))
      by done.
    change (writeQuorum (Close c)) with (writeQuorum c).
    destruct (Z.geb_spec 0 (writeQuorum c)); [lia|done].
  - destruct (HO _ HW) as (o & owners & E).
    rewrite (Delete_owners (Close c) net it key (o :: owners)) by done.
    rewrite (successes_none (fun o => deleteFromNode (Close c) net (Ring.ID o) key))
      by done.
    change (writeQuorum (Close c)) with (writeQuorum c).
    destruct (Z.geb_spec 0 (writeQuorum c)); [lia|done].
Qed.

Lemma Close_fails_every_call_witness :
  Ring.range_order (ring client3) (Ring.members Ring.ring3) /\
  Ring.nodes (ring client3) <> ∅ /\
  1 <= readQuorum client3 /\ 1 <= writeQuorum client3 /\
  Get (Close client3) net_all_ok (Ring.members Ring.ring3) "test-key"
  = Some (Err "failed to get key from any node") /\
  Set_ (Close client3) net_all_ok (Ring.members Ring.ring3) "test-key" ["v"%byte] 0
  = Some (Err "failed to write to quorum of nodes") /\
  Delete (Close client3) net_all_ok (Ring.members Ring.ring3) "test-key"
  = Some (Err "failed to delete from quorum of nodes").
Proof.
  assert (R : Ring.range_order (ring client3) (Ring.members Ring.ring3))
    by (unfold Ring.range_order, Ring.members; reflexivity).
  assert (N : Ring.nodes (ring client3) <> ∅).
  { intros E. apply (f_equal (fun m => m !! "node1")) in E. by vm_compute in E. }
  split; [exact R|]. split; [exact N|]. split; [by vm_compute|]. split; [by vm_compute|].
  apply (Close_fails_every_call client3 net_all_ok _ "test-key" _ _ R N); by vm_compute.
Defined.

(** X20.  After [RemoveNode id], on a client that membership calls have
    led to, no call depends on the node [id]: on any two networks that
    differ only in what [id] would answer, [Get], [Set] and [Delete]
    return the same. *)
Theorem RemoveNode_node_not_contacted (config : Config) (ops : list op) id
    net1 net2 it key value ttl :
  agree_off id net1 net2 ->
  Ring.range_order (ring (RemoveNode id (run ops (NewClient config)))) it ->
  Get (RemoveNode id (run ops (NewClient config))) net1 it key
  = Get (RemoveNode id (run ops (NewClient config))) net2 it key /\
  Set_ (RemoveNode id (run ops (NewClient config))) net1 it key value ttl
  = Set_ (RemoveNode id (run ops (NewClient config))) net2 it key value ttl /\
  Delete (RemoveNode id (run ops (NewClient config))) net1 it key
  = Delete (RemoveNode id (run ops (NewClient config))) net2 it key.
Proof.
  intros Hnet Hit.
  destruct (run_membership ops (NewClient config)) as (Hwf & _).
  { apply wf_NewRing. }
  { intros id' Hin. by apply elem_of_empty in Hin. }
  set (c := run ops (NewClient config)) in *.
  assert (Hown : forall n owners o,
             Ring.Owners (ring (RemoveNode id c)) it key n = Some owners ->
             o ∈ owners -> Ring.ID o <> id).
  { intros n owners o HO Ho. eapply members_RemoveNode; [exact Hwf|].
    by eapply Owners_elem_of. }
  split; [|split].
  - rewrite !Get_unfold.
    destruct (Ring.Owners _ it key (readQuorum _)) as [owners|] eqn:HO; [|done].
    simpl. f_equal. destruct owners as [|o owners'] eqn:E; [done|]. rewrite <- E in *.
    apply Get_others_ext. intros o' Ho'.
    destruct (Hnet (Ring.ID o') (Hown _ _ _ HO Ho')) as (HG & HH & HT & _).
    apply getFromNode_agree; [done|done|]. intros _. by rewrite HG, HH, HT.
  - unfold Set_.
    destruct (Ring.Owners _ it key (writeQuorum _)) as [owners|] eqn:HO; [|done].
    simpl. destruct owners as [|o owners'] eqn:E; [done|]. rewrite <- E in *.
    replace (map (fun o => setToNode (RemoveNode id c) net1 (Ring.ID o) key value ttl) owners)
      with (map (fun o => setToNode (RemoveNode id c) net2 (Ring.ID o) key value ttl) owners);
      [done|].
    apply map_ext_in. intros o' Ho'%list_elem_of_In.
    destruct (Hnet (Ring.ID o') (Hown _ _ _ HO Ho')) as (_ & _ & _ & HS & _).
    unfold setToNode. by rewrite HS.
  - unfold Delete.
    destruct (Ring.Owners _ it key (writeQuorum _)) as [owners|] eqn:HO; [|done].
    simpl. destruct owners as [|o owners'] eqn:E; [done|]. rewrite <- E in *.
    replace (map (fun o => deleteFromNode (RemoveNode id c) net1 (Ring.ID o) key) owners)
      with (map (fun o => deleteFromNode (RemoveNode id c) net2 (Ring.ID o) key) owners);
      [done|].
    apply map_ext_in. intros o' Ho'%list_elem_of_In.
    destruct (Hnet (Ring.ID o') (Hown _ _ _ HO Ho')) as (_ & _ & _ & _ & HD).
    unfold deleteFromNode. by rewrite HD.
Qed.

Lemma RemoveNode_node_not_contacted_witness :
  agree_off "node3" net_all_ok net_node3_down /\
  Ring.range_order
    (ring (RemoveNode "node3" (run three_nodes (NewClient (mkConfig 2 2 0)))))
    (Ring.members Ring.ring2) /\
  Get (RemoveNode "node3" (run three_nodes (NewClient (mkConfig 2 2 0))))
      net_all_ok (Ring.members Ring.ring2) "test-key"
  = Get (RemoveNode "node3" (run three_nodes (NewClient (mkConfig 2 2 0))))
        net_node3_down (Ring.members Ring.ring2) "test-key" /\
  Set_ (RemoveNode "node3" (run three_nodes (NewClient (mkConfig 2 2 0))))
       net_all_ok (Ring.members Ring.ring2) "test-key" ["v"%byte] 0
  = Set_ (RemoveNode "node3" (run three_nodes (NewClient (mkConfig 2 2 0))))
         net_node3_down (Ring.members Ring.ring2) "test-key" ["v"%byte] 0 /\
  Delete (RemoveNode "node3" (run three_nodes (NewClient (mkConfig 2 2 0))))
         net_all_ok (Ring.members Ring.ring2) "test-key"
  = Delete (RemoveNode "node3" (run three_nodes (NewClient (mkConfig 2 2 0))))
           net_node3_down (Ring.members Ring.ring2) "test-key".
Proof.
  assert (A : agree_off "node3" net_all_ok net_node3_down).
  { intros id' Hne. apply String.eqb_neq in Hne. simpl. rewrite Hne. done. }
  assert (R : Ring.range_order
                (ring (RemoveNode "node3" (run three_nodes (NewClient (mkConfig 2 2 0)))))
                (Ring.members Ring.ring2)).
  { unfold Ring.range_order. apply (bool_decide_unpack _). by vm_compute. }
  split; [exact A|]. split; [exact R|].
  apply (RemoveNode_node_not_contacted (mkConfig 2 2 0) three_nodes "node3" _ _ _
           "test-key" ["v"%byte] 0 A R).
Defined.

(** X21.  When the dial of [AddNode] fails the call returns an error,
    but the node is in the ring all the same, and the connections are
    left as they were.  So if the node had no connection before the
    call it has none after it, and then every [Set] and [Delete] of a
    key that has the node among its owners misses its quorum, whatever
    the replicas answer.  (A node that had a connection keeps it.) *)
Theorem failed_dial_blocks_writes c id addr msg net it key value ttl owners :
  is_ok (AddNode id addr (Err msg) c).2 = false /\
  Ring.nodes (ring (AddNode id addr (Err msg) c).1) !! id = Some (Ring.mkNode id addr) /\
  connections (AddNode id addr (Err msg) c).1 = connections c /\
  (id ∉ connections c ->
   Ring.Owners (ring (AddNode id addr (Err msg) c).1) it key
               (writeQuorum (AddNode id addr (Err msg) c).1) = Some owners ->
   id ∈ map Ring.ID owners ->
   Set_ (AddNode id addr (Err msg) c).1 net it key value ttl
   = Some (Err "failed to write to quorum of nodes") /\
   Delete (AddNode id addr (Err msg) c).1 net it key
   = Some (Err "failed to delete from quorum of nodes")).
Proof.
  split; [done|]. split; [apply lookup_insert_eq|]. split; [done|].
  intros Hid HO Hin.
  set (c' := (AddNode id addr (Err msg) c).1) in *.
  apply list_elem_of_fmap in Hin as (o & Ho & Hin).
  assert (Hne : owners <> []) by (intros ->; by apply elem_of_nil in Hin).
  pose proof (Owners_length_le _ _ _ _ _ HO Hne) as [_ Hlen].
  assert (Hfail : forall f : Ring.Node -> result unit, is_ok (f o) = false ->
             (successes (map f owners) >=? writeQuorum c') = false).
  { intros f Hf.
    pose proof (quorum_all f owners (writeQuorum c') Hlen) as HQ.
    destruct (successes (map f owners) >=? writeQuorum c'); [|done].
    destruct HQ as [[_ HQ] _]; [done|].
    rewrite Forall_forall in HQ. specialize (HQ o Hin). congruence. }
  split.
  - rewrite (Set_owners c' net it key value ttl owners) by done.
    rewrite Hfail; [done|].
    unfold setToNode, getConnection. rewrite <- Ho. simpl. by rewrite decide_False.
  - rewrite (Delete_owners c' net it key owners) by done.
    rewrite Hfail; [done|].
    unfold deleteFromNode, getConnection. rewrite <- Ho. simpl. by rewrite decide_False.
Qed.

Lemma failed_dial_blocks_writes_witness :
  ("node3" ∉ connections (run (take 2 three_nodes) (NewClient (mkConfig 2 3 0)))) /\
  Ring.Owners
    (ring (AddNode "node3" "localhost:8083" (Err "refused")
             (run (take 2 three_nodes) (NewClient (mkConfig 2 3 0)))).1)
    (Ring.members Ring.ring3) "test-key"
    (writeQuorum (AddNode "node3" "localhost:8083" (Err "refused")
                    (run (take 2 three_nodes) (NewClient (mkConfig 2 3 0)))).1)
  = Some [Ring.node1; Ring.node2; Ring.mkNode "node3" "localhost:8083"] /\
  "node3" ∈ map Ring.ID [Ring.node1; Ring.node2; Ring.mkNode "node3" "localhost:8083"] /\
  Set_ (AddNode "node3" "localhost:8083" (Err "refused")
          (run (take 2 three_nodes) (NewClient (mkConfig 2 3 0)))).1
       net_all_ok (Ring.members Ring.ring3) "test-key" ["v"%byte] 0
  = Some (Err "failed to write to quorum of nodes") /\
  Delete (AddNode "node3" "localhost:8083" (Err "refused")
            (run (take 2 three_nodes) (NewClient (mkConfig 2 3 0)))).1
         net_all_ok (Ring.members Ring.ring3) "test-key"
  = Some (Err "failed to delete from quorum of nodes").
Proof.
  assert (C : "node3" ∉ connections (run (take 2 three_nodes) (NewClient (mkConfig 2 3 0)))).
  { apply (bool_decide_unpack _). by vm_compute. }
  assert (I : "node3" ∈ map Ring.ID
                [Ring.node1; Ring.node2; Ring.mkNode "node3" "localhost:8083"]).
  { apply (bool_decide_unpack _). by vm_compute. }
  split; [exact C|]. split; [by vm_compute|]. split; [exact I|].
  destruct (failed_dial_blocks_writes
              (run (take 2 three_nodes) (NewClient (mkConfig 2 3 0)))
              "node3" "localhost:8083" "refused" net_all_ok
              (Ring.members Ring.ring3) "test-key" ["v"%byte] 0
              [Ring.node1; Ring.node2; Ring.mkNode "node3" "localhost:8083"])
    as (_ & _ & _ & H).
  apply H; [exact C|by vm_compute|exact I].
Defined.
End client_further_theorems.

(** ** The server: admission, load shedding and handlers *)

Section server_facts.
Import Server.
Context {A : Type}.
Implicit Types (s : Server A) (over : list A -> bool) (evs : list (event A))
               (req : request) (c : Cache.Cache).

Lemma run_app (ops ops' : list Cache.op) c :
  Cache.run (ops ++ ops') c = Cache.run ops c ≫= Cache.run ops'.
Proof.
  revert c. induction ops as [|o ops IH]; intros c; simpl; [done|].
  destruct (Cache.apply_op o c); simpl; [apply IH|done].
Qed.

(** On a cache that cache operations have led to, one more operation
    returns. *)
Lemma apply_op_total cap ops o c :
  Cache.run ops (Cache.NewCache cap) = Some c ->
  exists c', Cache.apply_op o c = Some c' /\
             Cache.run (ops ++ [o]) (Cache.NewCache cap) = Some c'.
Proof.
  intros Hrun. destruct (run_total cap (ops ++ [o])) as [c' Hc'].
  exists c'. split; [|done].
  rewrite run_app, Hrun in Hc'. simpl in Hc'.
  by destruct (Cache.apply_op o c).
Qed.

(** A handler never panics; it answers with a status only when the call
    is cancelled, and then leaves the cache alone. *)
Lemma handler_total cancelled req now cap ops c :
  Cache.run ops (Cache.NewCache cap) = Some c ->
  exists r c' ops',
    handler cancelled req now c = Some (r, c') /\
    Cache.run ops' (Cache.NewCache cap) = Some c' /\
    is_done r = negb cancelled /\ (cancelled = true -> c' = c).
Proof.
  intros Hrun. destruct cancelled.
  - exists (Status Canceled "request canceled"), c, ops. by destruct req.
  - destruct req as [key|key value ttl|key|]; simpl.
    + destruct (apply_op_total cap ops (Cache.OpGet key now) c Hrun) as (c' & E & Hrun').
      simpl in E. unfold Get. destruct (Cache.Get key now c) as [[[v f] c1]|]; [|done].
      simpl in *. injection E as ->. by eexists _, _, _.
    + destruct (apply_op_total cap ops
                  (Cache.OpSet key value (match ttl with Some d => d | None => 0 end) now)
                  c Hrun) as (c' & E & Hrun').
      simpl in E. unfold Set_. rewrite E. simpl. by eexists _, _, _.
    + destruct (apply_op_total cap ops (Cache.OpDelete key) c Hrun) as (c' & E & Hrun').
      simpl in E. unfold Delete. destruct (Cache.Delete key c) as [[b c1]|]; [|done].
      simpl in *. injection E as ->. by eexists _, _, _.
    + by exists (Done (HealthResponse true "healthy")), c, ops.
Qed.

(** One call on a server whose permits are all free. *)
Lemma unaryInterceptor_step over cancelled cancelled' req now s cap ops :
  semaphore s = NewWeighted (Server.size (semaphore s)) ->
  Cache.run ops (Cache.NewCache cap) = Some (cache s) ->
  exists r s' ops',
    unaryInterceptor over cancelled cancelled' req now s = Some (r, s') /\
    semaphore s' = semaphore s /\ cpuHistory s' = cpuHistory s /\
    windowSize s' = windowSize s /\
    Cache.run ops' (Cache.NewCache cap) = Some (cache s') /\
    (is_done r = false -> s' = s) /\
    (is_done r = true ->
     cancelled = false /\ cancelled' = false /\ shouldShedLoad over s = false /\
     1 <= Server.size (semaphore s) /\
     handler false req now (cache s) = Some (r, cache s')).
Proof.
  intros Hsem Hrun. unfold unaryInterceptor.
  destruct cancelled; [by exists (Status Canceled "request canceled"), s, ops|].
  destruct (shouldShedLoad over s);
    [by exists (Status Unavailable "server overloaded"), s, ops|].
  rewrite Hsem. unfold TryAcquire, NewWeighted. simpl. rewrite Z.sub_0_r.
  destruct (Z.geb_spec (Server.size (semaphore s)) 1) as [Hn|Hn];
    [|by exists (Status Unavailable "too many concurrent requests"), s, ops].
  destruct (handler_total cancelled' req now cap ops (cache s) Hrun)
    as (r & c' & ops' & E & Hrun' & Hdone & Hcanc).
  rewrite E. simpl. exists r. eexists. exists ops'. split; [done|]. simpl.
  split; [by rewrite Hsem|]. split; [done|]. split; [done|]. split; [done|]. split.
  - intros Hr. rewrite Hr in Hdone. destruct cancelled'; [|done].
    rewrite (Hcanc eq_refl). destruct s as [c0 sem h w]. simpl in *. by rewrite Hsem.
  - intros Hr. rewrite Hr in Hdone. destruct cancelled'; [done|].
    repeat split; [lia|done].
Qed.

(** One tick. *)
Lemma updateCPUUsage_step x s :
  0 <= windowSize s ->
  updateCPUUsage x s
  = Some (mkServer (cache s) (semaphore s)
            (drop (Z.to_nat (Z.of_nat (length (cpuHistory s)) + 1 - windowSize s))
                  (cpuHistory s ++ [x]))
            (windowSize s)).
Proof.
  intros Hw. unfold updateCPUUsage. cbv zeta. rewrite length_app. simpl length.
  rewrite Nat2Z.inj_add. change (Z.of_nat 1) with 1.
  destruct (Z.gtb_spec (Z.of_nat (length (cpuHistory s)) + 1) (windowSize s)) as [Hgt|Hle].
  - destruct (Z.ltb_spec (Z.of_nat (length (cpuHistory s)) + 1 - windowSize s) 0); [lia|].
    destruct (Z.gtb_spec (Z.of_nat (length (cpuHistory s)) + 1 - windowSize s)
                         (Z.of_nat (length (cpuHistory s)) + 1)); [lia|]. done.
  - replace (Z.to_nat _) with 0%nat by lia. done.
Qed.

Lemma updateCPUUsage_negative x s : windowSize s < 0 -> updateCPUUsage x s = None.
Proof.
  intros Hw. unfold updateCPUUsage. cbv zeta. rewrite length_app. simpl length.
  rewrite Nat2Z.inj_add. change (Z.of_nat 1) with 1.
  destruct (Z.gtb_spec (Z.of_nat (length (cpuHistory s)) + 1) (windowSize s)); [|lia].
  destruct (Z.ltb_spec (Z.of_nat (length (cpuHistory s)) + 1 - windowSize s) 0); [done|].
  destruct (Z.gtb_spec (Z.of_nat (length (cpuHistory s)) + 1 - windowSize s)
                       (Z.of_nat (length (cpuHistory s)) + 1)); [done|lia].
Qed.

(** The window slides: the last [w] of the samples seen, one more seen. *)
Lemma window_slide (seen : list A) (x : A) (w : Z) :
  0 <= w ->
  drop (Z.to_nat (Z.of_nat (length (drop (Z.to_nat (Z.of_nat (length seen) - w)) seen))
                  + 1 - w))
       (drop (Z.to_nat (Z.of_nat (length seen) - w)) seen ++ [x])
  = drop (Z.to_nat (Z.of_nat (length (seen ++ [x])) - w)) (seen ++ [x]).
Proof.
  intros Hw. rewrite length_drop, length_app. simpl length.
  destruct (Z.le_gt_cases (Z.of_nat (length seen)) w) as [Hle|Hgt].
  - replace (Z.to_nat (Z.of_nat (length seen) - w)) with 0%nat by lia.
    rewrite Nat.sub_0_r. simpl drop at 2. f_equal. lia.
  - replace (Z.to_nat (Z.of_nat (length seen - Z.to_nat (Z.of_nat (length seen) - w)) + 1 - w))
      with 1%nat by lia.
    replace (Z.to_nat (Z.of_nat (length seen + 1) - w))
      with (S (Z.to_nat (Z.of_nat (length seen) - w))) by lia.
    remember (Z.to_nat (Z.of_nat (length seen) - w)) as k eqn:Ek.
    assert (Hk : (k <= length seen)%nat) by lia.
    rewrite <- (drop_app_le seen [x] k) by done.
    by rewrite drop_drop, Nat.add_1_r.
Qed.

(** A run of events on a server whose permits are all free: it panics
    only at a tick with a negative window; otherwise the permits are all
    free again, every call has its answer, the cache is one that cache
    operations lead to, and the history is the end of the samples seen. *)
Lemma serve_run over evs : forall s seen cap ops,
  semaphore s = NewWeighted (Server.size (semaphore s)) ->
  Cache.run ops (Cache.NewCache cap) = Some (cache s) ->
  cpuHistory s = drop (Z.to_nat (Z.of_nat (length seen) - windowSize s)) seen ->
  (serve over evs s = None <-> windowSize s < 0 /\ exists x, Tick x ∈ evs) /\
  forall rs s', serve over evs s = Some (rs, s') ->
    semaphore s' = semaphore s /\ windowSize s' = windowSize s /\
    (length rs + length (omap sample_of evs) = length evs)%nat /\
    (exists ops', Cache.run ops' (Cache.NewCache cap) = Some (cache s')) /\
    cpuHistory s'
    = drop (Z.to_nat (Z.of_nat (length (seen ++ omap sample_of evs)) - windowSize s))
           (seen ++ omap sample_of evs) /\
    (Server.size (semaphore s) <= 0 ->
     Forall (fun r => is_done r = false) rs /\ cache s' = cache s).
Proof.
  induction evs as [|e evs IH]; intros s seen cap ops Hsem Hrun Hhist.
  - split.
    + split; [done|]. intros [_ [x Hx]]. by apply elem_of_nil in Hx.
    + intros rs s' [= <- <-]. simpl. rewrite app_nil_r.
      repeat split; try done. by exists ops.
  - destruct e as [x|cancelled cancelled' req now].
    + change (serve over (Tick x :: evs) s)
        with (updateCPUUsage x s ≫= serve over evs).
      change (omap sample_of (Tick x :: evs)) with (x :: omap sample_of evs).
      destruct (Z.lt_ge_cases (windowSize s) 0) as [Hneg|Hw].
      * rewrite updateCPUUsage_negative by done. simpl. split; [|done].
        split; [|done]. intros _. split; [done|]. exists x. by left.
      * rewrite updateCPUUsage_step by done. simpl.
        set (s1 := mkServer _ _ _ _).
        destruct (IH s1 (seen ++ [x]) cap ops) as [HN HS]; simpl; try done.
        { rewrite Hhist. by apply window_slide. }
        split.
        -- rewrite HN. simpl. split; intros [? _]; lia.
        -- intros rs s' E. destruct (HS rs s' E) as (H1 & H2 & H3 & H4 & H5 & H6).
           simpl in *. rewrite <- app_assoc in H5. simpl in H5.
           split; [done|]. split; [done|]. split; [lia|]. split; [done|].
           split; [done|]. exact H6.
    + change (serve over (Call cancelled cancelled' req now :: evs) s)
        with (r ← unaryInterceptor over cancelled cancelled' req now s;
              rs ← serve over evs r.2; Some (r.1 :: rs.1, rs.2)).
      change (omap sample_of (Call cancelled cancelled' req now :: evs))
        with (omap sample_of evs).
      destruct (unaryInterceptor_step over cancelled cancelled' req now s cap ops Hsem Hrun)
        as (r & s1 & ops1 & -> & Hsem1 & Hhist1 & Hw1 & Hrun1 & Hstat & Hdone).
      simpl.
      destruct (IH s1 seen cap ops1) as [HN HS].
      { by rewrite Hsem1. }
      { done. }
      { by rewrite Hhist1, Hw1. }
      rewrite Hw1, Hsem1 in *. split.
      * destruct (serve over evs s1) as [[rs s']|] eqn:E; simpl.
        -- split; [done|]. intros [Hneg [x Hx]]. exfalso.
           apply elem_of_cons in Hx as [Hx|Hx]; [done|].
           destruct HN as [_ HN]. by discriminate HN; [split; [|exists x]].
        -- split; [|done]. intros _. destruct HN as [[Hneg [x Hx]] _]; [done|].
           split; [done|]. exists x. by right.
      * intros rs s'. destruct (serve over evs s1) as [[rs1 s1']|] eqn:E; [|done].
        simpl. intros [= <- <-].
        destruct (HS rs1 s1' eq_refl) as (H1 & H2 & H3 & H4 & H5 & H6).
        split; [done|]. split; [done|]. split; [simpl; lia|]. split; [done|].
        split; [done|]. intros Hn. destruct (H6 Hn) as [HF ->].
        assert (Er : is_done r = false).
        { destruct (is_done r) eqn:Er; [|done].
          destruct (Hdone eq_refl) as (_ & _ & _ & ? & _). lia. }
        split; [by constructor|by rewrite (Hstat Er)].
Qed.

Lemma serve_NewServer over (config : Config) evs :
  (serve over evs (NewServer config) = None
   <-> CPUWindow_Seconds config < 0 /\ exists x, Tick x ∈ evs) /\
  forall rs s', serve over evs (NewServer config) = Some (rs, s') ->
    semaphore s' = NewWeighted (MaxConcurrent config) /\
    (length rs + length (omap sample_of evs) = length evs)%nat /\
    (exists ops', Cache.run ops' (Cache.NewCache (CacheCapacity config))
                  = Some (cache s')) /\
    cpuHistory s'
    = drop (Z.to_nat (Z.of_nat (length (omap sample_of evs)) - CPUWindow_Seconds config))
           (omap sample_of evs) /\
    (MaxConcurrent config <= 0 ->
     Forall (fun r => is_done r = false) rs /\
     cache s' = Cache.NewCache (CacheCapacity config)).
Proof.
  destruct (serve_run over evs (NewServer config) [] (CacheCapacity config) [])
    as [HN HS]; [done|done|by rewrite drop_nil|].
  split; [done|]. intros rs s' E.
  destruct (HS rs s' E) as (H1 & _ & H3 & H4 & H5 & H6). done.
Qed.

(** The semaphore along arrivals and returns. *)
Lemma admission_run (ms : list moment) : forall sem running,
  cur sem = Z.of_nat running -> Z.of_nat running <= Z.max 0 (Server.size sem) ->
  exists sem' running',
    admission ms sem running = Some (sem', running') /\
    cur sem' = Z.of_nat running' /\ Server.size sem' = Server.size sem /\
    Z.of_nat running' <= Z.max 0 (Server.size sem).
Proof.
  induction ms as [|m ms IH]; intros sem running Hcur Hle; simpl.
  - by exists sem, running.
  - destruct m.
    + unfold TryAcquire.
      destruct (Z.geb_spec (Server.size sem - cur sem) 1) as [Hfree|Hfull].
      * destruct (IH (mkWeighted (Server.size sem) (cur sem + 1)) (S running))
          as (sem' & running' & E & H1 & H2 & H3); simpl; [lia..|].
        exists sem', running'. by rewrite E.
      * by apply IH.
    + destruct running as [|k]; [by apply IH|].
      unfold Release. destruct (Z.ltb_spec (cur sem - 1) 0); [lia|]. simpl.
      destruct (IH (mkWeighted (Server.size sem) (cur sem - 1)) k)
        as (sem' & running' & E & H1 & H2 & H3); simpl; [lia..|].
      exists sem', running'. by rewrite E.
Qed.
End server_facts.

Section server_zero_window.
Import Server.
Context {A : Type}.
Implicit Types (s : Server A) (over : list A -> bool) (evs : list (event A)).

(** With an empty history that stays empty, the comparison with the
    threshold is never made. *)
Lemma serve_empty_history over over' evs : forall s,
  windowSize s = 0 -> cpuHistory s = [] ->
  serve over evs s = serve over' evs s /\
  forall rs s', serve over evs s = Some (rs, s') ->
    Status Unavailable "server overloaded" ∉ rs.
Proof.
  induction evs as [|e evs IH]; intros s Hw Hh.
  - split; [done|]. intros rs s' [= <- <-]. apply not_elem_of_nil.
  - destruct e as [x|cancelled cancelled' req now].
    + change (serve over (Tick x :: evs) s) with (updateCPUUsage x s ≫= serve over evs).
      change (serve over' (Tick x :: evs) s) with (updateCPUUsage x s ≫= serve over' evs).
      rewrite updateCPUUsage_step by lia. simpl. apply IH; simpl; [done|].
      rewrite Hh, Hw. done.
    + change (serve over (Call cancelled cancelled' req now :: evs) s)
        with (r ← unaryInterceptor over cancelled cancelled' req now s;
              rs ← serve over evs r.2; Some (r.1 :: rs.1, rs.2)).
      change (serve over' (Call cancelled cancelled' req now :: evs) s)
        with (r ← unaryInterceptor over' cancelled cancelled' req now s;
              rs ← serve over' evs r.2; Some (r.1 :: rs.1, rs.2)).
      assert (HU : forall ov,
                 unaryInterceptor ov cancelled cancelled' req now s
                 = unaryInterceptor (fun _ => false) cancelled cancelled' req now s).
      { intros ov. unfold unaryInterceptor, shouldShedLoad. by rewrite Hh. }
      rewrite (HU over), (HU over').
      destruct (unaryInterceptor (fun _ => false) cancelled cancelled' req now s)
        as [[r s1]|] eqn:E; [|done]. simpl.
      assert (Hs1 : windowSize s1 = 0 /\ cpuHistory s1 = [] /\
                    r <> Status Unavailable "server overloaded").
      { unfold unaryInterceptor, shouldShedLoad in E. rewrite Hh in E. simpl in E.
        destruct cancelled; [by injection E as <- <-|].
        destruct (TryAcquire 1 (semaphore s)) as [[] sem]; [|by injection E as <- <-].
        destruct (handler cancelled' req now (cache s)) as [[r' c']|] eqn:Eh; [|done].
        simpl in E. destruct (Release 1 sem); [|done]. simpl in E.
        injection E as <- <-. simpl. split; [done|]. split; [done|].
        destruct cancelled'; destruct req; simpl in Eh;
          repeat (match type of Eh with
                  | context [Cache.Get ?k ?n ?c] => destruct (Cache.Get k n c)
                  | context [Cache.Set_ ?k ?v ?t ?n ?c] => destruct (Cache.Set_ k v t n c)
                  | context [Cache.Delete ?k ?c] => destruct (Cache.Delete k c)
                  end; simpl in Eh);
          try done; by injection Eh as <- <-. }
      destruct Hs1 as (Hw1 & Hh1 & Hr).
      destruct (IH s1 Hw1 Hh1) as [-> HS]. split; [done|].
      intros rs s'. destruct (serve over' evs s1) as [[rs1 s1']|] eqn:E1; [|done].
      simpl. intros [= <- <-]. rewrite not_elem_of_cons. split; [done|].
      destruct (IH s1 Hw1 Hh1) as [E2 HS2]. apply (HS2 rs1 s1'). by rewrite E2.
Qed.
End server_zero_window.

Section server_theorems.
Import Server.
Local Open Scope string_scope.

(** X22.  However requests arrive and return, the semaphore holds as
    many permits as there are admitted requests that have not returned,
    never more than [MaxConcurrent] (none at all when it is zero or
    negative), and the deferred [Release] never panics. *)
Theorem admission_within_limit (MaxConcurrent : Z) (ms : list moment) :
  exists sem running,
    admission ms (NewWeighted MaxConcurrent) 0 = Some (sem, running) /\
    cur sem = Z.of_nat running /\
    Z.of_nat running <= Z.max 0 MaxConcurrent /\
    Server.size sem = MaxConcurrent.
Proof.
  destruct (admission_run ms (NewWeighted MaxConcurrent) 0)
    as (sem & running & E & H1 & H2 & H3); simpl; [done|lia|].
  by exists sem, running.
Qed.

(** X23.  A server panics only in one way: a run of ticks and calls on a
    new server fails to complete exactly when the CPU window is negative
    (in whole seconds) and the ticker fires, the slice of the history
    being taken out of range.  No call ever panics. *)
Theorem serve_panics_iff {A} (over : list A -> bool) (config : Config)
    (evs : list (event A)) :
  serve over evs (NewServer config) = None
  <-> CPUWindow_Seconds config < 0 /\ exists x, Tick x ∈ evs.
Proof.
  by destruct (serve_NewServer over config evs) as [H _].
Qed.

(** X24.  After a run of ticks and calls on a new server that were
    served one after the other: every permit of the semaphore is free
    again, every call has got exactly one answer, and the cache is in a
    state that cache operations lead to from a new cache of the
    configured capacity. *)
Theorem serve_releases_permits {A} (over : list A -> bool) (config : Config)
    (evs : list (event A)) rs s :
  serve over evs (NewServer config) = Some (rs, s) ->
  semaphore s = NewWeighted (MaxConcurrent config) /\
  (length rs + length (omap sample_of evs) = length evs)%nat /\
  exists ops, Cache.run ops (Cache.NewCache (CacheCapacity config)) = Some (cache s).
Proof.
  intros E. destruct (serve_NewServer over config evs) as [_ H].
  by destruct (H rs s E) as (H1 & H3 & H4 & _).
Qed.

Lemma serve_releases_permits_witness :
  serve (fun _ => false) some_events (NewServer test_config)
  = Some (default ([], NewServer test_config)
            (serve (fun _ => false) some_events (NewServer test_config))) /\
  semaphore (default ([], NewServer test_config)
               (serve (fun _ => false) some_events (NewServer test_config))).2
  = NewWeighted (MaxConcurrent test_config) /\
  (length (default ([], NewServer test_config)
             (serve (fun _ => false) some_events (NewServer test_config))).1
   + length (omap sample_of some_events) = length some_events)%nat /\
  exists ops,
    Cache.run ops (Cache.NewCache (CacheCapacity test_config))
    = Some (cache (default ([], NewServer test_config)
                     (serve (fun _ => false) some_events (NewServer test_config))).2).
Proof.
  split; [by vm_compute|].
  apply (serve_releases_permits (fun _ => false) test_config some_events). by vm_compute.
Defined.

(** X25.  The history of CPU samples is a sliding window: after a run of
    ticks and calls on a new server it holds the last samples taken, as
    many as the window has whole seconds (all of them while they are
    fewer), in the order they were taken. *)
Theorem cpuHistory_is_sliding_window {A} (over : list A -> bool) (config : Config)
    (evs : list (event A)) rs s :
  serve over evs (NewServer config) = Some (rs, s) ->
  cpuHistory s
  = drop (Z.to_nat (Z.of_nat (length (omap sample_of evs)) - CPUWindow_Seconds config))
         (omap sample_of evs).
Proof.
  intros E. destruct (serve_NewServer over config evs) as [_ H].
  by destruct (H rs s E) as (_ & _ & _ & H5 & _).
Qed.

Lemma cpuHistory_is_sliding_window_witness :
  serve (fun _ => false) [Tick 1; Tick 2; Tick 3] (NewServer (mkConfig 10 10 2))
  = Some ([], mkServer (Cache.NewCache 10) (NewWeighted 10) [2; 3] 2) /\
  cpuHistory (mkServer (Cache.NewCache 10) (NewWeighted 10) [2; 3] 2)
  = drop (Z.to_nat (Z.of_nat (length (omap sample_of [Tick 1; Tick 2; Tick 3]))
                    - CPUWindow_Seconds (mkConfig 10 10 2)))
         (omap sample_of [Tick 1; Tick 2; Tick 3]).
Proof.
  split; [by vm_compute|].
  apply (cpuHistory_is_sliding_window (fun _ => false) (mkConfig 10 10 2)
           [Tick 1; Tick 2; Tick 3] []). by vm_compute.
Defined.

(** X26.  With a CPU window of less than one second the history stays
    empty and load shedding is off: no call is answered "server
    overloaded", and the run is the same whatever the threshold and the
    samples are compared with. *)
Theorem zero_window_never_sheds {A} (over over' : list A -> bool) (config : Config)
    (evs : list (event A)) :
  CPUWindow_Seconds config = 0 ->
  serve over evs (NewServer config) = serve over' evs (NewServer config) /\
  forall rs s, serve over evs (NewServer config) = Some (rs, s) ->
    Status Unavailable "server overloaded" ∉ rs.
Proof. intros Hw. by apply serve_empty_history. Qed.

Lemma zero_window_never_sheds_witness :
  CPUWindow_Seconds (mkConfig 1000 100 0) = 0 /\
  serve (fun _ => true) some_events (NewServer (mkConfig 1000 100 0))
  = serve (fun _ => false) some_events (NewServer (mkConfig 1000 100 0)) /\
  forall rs s,
    serve (fun _ => true) some_events (NewServer (mkConfig 1000 100 0)) = Some (rs, s) ->
    Status Unavailable "server overloaded" ∉ rs.
Proof.
  split; [done|]. by apply zero_window_never_sheds.
Defined.

(** X27.  With [MaxConcurrent] zero or negative no call reaches a
    handler: every call is answered with a status and the cache stays as
    new. *)
Theorem no_permits_rejects_everything {A} (over : list A -> bool) (config : Config)
    (evs : list (event A)) rs s :
  MaxConcurrent config <= 0 ->
  serve over evs (NewServer config) = Some (rs, s) ->
  Forall (fun r => is_done r = false) rs /\
  cache s = Cache.NewCache (CacheCapacity config).
Proof.
  intros Hn E. destruct (serve_NewServer over config evs) as [_ H].
  destruct (H rs s E) as (_ & _ & _ & _ & H6). by apply H6.
Qed.

Lemma no_permits_rejects_everything_witness :
  MaxConcurrent (mkConfig 1000 0 10) <= 0 /\
  serve (fun _ => false) some_events (NewServer (mkConfig 1000 0 10))
  = Some (default ([], NewServer (mkConfig 1000 0 10))
            (serve (fun _ => false) some_events (NewServer (mkConfig 1000 0 10)))) /\
  Forall (fun r => is_done r = false)
    (default ([], NewServer (mkConfig 1000 0 10))
       (serve (fun _ => false) some_events (NewServer (mkConfig 1000 0 10)))).1 /\
  cache (default ([], NewServer (mkConfig 1000 0 10))
           (serve (fun _ => false) some_events (NewServer (mkConfig 1000 0 10)))).2
  = Cache.NewCache (CacheCapacity (mkConfig 1000 0 10)).
Proof.
  split; [done|]. split; [by vm_compute|].
  apply (no_permits_rejects_everything (fun _ => false) (mkConfig 1000 0 10) some_events);
    [done|by vm_compute].
Defined.

(** X28.  A call that is answered with a status (cancelled, shed, over
    the limit, or cancelled by the time the handler looks) changes
    nothing: the server is afterwards as it was, cache and semaphore
    included. *)
Theorem status_reply_changes_nothing {A} (over : list A -> bool) (config : Config)
    (evs : list (event A)) rs s cancelled cancelled' req now code msg s' :
  serve over evs (NewServer config) = Some (rs, s) ->
  unaryInterceptor over cancelled cancelled' req now s = Some (Status code msg, s') ->
  s' = s.
Proof.
  intros E EU. destruct (serve_NewServer over config evs) as [_ H].
  destruct (H rs s E) as (H1 & _ & [ops Hops] & _).
  destruct (unaryInterceptor_step over cancelled cancelled' req now s
              (CacheCapacity config) ops)
    as (r & s1 & ops1 & EU' & _ & _ & _ & _ & Hstat & _); [by rewrite H1|done|].
  rewrite EU in EU'. injection EU' as <- <-. by apply Hstat.
Qed.

Lemma status_reply_changes_nothing_witness :
  serve (fun _ => false) some_events (NewServer test_config)
  = Some (default ([], NewServer test_config)
            (serve (fun _ => false) some_events (NewServer test_config))) /\
  unaryInterceptor (fun _ => false) false true (SetRequest "k" ["w"%byte] None) 60
    (default ([], NewServer test_config)
       (serve (fun _ => false) some_events (NewServer test_config))).2
  = Some (Status Canceled "request canceled",
          (default ([], NewServer test_config)
             (serve (fun _ => false) some_events (NewServer test_config))).2) /\
  (default ([], NewServer test_config)
     (serve (fun _ => false) some_events (NewServer test_config))).2
  = (default ([], NewServer test_config)
       (serve (fun _ => false) some_events (NewServer test_config))).2.
Proof.
  split; [by vm_compute|]. split; [by vm_compute|].
  apply (status_reply_changes_nothing (fun _ => false) test_config some_events
           (default ([], NewServer test_config)
              (serve (fun _ => false) some_events (NewServer test_config))).1
           _ false true (SetRequest "k" ["w"%byte] None) 60
           Canceled "request canceled"); by vm_compute.
Defined.

(** X29.  On a server with a cache capacity and a concurrency limit of
    at least 1 that is not shedding load, a [Set] call followed by a
    [Get] call of the same key, neither cancelled, answers [success]
    and then [found] with the value set, provided the entry has not
    expired: the request carried no [Ttl], or one that is not positive,
    or the [Get] comes no later than [now + Ttl]. *)
Theorem served_Set_then_Get {A} (over : list A -> bool) (config : Config)
    (evs : list (event A)) rs s key value ttl now now' :
  serve over evs (NewServer config) = Some (rs, s) ->
  1 <= CacheCapacity config -> 1 <= MaxConcurrent config ->
  shouldShedLoad over s = false ->
  match ttl with Some d => d <= 0 \/ now' <= now + d | None => True end ->
  exists s',
    serve over [Call false false (SetRequest key value ttl) now;
                Call false false (GetRequest key) now'] s
    = Some ([Done (SetResponse true); Done (GetResponse value true)], s').
Proof.
  intros E Hcap Hn Hshed Httl. destruct (serve_NewServer over config evs) as [_ H].
  destruct (H rs s E) as (Hsem & _ & [ops Hops] & _).
  destruct (reachable_rep _ _ _ Hops) as (l & Hrep & Hsz & Hc).
  destruct (Set_Get_rep (cache s) l key value
              (match ttl with Some d => d | None => 0 end) now now' Hrep)
    as (c1 & c2 & E1 & E2 & _); [by rewrite Hc|by rewrite Hc| |].
  { destruct ttl; [done|left; lia]. }
  assert (Hge : (MaxConcurrent config - 0 >=? 1) = true).
  { destruct (Z.geb_spec (MaxConcurrent config - 0) 1); [done|lia]. }
  set (s1 := mkServer c1 (NewWeighted (MaxConcurrent config)) (cpuHistory s)
                      (windowSize s)).
  assert (EU1 : unaryInterceptor over false false (SetRequest key value ttl) now s
                = Some (Done (SetResponse true), s1)).
  { unfold unaryInterceptor. rewrite Hshed, Hsem. unfold TryAcquire, NewWeighted.
    cbn [Server.size cur]. rewrite Hge.
    cbn [handler]. unfold Set_. rewrite E1. by cbn. }
  assert (EU2 : unaryInterceptor over false false (GetRequest key) now' s1
                = Some (Done (GetResponse value true),
                        mkServer c2 (NewWeighted (MaxConcurrent config)) (cpuHistory s)
                                 (windowSize s))).
  { unfold unaryInterceptor.
    change (shouldShedLoad over s1) with (shouldShedLoad over s). rewrite Hshed.
    unfold TryAcquire, s1. cbn [semaphore]. unfold NewWeighted.
    cbn [Server.size cur]. rewrite Hge.
    cbn [handler cache]. unfold Get. rewrite E2. by cbn. }
  eexists. cbn [serve]. rewrite EU1. cbn [mbind option_bind fst snd].
  rewrite EU2. by cbn.
Qed.

Lemma served_Set_then_Get_witness :
  serve (fun _ => false) some_events (NewServer test_config)
  = Some (default ([], NewServer test_config)
            (serve (fun _ => false) some_events (NewServer test_config))) /\
  1 <= CacheCapacity test_config /\ 1 <= MaxConcurrent test_config /\
  shouldShedLoad (fun _ => false)
    (default ([], NewServer test_config)
       (serve (fun _ => false) some_events (NewServer test_config))).2 = false /\
  (5 <= 0 \/ 65 <= 60 + 5) /\
  exists s',
    serve (fun _ => false)
          [Call false false (SetRequest "k" ["w"%byte] (Some 5)) 60;
           Call false false (GetRequest "k") 65]
          (default ([], NewServer test_config)
             (serve (fun _ => false) some_events (NewServer test_config))).2
    = Some ([Done (SetResponse true); Done (GetResponse ["w"%byte] true)], s').
Proof.
  split; [by vm_compute|]. split; [by vm_compute|]. split; [by vm_compute|].
  split; [by vm_compute|]. split; [right; lia|].
  apply (served_Set_then_Get (fun _ => false) test_config some_events
           (default ([], NewServer test_config)
              (serve (fun _ => false) some_events (NewServer test_config))).1
           _ "k" ["w"%byte] (Some 5) 60 65);
    [by vm_compute|by vm_compute|by vm_compute|by vm_compute|right; lia].
Defined.
End server_theorems.

(** ** Client, ring, server and cache together *)

Section cluster_theorems.
Import Cluster.
Local Open Scope string_scope.

(** X30.  Read your writes.  Let the read quorum be at least 1 and at
    most the write quorum, and let no two nodes of the ring have the
    same score for the key.  Suppose every replica holds a cache that
    cache operations lead to, of a capacity of at least 1; every reply
    to a [Set] request comes from the [Set] handler of the replica, and
    every replica answers a later [Get] request from its [Get] handler,
    on the cache the [Set] left, before the entry expires on its clock.
    Then after a [Set] of the client that returned [nil], a [Get] of the
    key returns the value set, whatever runs the range loops of [Owners]
    take. *)
Theorem read_your_writes (c : Client.Client) (net1 net2 : Client.Net)
    (it it' : list Ring.Node) (key : string) (value : list byte) (ttl : Z)
    (before after : string -> Cache.Cache) (clock1 clock2 : string -> Z) :
  Ring.no_ties key (Client.ring c) ->
  Ring.range_order (Client.ring c) it -> Ring.range_order (Client.ring c) it' ->
  1 <= Client.readQuorum c <= Client.writeQuorum c ->
  (forall id, replica_cache before id) ->
  (forall id, replica_Set before after clock1 net1 key value ttl id) ->
  (forall id, replica_Get after clock2 net2 key id) ->
  (ttl <= 0 \/ forall id, clock2 id <= clock1 id + ttl) ->
  Client.Set_ c net1 it key value ttl = Some (Ok tt) ->
  Client.Get c net2 it' key = Some (Ok value).
Proof.
  intros Hnt Hit Hit' [HR HRW] Hcache HSet HGet Hfresh HS.
  apply Set_Ok_iff in HS as (wowners & HOw & Hne & _ & Hacks).
  pose proof (Owners_nonneg (Client.ring c) it' key (Client.readQuorum c) ltac:(lia))
    as HOr.
  rewrite (Owners_nonneg (Client.ring c) it key (Client.writeQuorum c)) in HOw by lia.
  injection HOw as HOw.
  pose proof (ranking_prefix key (Client.ring c) it' it
                (Z.to_nat (Z.min (Client.readQuorum c)
                                 (Z.of_nat (size (Ring.nodes (Client.ring c))))))
                (Z.to_nat (Z.min (Client.writeQuorum c)
                                 (Z.of_nat (size (Ring.nodes (Client.ring c))))))
                Hnt Hit' Hit ltac:(lia)) as Hpre.
  rewrite HOw in Hpre.
  remember (take _ (Ring.ranking key it')) as rowners eqn:Er. clear Er.
  destruct rowners as [|p others].
  { apply (Owners_nil_iff _ _ _ _ Hit') in HOr as [Hempty|]; [|lia].
    rewrite Hempty, map_size_empty in HOw. simpl in HOw.
    rewrite Z.min_r, take_0 in HOw by lia. by subst wowners. }
  assert (Hp : p ∈ wowners).
  { destruct Hpre as [k ->]. by left. }
  rewrite Forall_forall in Hacks. specialize (Hacks p Hp).
  unfold Client.set_ack in Hacks. apply andb_true_iff in Hacks as [Hconn Hack].
  apply bool_decide_eq_true in Hconn.
  destruct (Client.rpc_Set net1 (Ring.ID p) key value ttl) as [resp|] eqn:Hrpc; [|done].
  pose proof (HSet (Ring.ID p) resp Hrpc) as HH. rewrite Hack in HH.
  unfold Server.Set_ in HH. simpl in HH.
  set (ttl' := match (if ttl >? 0 then Some ttl else None) with
               | Some d => d
               | None => 0
               end) in HH.
  destruct (Cache.Set_ key value ttl' (clock1 (Ring.ID p)) (before (Ring.ID p)))
    as [c1|] eqn:E1; [|done].
  simpl in HH. injection HH as Hc1.
  destruct (Hcache (Ring.ID p)) as (cap & ops & Hcap & Hrun).
  destruct (reachable_rep _ _ _ Hrun) as (l & Hrep & Hsz & Hc).
  destruct (Set_Get_rep (before (Ring.ID p)) l key value ttl'
              (clock1 (Ring.ID p)) (clock2 (Ring.ID p)) Hrep)
    as (c1' & c2 & E1' & E2 & _); [by rewrite Hc|by rewrite Hc| |].
  { unfold ttl'. destruct (Z.gtb_spec ttl 0); [|by left].
    destruct Hfresh as [|Hfresh]; [lia|]. right. apply Hfresh. }
  rewrite E1 in E1'. injection E1' as <-. rewrite Hc1 in E2.
  destruct (HGet (Ring.ID p)) as (v & f & c' & EG & Hreply).
  unfold Server.Get in EG. simpl in EG. rewrite E2 in EG. simpl in EG.
  injection EG as <- <- _.
  rewrite Get_unfold, HOr. simpl. f_equal.
  unfold Client.getFromNode, Client.getConnection.
  rewrite decide_True by done. rewrite Hreply. simpl.
  by destruct (Client.hedgeTimeout c >? 0).
Qed.

Lemma read_your_writes_witness :
  Ring.no_ties "test-key" (Client.ring Client.client3) /\
  Ring.range_order (Client.ring Client.client3) (Ring.members Ring.ring3) /\
  Ring.range_order (Client.ring Client.client3) (rev (Ring.members Ring.ring3)) /\
  1 <= Client.readQuorum Client.client3 <= Client.writeQuorum Client.client3 /\
  (forall id, replica_cache new_replicas id) /\
  (forall id, replica_Set new_replicas written_replicas (fun _ => 10)
                (net_of new_replicas 10) "test-key" ["v"%byte] 0 id) /\
  (forall id, replica_Get written_replicas (fun _ => 20)
                (net_of written_replicas 20) "test-key" id) /\
  (0 <= 0 \/ forall id : string, 20 <= 10 + 0) /\
  Client.Set_ Client.client3 (net_of new_replicas 10) (Ring.members Ring.ring3)
              "test-key" ["v"%byte] 0 = Some (Ok tt) /\
  Client.Get Client.client3 (net_of written_replicas 20)
             (rev (Ring.members Ring.ring3)) "test-key" = Some (Ok ["v"%byte]).
Proof.
  assert (T : Ring.no_ties "test-key" (Client.ring Client.client3)).
  { apply no_ties_NoDup. apply (bool_decide_unpack _). by vm_compute. }
  assert (R : Ring.range_order (Client.ring Client.client3) (Ring.members Ring.ring3))
    by (unfold Ring.range_order, Ring.members; reflexivity).
  assert (R' : Ring.range_order (Client.ring Client.client3)
                 (rev (Ring.members Ring.ring3)))
    by (unfold Ring.range_order, Ring.members; apply Permutation_sym, Permutation_rev).
  assert (Q : 1 <= Client.readQuorum Client.client3 <= Client.writeQuorum Client.client3)
    by (by vm_compute).
  assert (C : forall id, replica_cache new_replicas id).
  { intros id. exists 1000, []. split; [lia|done]. }
  assert (S : forall id, replica_Set new_replicas written_replicas (fun _ => 10)
                (net_of new_replicas 10) "test-key" ["v"%byte] 0 id).
  { intros id resp H. vm_compute in H. injection H as <-. by vm_compute. }
  assert (G : forall id, replica_Get written_replicas (fun _ => 20)
                (net_of written_replicas 20) "test-key" id).
  { intros id. eexists _, _, _. split; by vm_compute. }
  assert (F : 0 <= 0 \/ forall id : string, 20 <= 10 + 0) by (left; lia).
  assert (W : Client.Set_ Client.client3 (net_of new_replicas 10)
                (Ring.members Ring.ring3) "test-key" ["v"%byte] 0 = Some (Ok tt))
    by (by vm_compute).
  split; [exact T|]. split; [exact R|]. split; [exact R'|]. split; [exact Q|].
  split; [exact C|]. split; [exact S|]. split; [exact G|]. split; [exact F|].
  split; [exact W|].
  exact (read_your_writes Client.client3 _ _ _ _ "test-key" ["v"%byte] 0
           new_replicas written_replicas (fun _ => 10) (fun _ => 20)
           T R R' Q C S G F W).
Defined.
End cluster_theorems.
